(** * SML mod handler: discovery, extraction cache, dependency resolution

    A shallow embedding of [Source/SML/mod/ModHandler.cpp] and the
    properties its specification states about it.

    Conventions.
    - [std::wstring] and [std::string] are [string]; [TEXT("...")] literals
      are string literals.
    - [size_t] values are [Z] in the range [0 .. 2^64 - 1]; [npos] is
      [2^64 - 1] and subtraction wraps.
    - A C++ exception is the [Thrown] outcome of a function.
    - [std::unordered_map] is a finite map ([gmap]); [operator[]] on an
      absent key adds a value-initialised element. *)

From Stdlib Require Import ZArith Ascii String List Lia Permutation.
From stdpp Require Import base option list gmap strings fin_maps relations sorting.

Local Open Scope string_scope.
Local Open Scope Z_scope.

(** ** Outcomes of functions that may throw *)

Inductive outcome (A : Type) : Type :=
| Returned (a : A)
| Thrown (what : string).
Arguments Returned {A} a.
Arguments Thrown {A} what.

(** ** [std::basic_string] operations used by the source *)

Module WString.

Definition size_max : Z := 2 ^ 64.
Definition npos : Z := size_max - 1.

(** [size_t] subtraction. *)
Definition size_sub (a b : Z) : Z := (a - b) mod size_max.

Definition size (s : string) : Z := Z.of_nat (String.length s).

Definition chars (s : string) : list ascii := list_ascii_of_string s.

(** Index of the first element satisfying [p], counted from [i]. *)
Fixpoint first_from (p : ascii -> bool) (l : list ascii) (i : Z) : Z :=
  match l with
  | [] => npos
  | c :: l' => if p c then i else first_from p l' (i + 1)
  end.

(** Index of the last element satisfying [p], counted from [i]. *)
Fixpoint last_from (p : ascii -> bool) (l : list ascii) (i : Z) : Z :=
  match l with
  | [] => npos
  | c :: l' =>
      let r := last_from p l' (i + 1) in
      if r =? npos then (if p c then i else npos) else r
  end.

(** [s.find(c)] *)
Definition find (s : string) (c : ascii) : Z :=
  first_from (Ascii.eqb c) (chars s) 0.

(** [s.find_last_of(c)] for one character. *)
Definition find_last_of_char (s : string) (c : ascii) : Z :=
  last_from (Ascii.eqb c) (chars s) 0.

(** [s.find_last_of(set)]: the last position holding any character of
    [set]. *)
Definition find_last_of (s set : string) : Z :=
  last_from (fun c => existsb (Ascii.eqb c) (chars set)) (chars s) 0.

(** [s.substr(0, count)]: at most [count] characters from the start. *)
Definition substr0 (s : string) (count : Z) : string :=
  string_of_list_ascii (firstn (Z.to_nat (Z.min count (size s))) (chars s)).

(** [s.erase(index)]: drops everything from [index] on;
    [std::out_of_range] when [index > size()]. *)
Definition erase (s : string) (index : Z) : outcome string :=
  if size s <? index then Thrown "out_of_range"
  else Returned (string_of_list_ascii (firstn (Z.to_nat index) (chars s))).

End WString.

(** ** [std::filesystem::path] pieces: a path is its generic string *)

Module Path.

(** [filename()] of a generic path: what follows the last ['/']. *)
Definition filename (p : string) : string :=
  let i := WString.find_last_of_char p "/"%char in
  if i =? WString.npos then p
  else string_of_list_ascii (skipn (Z.to_nat (i + 1)) (WString.chars p)).

(** [extension()]: the file name from its last ['.'] on, empty when it
    has none. *)
Definition extension (p : string) : string :=
  let f := filename p in
  let i := WString.find_last_of_char f "."%char in
  if i =? WString.npos then ""
  else string_of_list_ascii (skipn (Z.to_nat i) (WString.chars f)).

(** [dir / name] *)
Definition join (dir name : string) : string := dir ++ "/" ++ name.

End Path.

(** ** [getModIdFromFile] *)

Definition getModIdFromFile (filePath : string) : outcome string :=
  let modId := Path.filename filePath in
  (* remove extension from file name *)
  match WString.erase modId (WString.find_last_of_char modId "."%char) with
  | Thrown e => Thrown e
  | Returned modId =>
      if String.eqb (Path.extension filePath) ".dll" then
        Returned (WString.substr0 modId (WString.find modId "-"%char))
      else if String.eqb (Path.extension filePath) ".pak" then
        if WString.find_last_of modId "_p" =? WString.size_sub (WString.size modId) 2
        then WString.erase modId (WString.find_last_of modId "_p")
        else Returned modId
      else Returned modId
  end.

(** ** Versions

    [FVersion] and [FVersionRange] are declared outside this file; the
    handler only constructs, prints and matches them. *)

Class Versions := {
  FVersion : Type;
  FVersionRange : Type;
  (** [FVersion()] *)
  FVersion_default : FVersion;
  (** [FVersion::string()] *)
  FVersion_string : FVersion -> string;
  (** [FVersionRange(const std::wstring&)] *)
  FVersionRange_parse : string -> FVersionRange;
  (** [FVersionRange::string()] *)
  FVersionRange_string : FVersionRange -> string;
  (** [FVersionRange::matches(const FVersion&)] *)
  FVersionRange_matches : FVersionRange -> FVersion -> bool;
  (** the version [FModInfo::createDummyInfo] gives every dummy descriptor *)
  dummyVersion : FVersion;
  (** [getModLoaderVersion()] *)
  getModLoaderVersion : FVersion;
}.

(** ** The host: hashing, directories, configuration *)

Class Host := {
  (** [picosha2::hash256] followed by [bytes_to_hex_string] *)
  hash256_hex : list Byte.byte -> string;
  (** [SML::getCacheDirectory()] *)
  getCacheDirectory : string;
  (** [getModConfigFilePath(modid)] *)
  getModConfigFilePath : string -> string;
  (** [SML::getSMLConfig().debugLogOutput] *)
  debugLogOutput : bool;
}.

(** [formatStr(a, b, ...)] is defined in [util/Utility.h], outside this
    file; its uses here, messages assembled from literal pieces and
    values, fix it as printing the arguments one after another. *)
Definition formatStr (parts : list string) : string := String.concat "" parts.

Inductive LogLevel := LogInfo | LogWarning | LogError | LogFatal.

Section DataModel.
Context `{Versions}.

(** Modelled from the spec: [FModInfo] is declared in a header that is not
    among the sources. The spec's ModDescriptor has a mod id, a display
    name, a version, a description, authors, required and optional
    dependencies; the members are named as this file accesses them. The
    two dependency tables are [std::unordered_map]s from mod id to range;
    they are kept as association lists with distinct keys, in the order a
    [for] loop visits them. The order constraints of the spec have no
    member of their own: the source keeps the tag [@ORDER:LAST] among the
    dependencies. *)
Record FModInfo := {
  modid : string;
  name : string;
  version : FVersion;
  description : string;
  authors : list string;
  dependencies : list (string * FVersionRange);
  optionalDependencies : list (string * FVersionRange);
}.

(** A value-initialised [FModInfo]. *)
Definition FModInfo_default : FModInfo :=
  {| modid := ""; name := ""; version := FVersion_default; description := "";
     authors := []; dependencies := []; optionalDependencies := [] |}.

(** Modelled from the spec: [FModInfo::createDummyInfo] is defined outside
    this file. The spec describes its result as a synthetic dummy
    descriptor with no dependencies and a fixed version; the display name
    is taken to be the mod id and the remaining text fields are empty. *)
Definition createDummyInfo (modId : string) : FModInfo :=
  {| modid := modId; name := modId; version := dummyVersion; description := "";
     authors := []; dependencies := []; optionalDependencies := [] |}.

(** [dependencies.find(key) != dependencies.end()] *)
Definition has_key {V} (key : string) (m : list (string * V)) : bool :=
  existsb (fun p => String.eqb (fst p) key) m.

(** [dependencies.insert({key, v})]: no effect when [key] is present. *)
Definition table_insert {V} (key : string) (v : V) (m : list (string * V))
  : list (string * V) :=
  if has_key key m then m else (m ++ [(key, v)])%list.

Definition set_dependencies (i : FModInfo) (d : list (string * FVersionRange)) :=
  {| modid := modid i; name := name i; version := version i;
     description := description i; authors := authors i;
     dependencies := d; optionalDependencies := optionalDependencies i |}.

(** Modelled from the spec: [FModLoadingEntry] is declared in
    [ModHandler.h], which is not among the sources. The spec's
    LoadingEntry has a descriptor, a source location, a validity flag, a
    raw-mod flag, at most one dynamic module path and an ordered list of
    pak paths; the members are named as this file accesses them. *)
Record FModLoadingEntry := {
  isValid : bool;
  modInfo : FModInfo;
  virtualModFilePath : string;
  dllFilePath : string;
  pakFilePaths : list string;
  isRawMod : bool;
}.

(** A value-initialised entry, as [loadingEntries[key]] creates it, and
    the global [INVALID_ENTRY{ false }]. Both flags are false: the source
    tests [isValid] right after [loadingEntries[key]] to tell a new
    element from a registered one, and [isRawMod] on entries that
    [createLoadingEntry] filled without ever writing it. *)
Definition FModLoadingEntry_default : FModLoadingEntry :=
  {| isValid := false; modInfo := FModInfo_default; virtualModFilePath := "";
     dllFilePath := ""; pakFilePaths := []; isRawMod := false |}.

Definition INVALID_ENTRY : FModLoadingEntry := FModLoadingEntry_default.

Definition set_dllFilePath (e : FModLoadingEntry) (p : string) :=
  {| isValid := isValid e; modInfo := modInfo e;
     virtualModFilePath := virtualModFilePath e; dllFilePath := p;
     pakFilePaths := pakFilePaths e; isRawMod := isRawMod e |}.

Definition push_pakFilePath (e : FModLoadingEntry) (p : string) :=
  {| isValid := isValid e; modInfo := modInfo e;
     virtualModFilePath := virtualModFilePath e; dllFilePath := dllFilePath e;
     pakFilePaths := (pakFilePaths e ++ [p])%list; isRawMod := isRawMod e |}.

(** [createSMLLoadingEntry] *)
Definition createSMLLoadingEntry : FModLoadingEntry :=
  let d := createDummyInfo "SML" in
  {| isValid := true;
     modInfo := {| modid := modid d; name := "Satisfactory Mod Loader";
                   version := getModLoaderVersion;
                   description := "Mod Loading & Compatibility layer for Satisfactory";
                   authors := ["TODO"];
                   dependencies := dependencies d;
                   optionalDependencies := optionalDependencies d |};
     virtualModFilePath := ""; dllFilePath := ""; pakFilePaths := [];
     isRawMod := false |}.

End DataModel.


(** ** Archive objects and the disk

    [ttvfs] is a library outside these sources. A [ttvfs::File] is taken
    as the source uses it: its bytes and a read position, where
    [read(dst, n)] copies at most [n] bytes starting at the position and
    advances it, [getpos()] is the position and [size()] the number of
    bytes. This is what the copy loop of [extractArchiveFile] relies on:
    it reads 4096 bytes at a time until [getpos()] reaches [size()]. *)

Record File := {
  contents : list Byte.byte;
  getpos : nat;
}.

Definition File_size (f : File) : nat := length (contents f).

Definition File_read (f : File) (n : nat) : list Byte.byte * File :=
  let bs := take n (drop (getpos f) (contents f)) in
  (bs, {| contents := contents f; getpos := getpos f + length bs |}).

(** A file as an archive hands it out before anything was read. *)
Definition fresh_file (bs : list Byte.byte) : File :=
  {| contents := bs; getpos := 0 |}.

(** The same file once it was read to its end. *)
Definition exhausted (bs : list Byte.byte) : File :=
  {| contents := bs; getpos := length bs |}.

(** The files of a mounted archive ([ttvfs::Root]), by internal path. *)
Abbreviation Root := (gmap string File).

(** The disk: regular files by generic path. *)
Abbreviation Disk := (gmap string (list Byte.byte)).

(** [exists(path)] *)
Definition path_exists (d : Disk) (p : string) : bool :=
  match d !! p with Some _ => true | None => false end.

Section Extraction.
Context `{Versions} `{Host}.

(** [hashFileContents]: the digest of what an [ifstream] on the path
    yields (nothing, when the file cannot be opened). *)
Definition hashFileContents (d : Disk) (p : string) : string :=
  hash256_hex (default [] (d !! p)).

(** [generateTempFilePath] *)
Definition generateTempFilePath (fileHash : string) : string :=
  Path.join getCacheDirectory fileHash.

(** The [do ... while (obj->getpos() < obj->size())] loop of
    [extractArchiveFile]; [fuel] bounds the iterations after the first. *)
Fixpoint extract_loop (fuel : nat) (obj : File) (written : list Byte.byte)
  : list Byte.byte * File :=
  let '(chunk, obj') := File_read obj 4096 in
  let written' := (written ++ chunk)%list in
  match fuel with
  | O => (written', obj')
  | S fuel' =>
      if (getpos obj' <? File_size obj')%nat
      then extract_loop fuel' obj' written'
      else (written', obj')
  end.

(** [extractArchiveFile]: the output stream creates or truncates the file,
    then the loop copies what the object still has to give. *)
Definition extractArchiveFile (outFilePath : string) (obj : File) (d : Disk)
  : Disk * File :=
  let '(written, obj') := extract_loop (File_size obj) obj [] in
  (<[outFilePath := written]> d, obj').

(** [hashArchiveFileContents]: a zero-filled buffer of [size()] bytes, one
    [read] of [size()] bytes into it, and the digest of the whole buffer. *)
Definition hashArchiveFileContents (obj : File) : string * File :=
  let '(bs, obj') := File_read obj (File_size obj) in
  let buffer := (bs ++ replicate (File_size obj - length bs)%nat Byte.x00)%list in
  (hash256_hex buffer, obj').

(** What [extractArchiveObject] works on: the archive's files (read
    through pointers, so their positions persist), the disk and the
    loading entry passed by reference. *)
Record Extraction := {
  ex_root : Root;
  ex_disk : Disk;
  ex_entry : FModLoadingEntry;
}.

(** [extractArchiveObject] *)
Definition extractArchiveObject (objectType archivePath : string) (x : Extraction)
  : Extraction * outcome unit :=
  match ex_root x !! archivePath with
  | None => (x, Thrown "object specified in data.json is missing in zip")
  | Some objectFile =>
      if String.eqb objectType "config" then
        (* extract mod configuration into the predefined folder *)
        let configFilePath := getModConfigFilePath (modid (modInfo (ex_entry x))) in
        if path_exists (ex_disk x) configFilePath then (x, Returned tt)
        else
          let '(d, obj) := extractArchiveFile configFilePath objectFile (ex_disk x) in
          ({| ex_root := <[archivePath := obj]> (ex_root x); ex_disk := d;
              ex_entry := ex_entry x |}, Returned tt)
      else
        (* extract other files into caches folder *)
        let '(fileHash, obj1) := hashArchiveFileContents objectFile in
        let filePath := generateTempFilePath fileHash in
        let '(d, obj2) :=
          if negb (path_exists (ex_disk x) filePath)
             || negb (String.eqb fileHash (hashFileContents (ex_disk x) filePath))
          then extractArchiveFile filePath obj1 (delete filePath (ex_disk x))
          else (ex_disk x, obj1) in
        let root := <[archivePath := obj2]> (ex_root x) in
        if String.eqb objectType "pak" then
          ({| ex_root := root; ex_disk := d;
              ex_entry := push_pakFilePath (ex_entry x) filePath |}, Returned tt)
        else if String.eqb objectType "sml_mod" then
          if negb (String.eqb (dllFilePath (ex_entry x)) "") then
            ({| ex_root := root; ex_disk := d; ex_entry := ex_entry x |},
             Thrown "mod can only have one DLL module at a time")
          else
            ({| ex_root := root; ex_disk := d;
                ex_entry := set_dllFilePath (ex_entry x) filePath |}, Returned tt)
        else if String.eqb objectType "core_mod" then
          ({| ex_root := root; ex_disk := d; ex_entry := ex_entry x |},
           Thrown "core mods are not supported by this version of SML")
        else
          ({| ex_root := root; ex_disk := d; ex_entry := ex_entry x |},
           Thrown "Unknown archive object type encountered")
  end.

(** The [objects] member of [data.json] as [extractArchiveObjects] reads
    it: not an array, or a sequence of items that are either malformed or
    a [(type, path)] pair. *)
Definition ObjectList := option (list (option (string * string))).

Fixpoint extractArchiveObjects_items (items : list (option (string * string)))
  (x : Extraction) : Extraction * outcome unit :=
  match items with
  | [] => (x, Returned tt)
  | None :: _ => (x, Thrown "one of object entries in data.json has invalid format")
  | Some (objType, path) :: rest =>
      match extractArchiveObject objType path x with
      | (x', Returned _) => extractArchiveObjects_items rest x'
      | (x', Thrown e) => (x', Thrown e)
      end
  end.

(** [extractArchiveObjects] *)
Definition extractArchiveObjects (objects : ObjectList) (x : Extraction)
  : Extraction * outcome unit :=
  match objects with
  | None => (x, Thrown "missing `objects` array in data.json")
  | Some items => extractArchiveObjects_items items x
  end.

End Extraction.

(** ** The platform the handler loads mods into

    Loading a dynamic module, the module manager, mounting paks and
    loading classes are calls into the hosting process; they act on an
    [Engine] state the handler never inspects. *)

Class Platform := {
  Engine : Type;
  HLOADEDMODULE : Type;
  FInitializeModuleFunctionPtr : Type;
  IModuleInterface : Type;
  UClass : Type;
  (** [accessors.LoadModule(path)]: a handle, [nullptr], or an exception *)
  LoadModule : string -> Engine -> Engine * outcome (option HLOADEDMODULE);
  (** [accessors.GetModuleProcAddress(module, "InitializeModule")] *)
  GetModuleProcAddress : HLOADEDMODULE -> string -> Engine
                         -> option FInitializeModuleFunctionPtr;
  (** [&InitializeSMLModule] *)
  InitializeSMLModule : FInitializeModuleFunctionPtr;
  (** [FModuleManager]: [IsModuleLoaded], [GetModule],
      [AddModuleToModulesList], by module name *)
  IsModuleLoaded : string -> Engine -> bool;
  GetModule : string -> Engine -> IModuleInterface;
  AddModuleToModulesList : string -> IModuleInterface -> Engine -> Engine;
  (** calling a module initializer, and [StartupModule()] on its result *)
  callInitializer : FInitializeModuleFunctionPtr -> Engine -> Engine * IModuleInterface;
  StartupModule : IModuleInterface -> Engine -> Engine;
  (** [new FDefaultModuleImpl()] *)
  newDefaultModuleImpl : Engine -> Engine * IModuleInterface;
  (** [FCoreDelegates::OnMountPak.Execute(path, 0, nullptr)] *)
  OnMountPak : string -> Engine -> Engine;
  (** [LoadClass<AActor>(nullptr, path)] *)
  LoadClass : string -> Engine -> Engine * option UClass;
}.

Inductive EntryRef :=
| InvalidEntryRef           (* a reference to the global INVALID_ENTRY *)
| EntryRefAt (key : string) (* a reference to loadingEntries[key] *).

Section Handler.
Context `{Versions} `{Host} `{Platform}.

(** [FModContainer{ modInfo, moduleInterface }], declared in a header
    outside this file; the members are those of the aggregate
    initialisation in [loadMods]. *)
Record FModContainer := {
  container_modInfo : FModInfo;
  container_module : IModuleInterface;
}.

(** [FModPakLoadEntry{ modid, modInitClass, menuInitClass }] *)
Record FModPakLoadEntry := {
  pak_modid : string;
  modInitClass : option UClass;
  menuInitClass : option UClass;
}.

(** The members of [FModHandler] this file uses, together with what its
    methods act on outside the object: the log, the requests to shut the
    engine down, the disk and the engine. *)
Record FModHandler := {
  loadingEntries : gmap string FModLoadingEntry;
  loadingProblems : list string;
  sortedModLoadList : list FModLoadingEntry;
  loadedMods : gmap string FModContainer;
  loadedModsList : list FModContainer;
  loadedModsModIDs : list string;
  modPakInitializers : list FModPakLoadEntry;
  logged : list (LogLevel * string);
  shutdownRequests : list string;
  disk : Disk;
  engine : Engine;
}.

Definition set_loadingEntries (st : FModHandler) (m : gmap string FModLoadingEntry) :=
  {| loadingEntries := m; loadingProblems := loadingProblems st;
     sortedModLoadList := sortedModLoadList st; loadedMods := loadedMods st;
     loadedModsList := loadedModsList st; loadedModsModIDs := loadedModsModIDs st;
     modPakInitializers := modPakInitializers st; logged := logged st;
     shutdownRequests := shutdownRequests st; disk := disk st; engine := engine st |}.

Definition set_loadingProblems (st : FModHandler) (l : list string) :=
  {| loadingEntries := loadingEntries st; loadingProblems := l;
     sortedModLoadList := sortedModLoadList st; loadedMods := loadedMods st;
     loadedModsList := loadedModsList st; loadedModsModIDs := loadedModsModIDs st;
     modPakInitializers := modPakInitializers st; logged := logged st;
     shutdownRequests := shutdownRequests st; disk := disk st; engine := engine st |}.

Definition set_sortedModLoadList (st : FModHandler) (l : list FModLoadingEntry) :=
  {| loadingEntries := loadingEntries st; loadingProblems := loadingProblems st;
     sortedModLoadList := l; loadedMods := loadedMods st;
     loadedModsList := loadedModsList st; loadedModsModIDs := loadedModsModIDs st;
     modPakInitializers := modPakInitializers st; logged := logged st;
     shutdownRequests := shutdownRequests st; disk := disk st; engine := engine st |}.

Definition set_logged (st : FModHandler) (l : list (LogLevel * string)) :=
  {| loadingEntries := loadingEntries st; loadingProblems := loadingProblems st;
     sortedModLoadList := sortedModLoadList st; loadedMods := loadedMods st;
     loadedModsList := loadedModsList st; loadedModsModIDs := loadedModsModIDs st;
     modPakInitializers := modPakInitializers st; logged := l;
     shutdownRequests := shutdownRequests st; disk := disk st; engine := engine st |}.

Definition set_shutdownRequests (st : FModHandler) (l : list string) :=
  {| loadingEntries := loadingEntries st; loadingProblems := loadingProblems st;
     sortedModLoadList := sortedModLoadList st; loadedMods := loadedMods st;
     loadedModsList := loadedModsList st; loadedModsModIDs := loadedModsModIDs st;
     modPakInitializers := modPakInitializers st; logged := logged st;
     shutdownRequests := l; disk := disk st; engine := engine st |}.

Definition set_disk (st : FModHandler) (d : Disk) :=
  {| loadingEntries := loadingEntries st; loadingProblems := loadingProblems st;
     sortedModLoadList := sortedModLoadList st; loadedMods := loadedMods st;
     loadedModsList := loadedModsList st; loadedModsModIDs := loadedModsModIDs st;
     modPakInitializers := modPakInitializers st; logged := logged st;
     shutdownRequests := shutdownRequests st; disk := d; engine := engine st |}.

Definition set_engine (st : FModHandler) (e : Engine) :=
  {| loadingEntries := loadingEntries st; loadingProblems := loadingProblems st;
     sortedModLoadList := sortedModLoadList st; loadedMods := loadedMods st;
     loadedModsList := loadedModsList st; loadedModsModIDs := loadedModsModIDs st;
     modPakInitializers := modPakInitializers st; logged := logged st;
     shutdownRequests := shutdownRequests st; disk := disk st; engine := e |}.

(** [FModHandler::FModHandler() {}] on a given disk and engine. *)
Definition newModHandler (d : Disk) (e : Engine) : FModHandler :=
  {| loadingEntries := ∅; loadingProblems := []; sortedModLoadList := [];
     loadedMods := ∅; loadedModsList := []; loadedModsModIDs := [];
     modPakInitializers := []; logged := []; shutdownRequests := [];
     disk := d; engine := e |}.

(** [SML::Logging::info / warning / error / fatal] *)
Definition log (lvl : LogLevel) (message : string) (st : FModHandler) : FModHandler :=
  set_logged st (logged st ++ [(lvl, message)])%list.

(** [loadingProblems.push_back(message)] *)
Definition push_problem (message : string) (st : FModHandler) : FModHandler :=
  set_loadingProblems st (loadingProblems st ++ [message])%list.

(** [m[key]] on a [std::unordered_map]: the element, after adding a
    value-initialised one when the key was absent. *)
Definition touch (key : string) (m : gmap string FModLoadingEntry)
  : gmap string FModLoadingEntry :=
  match m !! key with
  | Some _ => m
  | None => <[key := FModLoadingEntry_default]> m
  end.

Definition entry_at (m : gmap string FModLoadingEntry) (key : string)
  : FModLoadingEntry :=
  default FModLoadingEntry_default (m !! key).

(** Reading through a reference returned by the [create...] methods. *)
Definition deref (st : FModHandler) (r : EntryRef) : FModLoadingEntry :=
  match r with
  | InvalidEntryRef => INVALID_ENTRY
  | EntryRefAt key => entry_at (loadingEntries st) key
  end.

(** [FModHandler::checkStageErrors]. The loop variable of the [for] hides
    the outer [message]: every problem gets itself and a newline appended,
    the text that is logged and passed on stays the headline. *)
Definition checkStageErrors (stageName : string) (st : FModHandler) : FModHandler :=
  match loadingProblems st with
  | [] => st
  | _ =>
      let message := formatStr ["Errors occurred during mod loading stage '";
                                stageName; "'. Loading cannot continue:" ++ String (ascii_of_nat 10) ""] in
      let st := set_loadingProblems st
                  (map (fun p => p ++ p ++ String (ascii_of_nat 10) "") (loadingProblems st)) in
      let st := log LogFatal message st in
      let st := set_shutdownRequests st (shutdownRequests st ++ [message])%list in
      set_loadingProblems st []
  end.

(** [FModHandler::reportBrokenZipMod] *)
Definition reportBrokenZipMod (filePath reason : string) (st : FModHandler) : FModHandler :=
  let message := formatStr ["Failed to load zip mod from "; filePath; reason] in
  push_problem message (log LogFatal message st).

(** [FModHandler::checkAndNotifyRawMod] *)
Definition checkAndNotifyRawMod (filePath : string) (st : FModHandler)
  : FModHandler * bool :=
  if negb debugLogOutput then
    let st := log LogError (formatStr ["Found raw mod in mods directory: "; filePath]) st in
    let st := log LogError "Raw mods are not supported in production mode and can be used only for development" st in
    (push_problem (formatStr ["Found unsupported raw mod file: "; filePath]) st, false)
  else
    let st := log LogWarning (formatStr ["Loading development raw mod: "; filePath]) st in
    (log LogWarning "Dependencies and versioning won't work!" st, true).

(** [FModHandler::createLoadingEntry] *)
Definition createLoadingEntry (info : FModInfo) (filePath : string) (st : FModHandler)
  : FModHandler * EntryRef :=
  let entries := touch (modid info) (loadingEntries st) in
  let loadingEntry := entry_at entries (modid info) in
  if isValid loadingEntry then
    let message := formatStr ["Found duplicate mods with same mod ID "; modid info; ": ";
                              filePath; " and "; virtualModFilePath loadingEntry] in
    (push_problem message (log LogFatal message (set_loadingEntries st entries)),
     InvalidEntryRef)
  else
    let loadingEntry :=
      {| isValid := true; modInfo := info; virtualModFilePath := filePath;
         dllFilePath := dllFilePath loadingEntry;
         pakFilePaths := pakFilePaths loadingEntry;
         isRawMod := isRawMod loadingEntry |} in
    (set_loadingEntries st (<[modid info := loadingEntry]> entries), EntryRefAt (modid info)).

(** [FModHandler::createRawModLoadingEntry] *)
Definition createRawModLoadingEntry (modId filePath : string) (st : FModHandler)
  : FModHandler * EntryRef :=
  let entries := touch modId (loadingEntries st) in
  let loadingEntry := entry_at entries modId in
  let loadingEntry :=
    if negb (isValid loadingEntry) then
      {| isValid := true;
         modInfo := set_dependencies (createDummyInfo modId)
                      (table_insert "@ORDER:LAST" (FVersionRange_parse "1.0.0")
                         (dependencies (createDummyInfo modId)));
         virtualModFilePath := filePath;
         dllFilePath := dllFilePath loadingEntry;
         pakFilePaths := pakFilePaths loadingEntry;
         isRawMod := true |}
    else loadingEntry in
  let st := set_loadingEntries st (<[modId := loadingEntry]> entries) in
  if negb (isRawMod loadingEntry) then
    let message := formatStr ["Found raw mod file conflicting with packed mod: "; filePath] in
    (push_problem message (log LogFatal message st), InvalidEntryRef)
  else (st, EntryRefAt modId).

(** Writing a member of the entry a valid reference points to. *)
Definition update_entry (key : string) (f : FModLoadingEntry -> FModLoadingEntry)
  (st : FModHandler) : FModHandler :=
  set_loadingEntries st (<[key := f (entry_at (loadingEntries st) key)]> (loadingEntries st)).

(** The part of [constructDllMod] and [constructPakMod] after the mod id
    is known. *)
Definition registerRawMod (modId filePath : string)
  (f : FModLoadingEntry -> FModLoadingEntry) (st : FModHandler) : FModHandler :=
  match createRawModLoadingEntry modId filePath st with
  | (st, InvalidEntryRef) => st
  | (st, EntryRefAt key) =>
      if negb (isValid (entry_at (loadingEntries st) key)) then st
      else update_entry key f st
  end.

(** [FModHandler::constructDllMod] *)
Definition constructDllMod (filePath : string) (st : FModHandler) : outcome FModHandler :=
  match checkAndNotifyRawMod filePath st with
  | (st, false) => Returned st
  | (st, true) =>
      match getModIdFromFile filePath with
      | Thrown e => Thrown e
      | Returned modId =>
          Returned (registerRawMod modId filePath (fun e => set_dllFilePath e filePath) st)
      end
  end.

(** [FModHandler::constructPakMod] *)
Definition constructPakMod (filePath : string) (st : FModHandler) : outcome FModHandler :=
  match checkAndNotifyRawMod filePath st with
  | (st, false) => Returned st
  | (st, true) =>
      match getModIdFromFile filePath with
      | Thrown e => Thrown e
      | Returned modId =>
          Returned (registerRawMod modId filePath (fun e => push_pakFilePath e filePath) st)
      end
  end.

End Handler.

(** ** The sorting graph

    Modelled from the spec: [util/TopologicalSort.h] ([DirectedGraph],
    [topologicalSort], [cycle_detected]) is not among the sources. The
    spec gives the graph integer nodes and directed "requires" edges from
    dependent to dependency; the sort is deterministic, every dependency
    precedes its dependents, ties are broken by the order in which the
    nodes were added, and on a cycle the whole sort fails naming one
    implicated node. The spec fixes neither the rule by which nodes are
    placed nor which node of a cycle is named. The sort below is one
    that meets its sentences: at every step it places the first node (in
    the order of addition) all of whose dependencies are placed, and
    when no node can be placed it names a node that lies on a cycle,
    reached from the first pending node by stepping to a dependency not
    yet placed as many times as there are pending nodes. *)

Record DirectedGraph := {
  graph_nodes : list nat;
  graph_edges : list (nat * nat);
}.

Definition emptyGraph : DirectedGraph := {| graph_nodes := []; graph_edges := [] |}.

Definition addNode (n : nat) (g : DirectedGraph) : DirectedGraph :=
  if bool_decide (n ∈ graph_nodes g) then g
  else {| graph_nodes := (graph_nodes g ++ [n])%list; graph_edges := graph_edges g |}.

Definition addEdge (from to : nat) (g : DirectedGraph) : DirectedGraph :=
  {| graph_nodes := graph_nodes g; graph_edges := (graph_edges g ++ [(from, to)])%list |}.

Inductive sort_result :=
| Sorted (order : list nat)
| cycle_detected (cycleNode : nat).

(** Every node [n] requires is among [placed]. *)
Definition ready (g : DirectedGraph) (placed : list nat) (n : nat) : bool :=
  forallb (fun e => if (fst e =? n)%nat then bool_decide (snd e ∈ placed) else true)
          (graph_edges g).

(** The first ready node of [pending], and [pending] without it. *)
Fixpoint take_first_ready (g : DirectedGraph) (placed pending : list nat)
  : option (nat * list nat) :=
  match pending with
  | [] => None
  | n :: rest =>
      if ready g placed n then Some (n, rest)
      else match take_first_ready g placed rest with
           | Some (m, rest') => Some (m, n :: rest')
           | None => None
           end
  end.

(** The first dependency of [n] that is not placed yet ([n] itself when
    it has none). *)
Definition waits_for (g : DirectedGraph) (placed : list nat) (n : nat) : nat :=
  match List.filter (fun e => (fst e =? n)%nat && negb (bool_decide (snd e ∈ placed)))
                    (graph_edges g) with
  | e :: _ => snd e
  | [] => n
  end.

(** [steps] times from a node to the dependency it waits for. *)
Fixpoint follow (steps : nat) (g : DirectedGraph) (placed : list nat) (n : nat) : nat :=
  match steps with
  | O => n
  | S steps' => follow steps' g placed (waits_for g placed n)
  end.

Fixpoint sort_loop (fuel : nat) (g : DirectedGraph) (pending placed : list nat)
  : sort_result :=
  match pending with
  | [] => Sorted placed
  | first :: _ =>
      match fuel with
      | O => cycle_detected (follow (length pending) g placed first)
      | S fuel' =>
          match take_first_ready g placed pending with
          | None => cycle_detected (follow (length pending) g placed first)
          | Some (n, rest) => sort_loop fuel' g rest (placed ++ [n])%list
          end
      end
  end.

Definition topologicalSort (g : DirectedGraph) : sort_result :=
  sort_loop (length (graph_nodes g)) g (graph_nodes g) [].

(** ** Dependency resolution *)

Section Resolver.
Context `{Versions} `{Host} `{Platform}.

(** [modIndices[key]] and [modByIndex[index]]: an absent key reads as the
    value-initialised element [operator[]] adds for it. Both maps are
    locals of [checkDependencies] that are only ever read this way. *)
Definition index_of (modIndices : gmap string nat) (key : string) : nat :=
  default 0%nat (modIndices !! key).

Definition name_of (modByIndex : gmap nat string) (index : nat) : string :=
  default "" (modByIndex !! index).

(** [m.insert({key, v})]: no effect when [key] is present. *)
Definition emplace `{Countable K} {V} (key : K) (v : V) (m : gmap K V) : gmap K V :=
  match m !! key with
  | Some _ => m
  | None => <[key := v]> m
  end.

(** What [iterateDependencies] reads and writes through its reference
    parameters. *)
Record Resolution := {
  res_entries : gmap string FModLoadingEntry;
  res_missing : list string;
  res_graph : DirectedGraph;
}.

(** The body of the loop of [iterateDependencies], for one
    [(id, range)] pair. *)
Definition iterateDependency (modIndices : gmap string nat) (selfInfo : FModInfo)
  (optional : bool) (r : Resolution) (pair : string * FVersionRange) : Resolution :=
  let entries := touch (fst pair) (res_entries r) in
  let dependencyEntry := entry_at entries (fst pair) in
  let depInfo := modInfo dependencyEntry in
  if negb (isValid dependencyEntry)
     || negb (FVersionRange_matches (snd pair) (version depInfo)) then
    let reason :=
      if isValid dependencyEntry
      then formatStr ["unsupported version: "; FVersion_string (version depInfo)]
      else "not installed" in
    let message := formatStr [modid selfInfo; " requires "; fst pair; "(";
                              FVersionRange_string (snd pair); "): "; reason] in
    {| res_entries := entries;
       res_missing := if optional then res_missing r
                      else (res_missing r ++ [message])%list;
       res_graph := res_graph r |}
  else
    {| res_entries := entries;
       res_missing := res_missing r;
       res_graph := addEdge (index_of modIndices (modid selfInfo))
                            (index_of modIndices (modid depInfo)) (res_graph r) |}.

(** [iterateDependencies] *)
Definition iterateDependencies (modIndices : gmap string nat) (selfInfo : FModInfo)
  (deps : list (string * FVersionRange)) (optional : bool) (r : Resolution)
  : Resolution :=
  fold_left (iterateDependency modIndices selfInfo optional) deps r.

(** [finalizeSortingResults]. The first loop collects the positions [i]
    of the tagged entries; the second removes every element equal to a
    collected value and appends that value. Entries are read with
    [operator[]]; what that adds to [loadingEntries] is value-initialised
    and the map is cleared right after. *)
Definition modsToMoveInTheEnd (modByIndex : gmap nat string)
  (entries : gmap string FModLoadingEntry) (sortedIndices : list nat) : list nat :=
  map fst
    (filter (fun p => has_key "@ORDER:LAST"
                        (dependencies (modInfo (entry_at entries (name_of modByIndex (snd p))))))
            (combine (seq 0 (length sortedIndices)) sortedIndices)).

Definition moveToEnd (sortedIndices : list nat) (modIndex : nat) : list nat :=
  (filter (fun x => negb (x =? modIndex)%nat) sortedIndices ++ [modIndex])%list.

Definition finalizeSortingResults (modByIndex : gmap nat string)
  (entries : gmap string FModLoadingEntry) (sortedIndices : list nat) : list nat :=
  fold_left moveToEnd (modsToMoveInTheEnd modByIndex entries sortedIndices) sortedIndices.

(** [populateSortedModList] *)
Definition populateSortedModList (modByIndex : gmap nat string)
  (entries : gmap string FModLoadingEntry) (sortedIndices : list nat)
  (sortedModLoadingList : list FModLoadingEntry) : list FModLoadingEntry :=
  (sortedModLoadingList
     ++ map (fun modIndex => entry_at entries (name_of modByIndex modIndex)) sortedIndices)%list.

(** The first loop of [checkDependencies]: indices from 1 in the order the
    map is walked. *)
Record Indexing := {
  ix_next : nat;
  ix_modIndices : gmap string nat;
  ix_modByIndex : gmap nat string;
  ix_graph : DirectedGraph;
}.

Definition assignIndex (ix : Indexing) (pair : string * FModLoadingEntry) : Indexing :=
  {| ix_next := S (ix_next ix);
     ix_modIndices := emplace (fst pair) (ix_next ix) (ix_modIndices ix);
     ix_modByIndex := emplace (ix_next ix) (fst pair) (ix_modByIndex ix);
     ix_graph := addNode (ix_next ix) (ix_graph ix) |}.

Definition assignIndices (walk : list (string * FModLoadingEntry)) : Indexing :=
  fold_left assignIndex walk
    {| ix_next := 1; ix_modIndices := ∅; ix_modByIndex := ∅; ix_graph := emptyGraph |}.

(** The second loop: required, then optional dependencies of each entry. *)
Definition resolveEntry (modIndices : gmap string nat) (r : Resolution)
  (loadingEntry : FModLoadingEntry) : Resolution :=
  let selfInfo := modInfo loadingEntry in
  iterateDependencies modIndices selfInfo (optionalDependencies selfInfo) true
    (iterateDependencies modIndices selfInfo (dependencies selfInfo) false r).

(** [FModHandler::checkDependencies]. [walk] is the sequence in which the
    [for] loop visits [loadingEntries]; the container leaves that order
    unspecified. *)
Definition checkDependencies (walk : list (string * FModLoadingEntry))
  (st : FModHandler) : FModHandler :=
  let allLoadingEntries := map snd walk in
  let ix := assignIndices walk in
  let r := fold_left (resolveEntry (ix_modIndices ix)) allLoadingEntries
             {| res_entries := loadingEntries st; res_missing := [];
                res_graph := ix_graph ix |} in
  let st := set_loadingEntries st (res_entries r) in
  match res_missing r with
  | _ :: _ =>
      let st := log LogFatal "Found missing dependencies:"
                  (push_problem "Found missing dependencies:" st) in
      fold_left (fun st dependencyLine => log LogFatal dependencyLine
                                            (push_problem dependencyLine st))
                (res_missing r) st
  | [] =>
      match topologicalSort (res_graph r) with
      | cycle_detected cycleNode =>
          let message := formatStr ["Cycle dependency found in sorting graph at modid: ";
                                    name_of (ix_modByIndex ix) cycleNode] in
          log LogError message (push_problem message st)
      | Sorted sortedIndices =>
          let sortedIndices :=
            finalizeSortingResults (ix_modByIndex ix) (res_entries r) sortedIndices in
          let st := set_sortedModLoadList st
                      (populateSortedModList (ix_modByIndex ix) (res_entries r)
                         sortedIndices (sortedModLoadList st)) in
          checkStageErrors "dependency resolution" (set_loadingEntries st ∅)
      end
  end.

End Resolver.

(** ** Loading and the queries on loaded mods *)

(** [std::map<std::wstring, V>]: an association list kept in key order;
    [insert] leaves a present key alone. *)
Fixpoint ordered_insert {V} (key : string) (v : V) (m : list (string * V))
  : list (string * V) :=
  match m with
  | [] => [(key, v)]
  | (k', v') :: rest =>
      match String.compare key k' with
      | Lt => (key, v) :: m
      | Eq => m
      | Gt => (k', v') :: ordered_insert key v rest
      end
  end.

Fixpoint ordered_find {V} (key : string) (m : list (string * V)) : option V :=
  match m with
  | [] => None
  | (k', v') :: rest => if String.eqb key k' then Some v' else ordered_find key rest
  end.

Section Loader.
Context `{Versions} `{Host} `{Platform}.

Definition set_loaded (st : FModHandler) (mods : gmap string FModContainer)
  (modsList : list FModContainer) (ids : list string) : FModHandler :=
  {| loadingEntries := loadingEntries st; loadingProblems := loadingProblems st;
     sortedModLoadList := sortedModLoadList st; loadedMods := mods;
     loadedModsList := modsList; loadedModsModIDs := ids;
     modPakInitializers := modPakInitializers st; logged := logged st;
     shutdownRequests := shutdownRequests st; disk := disk st; engine := engine st |}.

Definition set_modPakInitializers (st : FModHandler) (l : list FModPakLoadEntry) :=
  {| loadingEntries := loadingEntries st; loadingProblems := loadingProblems st;
     sortedModLoadList := sortedModLoadList st; loadedMods := loadedMods st;
     loadedModsList := loadedModsList st; loadedModsModIDs := loadedModsModIDs st;
     modPakInitializers := l; logged := logged st;
     shutdownRequests := shutdownRequests st; disk := disk st; engine := engine st |}.

(** [FModHandler::getLoadedMods] *)
Definition getLoadedMods (st : FModHandler) : list string := loadedModsModIDs st.

(** [FModHandler::isModLoaded] *)
Definition isModLoaded (st : FModHandler) (modId : string) : bool :=
  match loadedMods st !! modId with Some _ => true | None => false end.

(** [FModHandler::GetLoadedMod] *)
Definition GetLoadedMod (st : FModHandler) (modId : string) : outcome FModContainer :=
  match loadedMods st !! modId with
  | None => Thrown "Mod with provided ID is not loaded"
  | Some loadedModWrapped => Returned loadedModWrapped
  end.

(** [FModuleManagerHack::LoadModuleFromInitializerFunc] *)
Definition LoadModuleFromInitializerFunc (moduleName : string)
  (moduleInitializer : FInitializeModuleFunctionPtr) (e : Engine)
  : Engine * IModuleInterface :=
  if IsModuleLoaded moduleName e then (e, GetModule moduleName e)
  else
    let '(e, module) := callInitializer moduleInitializer e in
    let e := StartupModule module e in
    (AddModuleToModulesList moduleName module e, module).

(** First loop of [loadMods]: bring the module of every entry that names
    one into the process. *)
Definition loadModuleDll (acc : FModHandler * list (string * HLOADEDMODULE))
  (loadingEntry : FModLoadingEntry) : FModHandler * list (string * HLOADEDMODULE) :=
  let '(st, loadedModuleDlls) := acc in
  let modid := modid (modInfo loadingEntry) in
  if String.eqb (dllFilePath loadingEntry) "" then acc
  else
    let '(e, r) := LoadModule (dllFilePath loadingEntry) (engine st) in
    let st := set_engine st e in
    let failed what :=
      let message := formatStr ["Failed to load module "; modid; ": "; what] in
      (push_problem message (log LogError message st), loadedModuleDlls) in
    match r with
    | Returned (Some module) => (st, ordered_insert modid module loadedModuleDlls)
    | Returned None => failed "Module not loaded"
    | Thrown what => failed what
    end.

(** Second loop: initialise each loaded module. *)
Definition initModuleDll (acc : FModHandler * list (string * IModuleInterface))
  (pair : string * HLOADEDMODULE) : FModHandler * list (string * IModuleInterface) :=
  let '(st, loadedModules) := acc in
  match GetModuleProcAddress (snd pair) "InitializeModule" (engine st) with
  | None =>
      let message := formatStr ["Failed to initialize module "; fst pair;
                                ": InitializeModule() function not found"] in
      (push_problem message (log LogError message st), loadedModules)
  | Some initModule =>
      let '(e, moduleInterface) :=
        LoadModuleFromInitializerFunc (fst pair) initModule (engine st) in
      (set_engine st e, ordered_insert (fst pair) moduleInterface loadedModules)
  end.

(** Third loop: the mod list. *)
Definition populateModList (loadedModules : list (string * IModuleInterface))
  (st : FModHandler) (loadingEntry : FModLoadingEntry) : FModHandler :=
  let '(st, modContainer) :=
    match ordered_find (modid (modInfo loadingEntry)) loadedModules with
    | Some interface =>
        (st, {| container_modInfo := modInfo loadingEntry; container_module := interface |})
    | None =>
        let '(e, interface) := newDefaultModuleImpl (engine st) in
        (set_engine st e,
         {| container_modInfo := modInfo loadingEntry; container_module := interface |})
    end in
  set_loaded st
    (emplace (modid (modInfo loadingEntry)) modContainer (loadedMods st))
    (loadedModsList st ++ [modContainer])%list
    (loadedModsModIDs st ++ [modid (modInfo loadingEntry)])%list.

(** Fourth loop: mount the paks and look for the initializer classes. *)
Definition mountModPaks (st : FModHandler) (loadingEntry : FModLoadingEntry)
  : FModHandler :=
  let st := set_engine st (fold_left (fun e pakFilePath => OnMountPak pakFilePath e)
                             (pakFilePaths loadingEntry) (engine st)) in
  match pakFilePaths loadingEntry with
  | [] => st
  | _ =>
      let baseInitPath := formatStr ["/Game/FactoryGame/"; modid (modInfo loadingEntry)] in
      let modInitPath := formatStr [baseInitPath; "/InitMod.InitMod_C"] in
      let menuInitPath := formatStr [baseInitPath; "/InitMenu.InitMenu_C"] in
      let '(e, modInitializerClass) := LoadClass modInitPath (engine st) in
      let '(e, menuInitializerClass) := LoadClass menuInitPath e in
      let st := set_engine st e in
      match modInitializerClass, menuInitializerClass with
      | None, None => st
      | _, _ =>
          set_modPakInitializers st
            (modPakInitializers st
               ++ [{| pak_modid := modid (modInfo loadingEntry);
                      modInitClass := modInitializerClass;
                      menuInitClass := menuInitializerClass |}])%list
      end
  end.

(** [FModHandler::loadMods] *)
Definition loadMods (st : FModHandler) : FModHandler :=
  let st := log LogInfo "Loading mods into the process address space..." st in
  let '(st, loadedModuleDlls) :=
    fold_left loadModuleDll (sortedModLoadList st) (st, []) in
  let st := log LogInfo "Loading mods..." st in
  (* register SML module manually as it is already loaded into the process *)
  let '(e, smlModule) := LoadModuleFromInitializerFunc "SML" InitializeSMLModule (engine st) in
  let st := set_engine st e in
  let '(st, loadedModules) :=
    fold_left initModuleDll loadedModuleDlls (st, ordered_insert "SML" smlModule []) in
  let st := log LogInfo "Populating mod list..." st in
  let st := fold_left (populateModList loadedModules) (sortedModLoadList st) st in
  let st := log LogInfo "Mounting mod paks..." st in
  let st := fold_left mountModPaks (sortedModLoadList st) st in
  checkStageErrors "mod initialization" st.

End Loader.

(** ** Discovering mods

    Mounting an archive, reading text as JSON and building a descriptor
    from it are done by code outside this file. *)

Class Archives `{Versions} := {
  (** the files [vfs] serves once [vfs.AddArchive(path)] has mounted the
      archive stored at [path]; the source uses the result of
      [AddArchive] unchecked, so only archives that mount are modelled *)
  AddArchive : string -> Disk -> Root;
  (** the path under which the root serves the member [name] of the
      archive at [path]: what [modArchive->getFile(name)] looks up *)
  archiveMember : string -> string -> string;
  (** [nlohmann::json] *)
  json : Type;
  (** [parseJsonLenient] on the wide string made of the bytes read *)
  parseJsonLenient : list Byte.byte -> outcome json;
  (** [FModInfo::createFromJson] *)
  createFromJson : json -> outcome FModInfo;
  (** [dataJson["objects"]], as [extractArchiveObjects] inspects it *)
  json_objects : json -> ObjectList;
}.

Section Discovery.
Context `{Versions} `{Host} `{Platform} `{!Archives}.

(** [readArchiveJson]: one [read] of [size()] bytes into a zero-filled
    buffer, and the buffer parsed. *)
Definition readArchiveJson (obj : File) : outcome json * File :=
  let '(bs, obj') := File_read obj (File_size obj) in
  let buffer := (bs ++ replicate (File_size obj - length bs)%nat Byte.x00)%list in
  (parseJsonLenient buffer, obj').

(** [FModHandler::constructZipMod]. The loading entry the extraction
    writes through is the element of [loadingEntries] just registered. *)
Definition constructZipMod (filePath : string) (st : FModHandler) : FModHandler :=
  let vfs := AddArchive filePath (disk st) in
  match vfs !! archiveMember filePath "data.json" with
  | None => reportBrokenZipMod filePath "data.json entry is missing in zip" st
  | Some dataJson =>
      let '(parsed, dataJson) := readArchiveJson dataJson in
      let vfs := <[archiveMember filePath "data.json" := dataJson]> vfs in
      let described :=
        match parsed with
        | Thrown what => Thrown what
        | Returned dataJsonObj =>
            match createFromJson dataJsonObj with
            | Thrown what => Thrown what
            | Returned modInfo => Returned (dataJsonObj, modInfo)
            end
        end in
      match described with
      | Thrown what =>
          reportBrokenZipMod filePath (formatStr ["couldn't parse data.json: "; what]) st
      | Returned (dataJsonObj, modInfo) =>
          match createLoadingEntry modInfo filePath st with
          | (st, InvalidEntryRef) => st
          | (st, EntryRefAt key) =>
              if negb (isValid (entry_at (loadingEntries st) key)) then st
              else
                let '(x, r) :=
                  extractArchiveObjects (json_objects dataJsonObj)
                    {| ex_root := vfs; ex_disk := disk st;
                       ex_entry := entry_at (loadingEntries st) key |} in
                let st := set_disk (update_entry key (fun _ => ex_entry x) st) (ex_disk x) in
                match r with
                | Returned _ => st
                | Thrown what =>
                    reportBrokenZipMod filePath
                      (formatStr ["Failed to extract data objects: "; what]) st
                end
          end
      end
  end.

(** The body of the loop of [discoverMods] for one directory entry;
    [is_regular_file] is read off the disk. The test for [.pak] is an
    [if] of its own, not an [else if]. *)
Definition discoverFile (st : FModHandler) (file : string) : outcome FModHandler :=
  if path_exists (disk st) file then
    let r :=
      if String.eqb (Path.extension file) ".smod" || String.eqb (Path.extension file) ".zip"
      then Returned (constructZipMod file st)
      else if String.eqb (Path.extension file) ".dll" then constructDllMod file st
           else Returned st in
    match r with
    | Thrown e => Thrown e
    | Returned st =>
        if String.eqb (Path.extension file) ".pak" then constructPakMod file st
        else Returned st
    end
  else Returned st.

Fixpoint discoverFiles (files : list string) (st : FModHandler) : outcome FModHandler :=
  match files with
  | [] => Returned st
  | file :: rest =>
      match discoverFile st file with
      | Thrown e => Thrown e
      | Returned st => discoverFiles rest st
      end
  end.

(** [FModHandler::discoverMods]. [listing] is what
    [directory_iterator(getModDirectory())] yields, in its order. An
    exception of a constructor is not caught here. *)
Definition discoverMods (listing : list string) (st : FModHandler) : outcome FModHandler :=
  let st := set_loadingEntries st (emplace "SML" createSMLLoadingEntry (loadingEntries st)) in
  match discoverFiles listing st with
  | Thrown e => Thrown e
  | Returned st => Returned (checkStageErrors "mod discovery" st)
  end.

End Discovery.

(** ** After the game mode has loaded

    Spawning an actor, finding and calling its [PostInit] function and
    destroying it are calls into the engine. *)

Class World `{Platform} := {
  AActor : Type;
  UFunction : Type;
  (** [world->SpawnActor(cls)] *)
  SpawnActor : option UClass -> Engine -> Engine * AActor;
  (** [actor->FindFunction(FName(name))] *)
  FindFunction : AActor -> string -> Engine -> option UFunction;
  (** [actor->CallFunction(frame, nullptr, function)], which returns or
      throws a [std::exception] *)
  CallFunction : AActor -> UFunction -> Engine -> Engine * outcome unit;
  (** [actor->Destroy()] *)
  Destroy : AActor -> Engine -> Engine;
}.

Section PostLoad.
Context `{Versions} `{Host} `{Platform} `{!World}.

(** The body of the loop of [onGameModePostLoad]. The class tested is the
    one for the kind of world; the class spawned is
    [initializer.menuInitClass]. *)
Definition postLoadInitializer (isMenuWorld : bool) (st : FModHandler)
  (initializer : FModPakLoadEntry) : FModHandler :=
  let targetClass :=
    if isMenuWorld then menuInitClass initializer else modInitClass initializer in
  match targetClass with
  | None => st
  | Some _ =>
      let '(e, actor) := SpawnActor (menuInitClass initializer) (engine st) in
      let st := set_engine st e in
      let st :=
        match FindFunction actor "PostInit" (engine st) with
        | None =>
            log LogWarning
              (formatStr ["No PostInit function is found in mod initialization actor for mod ";
                          pak_modid initializer]) st
        | Some function =>
            let '(e, r) := CallFunction actor function (engine st) in
            let st := set_engine st e in
            match r with
            | Returned _ => st
            | Thrown what =>
                log LogError
                  (formatStr ["Failed to call PostInit on mod initializer: ";
                              pak_modid initializer; ": "; what]) st
            end
        end in
      set_engine st (Destroy actor (engine st))
  end.

(** [FModHandler::onGameModePostLoad] *)
Definition onGameModePostLoad (isMenuWorld : bool) (st : FModHandler) : FModHandler :=
  fold_left (postLoadInitializer isMenuWorld) (modPakInitializers st) st.

End PostLoad.

(** ** Concrete instances used by the scenarios below *)

(** [picosha2::bytes_to_hex_string] *)
Definition hex_digit (n : nat) : ascii :=
  nth n (list_ascii_of_string "0123456789abcdef") "0"%char.

Definition bytes_to_hex_string (bs : list Byte.byte) : string :=
  string_of_list_ascii
    (flat_map (fun b => [hex_digit (Byte.to_nat b / 16); hex_digit (Byte.to_nat b mod 16)]%nat) bs).

(** A host whose digest is the hex dump of the data itself (so distinct
    data never share a digest), with development mode switched on. *)
Definition dumpHost : Host :=
  {| hash256_hex := bytes_to_hex_string;
     getCacheDirectory := "cache";
     getModConfigFilePath := fun modid => "configs/" ++ modid ++ ".cfg";
     debugLogOutput := true |}.

(** Dotted versions and ranges of the forms [>=v], [<=v], [>v], [<v] and
    [v] (exactly [v]); a range is kept as its text. *)
Definition is_digit (c : ascii) : bool :=
  ((48 <=? nat_of_ascii c) && (nat_of_ascii c <=? 57))%nat.

Fixpoint parse_components (cs : list ascii) (cur : nat) (acc : list nat) : list nat :=
  match cs with
  | [] => (acc ++ [cur])%list
  | c :: rest =>
      if is_digit c then parse_components rest (10 * cur + (nat_of_ascii c - 48))%nat acc
      else parse_components rest 0%nat (acc ++ [cur])%list
  end.

Fixpoint compare_components (a b : list nat) : comparison :=
  match a, b with
  | [], _ => if forallb (Nat.eqb 0) b then Eq else Lt
  | _ :: _, [] => if forallb (Nat.eqb 0) a then Eq else Gt
  | x :: a', y :: b' =>
      match Nat.compare x y with Eq => compare_components a' b' | c => c end
  end.

Definition range_matches (range : string) (v : list nat) : bool :=
  let cmp rest := compare_components v (parse_components rest 0%nat []) in
  match list_ascii_of_string range with
  | ">"%char :: "="%char :: rest => match cmp rest with Lt => false | _ => true end
  | "<"%char :: "="%char :: rest => match cmp rest with Gt => false | _ => true end
  | ">"%char :: rest => match cmp rest with Gt => true | _ => false end
  | "<"%char :: rest => match cmp rest with Lt => true | _ => false end
  | rest => match cmp rest with Eq => true | _ => false end
  end.

Fixpoint nat_digits (fuel n : nat) (acc : list ascii) : list ascii :=
  match fuel with
  | O => acc
  | S fuel' =>
      let acc' := (ascii_of_nat (48 + n mod 10) :: acc)%nat in
      if (n / 10 =? 0)%nat then acc' else nat_digits fuel' (n / 10)%nat acc'
  end.

Definition nat_string (n : nat) : string := string_of_list_ascii (nat_digits (S n) n []).

Definition dottedVersions : Versions :=
  {| FVersion := list nat;
     FVersionRange := string;
     FVersion_default := [0; 0; 0]%nat;
     FVersion_string := fun v => String.concat "." (map nat_string v);
     FVersionRange_parse := fun s => s;
     FVersionRange_string := fun r => r;
     FVersionRange_matches := range_matches;
     dummyVersion := [1; 0; 0]%nat;
     getModLoaderVersion := [2; 0; 0]%nat |}.

(** A platform on which every module loads and no class is found; a
    module handle, an initializer and a module interface are all named by
    the path or module name they came from. *)
Definition plainPlatform : Platform :=
  {| Engine := list string;
     HLOADEDMODULE := string;
     FInitializeModuleFunctionPtr := string;
     IModuleInterface := string;
     UClass := string;
     LoadModule := fun path e => (e, Returned (Some path));
     GetModuleProcAddress := fun module _ _ => Some module;
     InitializeSMLModule := "InitializeSMLModule";
     IsModuleLoaded := fun _ _ => false;
     GetModule := fun moduleName _ => moduleName;
     AddModuleToModulesList := fun _ _ e => e;
     callInitializer := fun init e => (e, init);
     StartupModule := fun _ e => e;
     newDefaultModuleImpl := fun e => (e, "FDefaultModuleImpl");
     OnMountPak := fun path e => (e ++ [path])%list;
     LoadClass := fun _ e => (e, None) |}.

(** A host in production mode: no debug log output. *)
Definition productionHost : Host :=
  {| hash256_hex := bytes_to_hex_string;
     getCacheDirectory := "cache";
     getModConfigFilePath := fun modid => "configs/" ++ modid ++ ".cfg";
     debugLogOutput := false |}.

(** A world that writes down what it is asked to do. An actor is named by
    the class it was spawned from ([nullptr] when there was none);
    [postInit] says, by that name, whether the actor has a [PostInit]
    function and what calling it does. *)
Definition class_name (cls : option string) : string :=
  match cls with Some c => c | None => "nullptr" end.

Definition recordingWorld (postInit : string -> option (outcome unit)) : @World plainPlatform :=
  @Build_World plainPlatform string (outcome unit)
    (fun (cls : option string) (e : list string) =>
       ((e ++ [("SpawnActor " ++ class_name cls)%string])%list, class_name cls))
    (fun (actor : string) _ _ => postInit actor)
    (fun (actor : string) (function : outcome unit) (e : list string) =>
       ((e ++ [("PostInit " ++ actor)%string])%list, function))
    (fun (actor : string) (e : list string) => (e ++ [("Destroy " ++ actor)%string])%list).

(** What [recordingWorld] records for one initializer that is acted on. *)
Definition recorded_calls (postInit : string -> option (outcome unit))
  (initializer : @FModPakLoadEntry plainPlatform) : list string :=
  let actor := class_name (menuInitClass initializer) in
  ([("SpawnActor " ++ actor)%string]
     ++ match postInit actor with Some _ => [("PostInit " ++ actor)%string] | None => [] end
     ++ [("Destroy " ++ actor)%string])%list.

Definition acted_on (isMenuWorld : bool) (initializer : @FModPakLoadEntry plainPlatform)
  : bool :=
  match (if isMenuWorld then menuInitClass initializer else modInitClass initializer) with
  | Some _ => true
  | None => false
  end.

(** ** Vocabulary of the statements below *)

Section Vocabulary.
Context `{Versions} `{Host} `{Platform}.

(** The entry [createRawModLoadingEntry] writes over a not yet valid
    [prior] element. *)
Definition rawModEntry (modId filePath : string) (prior : FModLoadingEntry)
  : FModLoadingEntry :=
  {| isValid := true;
     modInfo := set_dependencies (createDummyInfo modId)
                  [("@ORDER:LAST", FVersionRange_parse "1.0.0")];
     virtualModFilePath := filePath;
     dllFilePath := dllFilePath prior;
     pakFilePaths := pakFilePaths prior;
     isRawMod := true |}.

(** Whether [iterateDependencies] finds a dependency unmet when entries
    read as in [entries], and the message it builds then. *)
Definition dependencyFails (entries : gmap string FModLoadingEntry)
  (pair : string * FVersionRange) : bool :=
  negb (isValid (entry_at entries (fst pair)))
  || negb (FVersionRange_matches (snd pair) (version (modInfo (entry_at entries (fst pair))))).

Definition dependencyMessage (entries : gmap string FModLoadingEntry)
  (selfInfo : FModInfo) (pair : string * FVersionRange) : string :=
  formatStr [modid selfInfo; " requires "; fst pair; "(";
             FVersionRange_string (snd pair); "): ";
             if isValid (entry_at entries (fst pair))
             then formatStr ["unsupported version: ";
                             FVersion_string (version (modInfo (entry_at entries (fst pair))))]
             else "not installed"].

(** The messages for the unmet required dependencies of one entry, and of
    all entries in the order they are visited. *)
Definition requiredFailuresOf (entries : gmap string FModLoadingEntry)
  (e : FModLoadingEntry) : list string :=
  map (dependencyMessage entries (modInfo e))
      (List.filter (dependencyFails entries) (dependencies (modInfo e))).

Definition requiredFailures (entries : gmap string FModLoadingEntry)
  (walk : list (string * FModLoadingEntry)) : list string :=
  flat_map (requiredFailuresOf entries) (map snd walk).

(** The edges [iterateDependencies] adds for the met dependencies in
    [deps] of the entry described by [selfInfo]. *)
Definition edgesOf (modIndices : gmap string nat) (entries : gmap string FModLoadingEntry)
  (selfInfo : FModInfo) (deps : list (string * FVersionRange)) : list (nat * nat) :=
  map (fun pair => (index_of modIndices (modid selfInfo),
                    index_of modIndices (modid (modInfo (entry_at entries (fst pair))))))
      (List.filter (fun pair => negb (dependencyFails entries pair)) deps).

(** The edges added for one entry: its met required dependencies, then
    its met optional ones. *)
Definition entryEdges (modIndices : gmap string nat) (entries : gmap string FModLoadingEntry)
  (e : FModLoadingEntry) : list (nat * nat) :=
  (edgesOf modIndices entries (modInfo e) (dependencies (modInfo e))
     ++ edgesOf modIndices entries (modInfo e) (optionalDependencies (modInfo e)))%list.

(** Two tables read alike through [operator[]]. *)
Definition same_reads (m m' : gmap string FModLoadingEntry) : Prop :=
  forall key, entry_at m key = entry_at m' key.

(** The edges of the graph after the second loop of [checkDependencies]
    over [walk], with entries read as in [base]. *)
Definition resolved_edges (walk : list (string * FModLoadingEntry))
  (base : gmap string FModLoadingEntry) : list (nat * nat) :=
  flat_map (entryEdges (ix_modIndices (assignIndices walk)) base) (map snd walk).

(** The three members the queries and the third loop depend on. *)
Definition same_tables (st st' : FModHandler) : Prop :=
  loadedMods st' = loadedMods st
  /\ loadedModsModIDs st' = loadedModsModIDs st
  /\ sortedModLoadList st' = sortedModLoadList st.

(** The first entry of [es] carrying mod id [m], with its position. *)
Definition first_with_id (es : list FModLoadingEntry) (m : string) (i : nat)
  (e : FModLoadingEntry) : Prop :=
  es !! i = Some e /\ modid (modInfo e) = m
  /\ forall j e', (j < i)%nat -> es !! j = Some e' -> modid (modInfo e') <> m.

(** A met dependency: [a] is registered and lists [d], required or
    optional, with [d] registered, valid and of a matching version. These
    are the pairs [iterateDependencies] adds an edge for. *)
Definition requires (entries : gmap string FModLoadingEntry) (a d : string) : Prop :=
  exists e pair,
    entries !! a = Some e
    /\ (pair ∈ dependencies (modInfo e) \/ pair ∈ optionalDependencies (modInfo e))
    /\ dependencyFails entries pair = false
    /\ fst pair = d.

(** [walk] visits every element of the table once. *)
Definition enumerates (walk : list (string * FModLoadingEntry))
  (entries : gmap string FModLoadingEntry) : Prop :=
  walk ≡ₚ map_to_list entries.

(** Every element is a valid entry stored under its own mod id. *)
Definition well_keyed (entries : gmap string FModLoadingEntry) : Prop :=
  forall key e, entries !! key = Some e -> isValid e = true /\ modid (modInfo e) = key.

(** Every required dependency of every entry is met. *)
Definition required_met (entries : gmap string FModLoadingEntry) : Prop :=
  forall key e pair,
    entries !! key = Some e -> pair ∈ dependencies (modInfo e) ->
    dependencyFails entries pair = false.

(** No entry lists the [@ORDER:LAST] tag. *)
Definition untagged (entries : gmap string FModLoadingEntry) : Prop :=
  forall key e, entries !! key = Some e ->
    has_key "@ORDER:LAST" (dependencies (modInfo e)) = false.

(** No entry requires itself through a chain of met dependencies. *)
Definition acyclic (entries : gmap string FModLoadingEntry) : Prop :=
  forall a, ~ tc (requires entries) a a.

(** Executable forms of the conditions above, for concrete tables. *)
Definition walk_of (entries : gmap string FModLoadingEntry) (keys : list string)
  : list (string * FModLoadingEntry) :=
  map (fun key => (key, entry_at entries key)) keys.

Definition enumerates_check (keys : list string)
  (entries : gmap string FModLoadingEntry) : bool :=
  bool_decide (NoDup keys)
  && forallb (fun key => bool_decide (is_Some (entries !! key))) keys
  && (length (map_to_list entries) <=? length keys)%nat.

Definition well_keyed_check (entries : gmap string FModLoadingEntry) : bool :=
  forallb (fun p => isValid (snd p) && String.eqb (modid (modInfo (snd p))) (fst p))
          (map_to_list entries).

Definition required_met_check (entries : gmap string FModLoadingEntry) : bool :=
  forallb (fun p => forallb (fun pair => negb (dependencyFails entries pair))
                            (dependencies (modInfo (snd p))))
          (map_to_list entries).

Definition untagged_check (entries : gmap string FModLoadingEntry) : bool :=
  forallb (fun p => negb (has_key "@ORDER:LAST" (dependencies (modInfo (snd p)))))
          (map_to_list entries).

(** Every met dependency has a smaller rank than the entry listing it. *)
Definition ranked_check (rank : string -> nat)
  (entries : gmap string FModLoadingEntry) : bool :=
  forallb (fun p =>
             forallb (fun pair => dependencyFails entries pair
                                  || (rank (fst pair) <? rank (fst p))%nat)
                     (dependencies (modInfo (snd p))
                        ++ optionalDependencies (modInfo (snd p)))%list)
          (map_to_list entries).

(** [a] stands before [b] in [l]. *)
Definition before (l : list string) (a b : string) : Prop :=
  exists i j, (i < j)%nat /\ l !! i = Some a /\ l !! j = Some b.

(** The mod ids of a load list. *)
Definition ids_of (l : list FModLoadingEntry) : list string :=
  map (fun e => modid (modInfo e)) l.

End Vocabulary.

(** ** Vocabulary of the further properties *)

(** The paths of the items of type [objectType] in an [objects] array. *)
Definition objects_of_type (objectType : string) (items : list (option (string * string)))
  : list string :=
  flat_map (fun item => match item with
                        | Some (t, path) => if String.eqb t objectType then [path] else []
                        | None => []
                        end) items.

Section FurtherVocabulary.
Context `{Versions} `{Host} `{Platform}.

(** The cache file an extraction of a cached object type works on. *)
Definition cacheFileOf (obj : File) : string :=
  generateTempFilePath (fst (hashArchiveFileContents obj)).

(** What a call of [extractArchiveObject] leaves alone. *)
Definition extraction_frame (x x' : Extraction) : Prop :=
  modInfo (ex_entry x') = modInfo (ex_entry x)
  /\ isValid (ex_entry x') = isValid (ex_entry x)
  /\ virtualModFilePath (ex_entry x') = virtualModFilePath (ex_entry x)
  /\ isRawMod (ex_entry x') = isRawMod (ex_entry x)
  /\ (exists added, pakFilePaths (ex_entry x') = (pakFilePaths (ex_entry x) ++ added)%list)
  /\ (dllFilePath (ex_entry x) <> "" -> dllFilePath (ex_entry x') = dllFilePath (ex_entry x))
  /\ (forall p, is_Some (ex_root x' !! p) <-> is_Some (ex_root x !! p))
  /\ (forall p, p <> getModConfigFilePath (modid (modInfo (ex_entry x))) ->
                (forall fileHash, p <> generateTempFilePath fileHash) ->
                ex_disk x' !! p = ex_disk x !! p).

(** The table during discovery: every element is a valid entry stored
    under its own mod id, and the loader's own entry is in place. *)
Definition registry_ok (m : gmap string FModLoadingEntry) : Prop :=
  well_keyed m /\ m !! "SML" = Some createSMLLoadingEntry.

(** What a step of discovery may do besides registering: it appends
    problems, and keeps the files of the disk, the shutdown requests and
    the sorted load list. *)
Definition discovery_step (st st' : FModHandler) : Prop :=
  shutdownRequests st' = shutdownRequests st
  /\ sortedModLoadList st' = sortedModLoadList st
  /\ (exists added, loadingProblems st' = (loadingProblems st ++ added)%list)
  /\ (forall p, is_Some (disk st !! p) -> is_Some (disk st' !! p)).

(** No element of the table is a raw entry. *)
Definition no_raw_entries (m : gmap string FModLoadingEntry) : Prop :=
  forall key e, m !! key = Some e -> isRawMod e = false.

(** What the loops of [loadMods] leave alone, and what they may add. *)
Definition loader_step (st st' : FModHandler) : Prop :=
  loadingEntries st' = loadingEntries st
  /\ sortedModLoadList st' = sortedModLoadList st
  /\ disk st' = disk st
  /\ shutdownRequests st' = shutdownRequests st
  /\ (exists added, loadingProblems st' = (loadingProblems st ++ added)%list)
  /\ modPakInitializers st' = modPakInitializers st.

(** Whether an entry has a pak. *)
Definition has_paks (e : FModLoadingEntry) : bool :=
  match pakFilePaths e with [] => false | _ => true end.

(** The text [checkStageErrors] logs and passes on for a stage. *)
Definition stageHeadline (stageName : string) : string :=
  formatStr ["Errors occurred during mod loading stage '"; stageName;
             "'. Loading cannot continue:" ++ String (ascii_of_nat 10) ""].

End FurtherVocabulary.

(** ** Scenarios *)

Section ScenarioData.
Existing Instances dottedVersions dumpHost plainPlatform.

Definition descriptor (id : string) (v : list nat)
  (required optional : list (string * string)) : FModInfo :=
  {| modid := id; name := id; version := v; description := ""; authors := [];
     dependencies := required; optionalDependencies := optional |}.

(** The handler as [discoverMods] has it before it looks at any file:
    only the entry of the loader itself. *)
Definition freshHandler : FModHandler :=
  set_loadingEntries (newModHandler ∅ []) {[ "SML" := createSMLLoadingEntry ]}.

(** A packaged mod with descriptor [info] registered from [filePath]. *)
Definition registered (info : FModInfo) (filePath : string) (st : FModHandler)
  : FModHandler :=
  fst (createLoadingEntry info filePath st).

(** The state a [construct...Mod] call returns. *)
Definition constructed (r : outcome FModHandler) (st : FModHandler) : FModHandler :=
  match r with Returned st' => st' | Thrown _ => st end.

(** M1 1.2.0 without dependencies, M2 requiring M1 >=1.0.0, raw mod M3. *)
Definition M1 : FModInfo := descriptor "M1" [1; 2; 0]%nat [] [].
Definition M2 : FModInfo := descriptor "M2" [1; 0; 0]%nat [("M1", ">=1.0.0")] [].

Definition handlerM12 : FModHandler :=
  registered M2 "mods/M2.smod" (registered M1 "mods/M1.smod" freshHandler).

Definition handlerM123 : FModHandler :=
  constructed (constructPakMod "mods/M3.pak" handlerM12) handlerM12.

(** A requiring C, then B, then C, registered in this order. *)
Definition handlerABC : FModHandler :=
  registered (descriptor "C" [1; 0; 0]%nat [] []) "mods/C.smod"
    (registered (descriptor "B" [1; 0; 0]%nat [] []) "mods/B.smod"
       (registered (descriptor "A" [1; 0; 0]%nat [("C", ">=1.0.0")] []) "mods/A.smod"
          freshHandler)).

Definition registrationABC : list string := ["SML"; "A"; "B"; "C"].

Definition rankABC (id : string) : nat := if String.eqb id "A" then 1%nat else 0%nat.

(** A packaged mod whose id is the text of the tag, at version 1.0.0, and
    the raw mod of [mods/Late.pak]: the raw mod's tag then reads as a met
    dependency on that mod. *)
Definition handlerTagged : FModHandler :=
  let st := registered (descriptor "@ORDER:LAST" [1; 0; 0]%nat [] [])
              "mods/Last.smod" freshHandler in
  constructed (constructPakMod "mods/Late.pak" st) st.

Definition visitTagged : list string := ["SML"; "@ORDER:LAST"; "Late"].

Definition rankTagged (id : string) : nat :=
  if String.eqb id "Late" then 1%nat else 0%nat.

(** A handler whose sorted load list holds the loader, M1 and M2, before
    [loadMods]. *)
Definition packaged (info : FModInfo) (filePath : string) : FModLoadingEntry :=
  {| isValid := true; modInfo := info; virtualModFilePath := filePath;
     dllFilePath := ""; pakFilePaths := []; isRawMod := false |}.

Definition handlerSorted : FModHandler :=
  set_sortedModLoadList (newModHandler ∅ [])
    [createSMLLoadingEntry; packaged M1 "mods/M1.smod"; packaged M2 "mods/M2.smod"].

(** X requiring Y >=2.0.0 and optionally Z, with Y present at 1.0.0 and Z
    not installed. *)
Definition handlerXY : FModHandler :=
  registered (descriptor "Y" [1; 0; 0]%nat [] []) "mods/Y.smod"
    (registered (descriptor "X" [1; 0; 0]%nat [("Y", ">=2.0.0")] [("Z", ">=1.0.0")])
       "mods/X.smod" freshHandler).

(** P with an optional dependency on Q, which is not installed. *)
Definition handlerP : FModHandler :=
  registered (descriptor "P" [1; 0; 0]%nat [] [("Q", ">=1.0.0")]) "mods/P.smod" freshHandler.

(** The module and the pak of one raw mod. *)
Definition handlerFoo : FModHandler :=
  let st := constructed (constructDllMod "mods/Foo.dll" freshHandler) freshHandler in
  constructed (constructPakMod "mods/Foo.pak" st) st.

(** An archive holding one object, and a cache whose file for that
    object's digest holds other bytes. *)
Definition payload : list Byte.byte := [Byte.x01; Byte.x02; Byte.x03].

Definition extractionOf (archivePath : string) (d : Disk) : Extraction :=
  {| ex_root := {[ archivePath := fresh_file payload ]};
     ex_disk := d;
     ex_entry := FModLoadingEntry_default |}.

Definition corruptCache : Disk := {[ "cache/010203" := [Byte.xff] ]}.

End ScenarioData.

(** ** Further scenarios *)

Section FurtherScenarioData.
Existing Instances dottedVersions dumpHost plainPlatform.

(** Archives that hold a manifest and nothing else: the bytes stored at
    the archive's path are those of its [data.json], the text they spell
    is the mod id of a mod at version 1.0.0, and no object is listed. *)
Definition manifestArchives : @Archives dottedVersions :=
  @Build_Archives dottedVersions
    (fun path d => match d !! path with
                   | Some bytes => {[ Path.join path "data.json" := fresh_file bytes ]}
                   | None => ∅
                   end)
    Path.join
    string
    (fun bytes => match bytes with
                  | [] => Thrown "empty manifest"
                  | _ => Returned (string_of_list_byte bytes)
                  end)
    (fun j => Returned (descriptor j [1; 0; 0]%nat [] []))
    (fun _ => Some []).

(** A mods directory with the module of a raw mod, a pak with a
    one-letter name and a packaged mod whose manifest reads "Pack". *)
Definition modsDisk : Disk :=
  {[ "mods/Foo.dll" := [];
     "mods/x.pak" := [];
     "mods/Pack.smod" := [Byte.x50; Byte.x61; Byte.x63; Byte.x6b] ]}.

(** A handler as its constructor leaves it, before discovery. *)
Definition modsHandler : FModHandler := newModHandler modsDisk ([] : list string).

(** [handlerFoo] as a second module of the same raw mod finds it. *)
Definition secondModule : string := "mods/Foo-Win64-Debug.dll".

End FurtherScenarioData.

(** * Properties *)

(** ** Reading entries through [operator[]] *)

Section EntryFacts.
Context `{Versions}.

Lemma touch_present (key : string) (m : gmap string FModLoadingEntry) (e : FModLoadingEntry) :
  m !! key = Some e -> touch key m = m.
Proof. unfold touch. intros ->. reflexivity. Qed.

Lemma entry_at_present (key : string) (m : gmap string FModLoadingEntry) (e : FModLoadingEntry) :
  m !! key = Some e -> entry_at m key = e.
Proof. unfold entry_at. intros ->. reflexivity. Qed.

Lemma entry_at_touch (key key' : string) (m : gmap string FModLoadingEntry) :
  entry_at (touch key m) key' = entry_at m key'.
Proof.
  unfold touch, entry_at.
  destruct (m !! key) eqn:E; [reflexivity|].
  destruct (decide (key = key')) as [<-|Hne].
  - rewrite lookup_insert_eq, E. reflexivity.
  - rewrite lookup_insert_ne by assumption. reflexivity.
Qed.

Lemma touch_lookup_self (key : string) (m : gmap string FModLoadingEntry) :
  touch key m !! key = Some (entry_at m key).
Proof.
  unfold touch, entry_at.
  destruct (m !! key) eqn:E; simpl.
  - exact E.
  - apply lookup_insert_eq.
Qed.

Lemma entry_at_valid_present (key : string) (m : gmap string FModLoadingEntry) :
  isValid (entry_at m key) = true -> m !! key = Some (entry_at m key).
Proof.
  unfold entry_at. destruct (m !! key); simpl; [reflexivity|discriminate].
Qed.

Lemma entry_at_insert (m : gmap string FModLoadingEntry) (key : string) (e : FModLoadingEntry) :
  entry_at (<[key := e]> m) key = e.
Proof. unfold entry_at. rewrite lookup_insert_eq. reflexivity. Qed.

End EntryFacts.

(** ** Registration *)

Section RegistrationFacts.
Context `{Versions} `{Host} `{Platform}.

(** C4, as the code has it. Registering a packaged candidate, which is
    what goes through [createLoadingEntry], under a mod id that already
    has a valid entry: the call hands back the invalid entry (the
    candidate is rejected), the table of entries is left as it was, so
    the first entry is still there, valid and unchanged, and exactly one
    message is appended to the problems, naming the mod id, the new file
    and the first file. Raw files do not come this way: they register
    through [createRawModLoadingEntry], see C8. *)
Theorem createLoadingEntry_duplicate_rejected
  (info : FModInfo) (filePath : string) (st : FModHandler) (first : FModLoadingEntry) :
  loadingEntries st !! modid info = Some first ->
  isValid first = true ->
  let message := formatStr ["Found duplicate mods with same mod ID "; modid info; ": ";
                            filePath; " and "; virtualModFilePath first] in
  let st' := fst (createLoadingEntry info filePath st) in
  let ref := snd (createLoadingEntry info filePath st) in
  ref = InvalidEntryRef
  /\ isValid (deref st' ref) = false
  /\ loadingEntries st' = loadingEntries st
  /\ loadingEntries st' !! modid info = Some first
  /\ loadingProblems st' = (loadingProblems st ++ [message])%list
  /\ st' = push_problem message (log LogFatal message st).
Proof.
  intros Hfirst Hvalid message st' ref.
  subst st' ref message. unfold createLoadingEntry.
  rewrite (touch_present _ _ _ Hfirst), (entry_at_present _ _ _ Hfirst), Hvalid.
  cbn [fst snd deref INVALID_ENTRY FModLoadingEntry_default isValid].
  destruct st; cbn. repeat split; assumption.
Qed.

End RegistrationFacts.

Section RawModFacts.
Context `{Versions} `{Host} `{Platform}.

Lemma set_loadingEntries_same (st : FModHandler) :
  set_loadingEntries st (loadingEntries st) = st.
Proof. destruct st; reflexivity. Qed.

Lemma insert_touch (key : string) (e : FModLoadingEntry) (m : gmap string FModLoadingEntry) :
  <[key := e]> (touch key m) = <[key := e]> m.
Proof.
  unfold touch. destruct (m !! key); [reflexivity|]. apply insert_insert_eq.
Qed.

(** [createRawModLoadingEntry], by what the table holds under the id. An
    id without a valid entry gets a raw entry: valid, flagged raw,
    carrying the dummy descriptor of that id (fixed version, no optional
    dependencies) whose only dependency is the [@ORDER:LAST] tag. An id
    held by a raw entry is handed that same entry and nothing is
    recorded. An id held by a packaged entry is refused with one
    "conflicting with packed mod" problem and the entries are left as
    they were. *)
Lemma createRawModLoadingEntry_cases (modId filePath : string) (st : FModHandler) :
  let prior := entry_at (loadingEntries st) modId in
  let st' := fst (createRawModLoadingEntry modId filePath st) in
  let ref := snd (createRawModLoadingEntry modId filePath st) in
  (isValid prior = false ->
     ref = EntryRefAt modId
     /\ loadingProblems st' = loadingProblems st
     /\ loadingEntries st' = <[modId := rawModEntry modId filePath prior]> (loadingEntries st)
     /\ isValid (deref st' ref) = true
     /\ isRawMod (deref st' ref) = true
     /\ has_key "@ORDER:LAST" (dependencies (modInfo (deref st' ref))) = true
     /\ dependencies (modInfo (deref st' ref)) = [("@ORDER:LAST", FVersionRange_parse "1.0.0")]
     /\ optionalDependencies (modInfo (deref st' ref)) = []
     /\ version (modInfo (deref st' ref)) = dummyVersion
     /\ modid (modInfo (deref st' ref)) = modId)
  /\ (isValid prior = true -> isRawMod prior = true ->
        ref = EntryRefAt modId /\ st' = st)
  /\ (isValid prior = true -> isRawMod prior = false ->
        ref = InvalidEntryRef
        /\ loadingEntries st' = loadingEntries st
        /\ loadingProblems st'
           = (loadingProblems st
                ++ [formatStr ["Found raw mod file conflicting with packed mod: "; filePath]])%list).
Proof.
  intros prior st' ref. subst st' ref.
  unfold createRawModLoadingEntry.
  rewrite entry_at_touch. fold prior.
  split; [|split].
  - intros Hinv. rewrite Hinv. cbn [negb isRawMod fst snd].
    rewrite insert_touch.
    unfold deref. cbn [loadingEntries set_loadingEntries].
    unfold entry_at. rewrite lookup_insert_eq. cbn.
    repeat split; reflexivity.
  - intros Hval Hraw. rewrite Hval. cbn [negb]. rewrite Hraw. cbn [negb fst snd].
    split; [reflexivity|].
    rewrite insert_touch.
    rewrite insert_id by (apply entry_at_valid_present; exact Hval).
    apply set_loadingEntries_same.
  - intros Hval Hraw. rewrite Hval. cbn [negb]. rewrite Hraw. cbn [negb fst snd].
    rewrite insert_touch.
    rewrite insert_id by (apply entry_at_valid_present; exact Hval).
    rewrite set_loadingEntries_same.
    destruct st; cbn. repeat split; reflexivity.
Qed.

(** The part of the raw constructors after the mod id is known, by what
    the table holds under the id. *)
Lemma registerRawMod_cases (modId filePath : string)
  (f : FModLoadingEntry -> FModLoadingEntry) (st : FModHandler) :
  let prior := entry_at (loadingEntries st) modId in
  let message := formatStr ["Found raw mod file conflicting with packed mod: "; filePath] in
  (isValid prior = false ->
     registerRawMod modId filePath f st
     = set_loadingEntries st
         (<[modId := f (rawModEntry modId filePath prior)]> (loadingEntries st)))
  /\ (isValid prior = true -> isRawMod prior = true ->
        registerRawMod modId filePath f st
        = set_loadingEntries st (<[modId := f prior]> (loadingEntries st)))
  /\ (isValid prior = true -> isRawMod prior = false ->
        registerRawMod modId filePath f st = push_problem message (log LogFatal message st)).
Proof.
  intros prior message. subst message.
  unfold registerRawMod, createRawModLoadingEntry.
  rewrite entry_at_touch. fold prior. rewrite insert_touch.
  split; [|split].
  - intros Hinv. rewrite Hinv. cbn [negb isRawMod].
    cbn [loadingEntries set_loadingEntries].
    unfold update_entry, entry_at. cbn [loadingEntries set_loadingEntries].
    rewrite lookup_insert_eq. cbn [default from_option id isValid negb].
    rewrite insert_insert_eq. destruct st; reflexivity.
  - intros Hval Hraw. rewrite Hval. cbn [negb]. rewrite Hraw. cbn [negb].
    rewrite insert_id by (apply entry_at_valid_present; exact Hval).
    rewrite set_loadingEntries_same. fold prior. rewrite Hval. cbn [negb].
    unfold update_entry. fold prior. reflexivity.
  - intros Hval Hraw. rewrite Hval. cbn [negb]. rewrite Hraw. cbn [negb].
    rewrite insert_id by (apply entry_at_valid_present; exact Hval).
    rewrite set_loadingEntries_same. reflexivity.
Qed.

(** The two raw constructors in development mode. *)
Lemma constructDllMod_development (filePath modId : string) (st : FModHandler) :
  debugLogOutput = true ->
  getModIdFromFile filePath = Returned modId ->
  exists noted,
    loadingEntries noted = loadingEntries st
    /\ loadingProblems noted = loadingProblems st
    /\ constructDllMod filePath st
       = Returned (registerRawMod modId filePath (fun e => set_dllFilePath e filePath) noted).
Proof.
  intros Hmode Hid. unfold constructDllMod, checkAndNotifyRawMod.
  rewrite Hmode, Hid. cbn [negb]. eexists. split; [|split; [|reflexivity]]; reflexivity.
Qed.

Lemma constructPakMod_development (filePath modId : string) (st : FModHandler) :
  debugLogOutput = true ->
  getModIdFromFile filePath = Returned modId ->
  exists noted,
    loadingEntries noted = loadingEntries st
    /\ loadingProblems noted = loadingProblems st
    /\ constructPakMod filePath st
       = Returned (registerRawMod modId filePath (fun e => push_pakFilePath e filePath) noted).
Proof.
  intros Hmode Hid. unfold constructPakMod, checkAndNotifyRawMod.
  rewrite Hmode, Hid. cbn [negb]. eexists. split; [|split; [|reflexivity]]; reflexivity.
Qed.

(** One raw file in development mode, by what the table holds under its
    inferred id: what the table and the problems are afterwards. *)
Lemma registerRawMod_effect (modId filePath : string)
  (f : FModLoadingEntry -> FModLoadingEntry) (st : FModHandler) :
  let prior := entry_at (loadingEntries st) modId in
  let st' := registerRawMod modId filePath f st in
  (isValid prior = false ->
     loadingEntries st' = <[modId := f (rawModEntry modId filePath prior)]> (loadingEntries st)
     /\ loadingProblems st' = loadingProblems st)
  /\ (isValid prior = true -> isRawMod prior = true ->
        loadingEntries st' = <[modId := f prior]> (loadingEntries st)
        /\ loadingProblems st' = loadingProblems st)
  /\ (isValid prior = true -> isRawMod prior = false ->
        loadingEntries st' = loadingEntries st
        /\ loadingProblems st'
           = (loadingProblems st
                ++ [formatStr ["Found raw mod file conflicting with packed mod: "; filePath]])%list).
Proof.
  intros prior st'. subst st'.
  destruct (registerRawMod_cases modId filePath f st) as (Hnew & Hsame & Hconflict).
  fold prior in Hnew, Hsame, Hconflict.
  split; [|split].
  - intros Hinv. rewrite (Hnew Hinv). split; reflexivity.
  - intros Hval Hraw. rewrite (Hsame Hval Hraw). split; reflexivity.
  - intros Hval Hraw. rewrite (Hconflict Hval Hraw). split; reflexivity.
Qed.


(** Two raw files with the same inferred id, one after the other. *)
Lemma registerRawMod_pair (modId path1 path2 : string)
  (f1 f2 : FModLoadingEntry -> FModLoadingEntry) (st noted1 noted2 : FModHandler) :
  (forall e, isValid (f1 e) = isValid e /\ isRawMod (f1 e) = isRawMod e) ->
  loadingEntries noted1 = loadingEntries st ->
  loadingProblems noted1 = loadingProblems st ->
  loadingEntries noted2 = loadingEntries (registerRawMod modId path1 f1 noted1) ->
  loadingProblems noted2 = loadingProblems (registerRawMod modId path1 f1 noted1) ->
  let prior := entry_at (loadingEntries st) modId in
  let st2 := registerRawMod modId path2 f2 noted2 in
  (isValid prior = false ->
     loadingEntries st2
     = <[modId := f2 (f1 (rawModEntry modId path1 prior))]> (loadingEntries st)
     /\ loadingProblems st2 = loadingProblems st)
  /\ (isValid prior = true -> isRawMod prior = true ->
        loadingEntries st2 = <[modId := f2 (f1 prior)]> (loadingEntries st)
        /\ loadingProblems st2 = loadingProblems st)
  /\ (isValid prior = true -> isRawMod prior = false ->
        loadingEntries st2 = loadingEntries st
        /\ loadingProblems st2
           = (loadingProblems st
                ++ [formatStr ["Found raw mod file conflicting with packed mod: "; path1];
                    formatStr ["Found raw mod file conflicting with packed mod: "; path2]])%list).
Proof.
  intros Hflags He1 Hp1 He2 Hp2 prior st2. subst st2.
  destruct (registerRawMod_effect modId path1 f1 noted1) as (Hnew1 & Hsame1 & Hconflict1).
  destruct (registerRawMod_effect modId path2 f2 noted2) as (Hnew2 & Hsame2 & Hconflict2).
  rewrite He1 in Hnew1, Hsame1, Hconflict1. rewrite Hp1 in Hnew1, Hsame1, Hconflict1.
  rewrite He2 in Hnew2, Hsame2, Hconflict2. rewrite Hp2 in Hnew2, Hsame2, Hconflict2.
  fold prior in Hnew1, Hsame1, Hconflict1.
  split; [|split].
  - intros Hinv. destruct (Hnew1 Hinv) as [E1 P1]. rewrite E1, P1 in *.
    rewrite entry_at_insert in Hsame2.
    destruct (Hflags (rawModEntry modId path1 prior)) as [Hv Hr].
    destruct (Hsame2 Hv Hr) as [E2 P2]. rewrite E2, P2, insert_insert_eq. split; reflexivity.
  - intros Hval Hraw. destruct (Hsame1 Hval Hraw) as [E1 P1]. rewrite E1, P1 in *.
    rewrite entry_at_insert in Hsame2.
    destruct (Hflags prior) as [Hv Hr]. rewrite Hval in Hv. rewrite Hraw in Hr.
    destruct (Hsame2 Hv Hr) as [E2 P2]. rewrite E2, P2, insert_insert_eq. split; reflexivity.
  - intros Hval Hraw. destruct (Hconflict1 Hval Hraw) as [E1 P1]. rewrite E1, P1 in *.
    fold prior in Hconflict2.
    destruct (Hconflict2 Hval Hraw) as [E2 P2]. rewrite E2, P2, <- app_assoc.
    split; reflexivity.
Qed.

(** C8, as the code has it. Every raw entry is created valid and flagged
    raw, with the dummy descriptor of its id (fixed version, no optional
    dependencies) whose only dependency is the [@ORDER:LAST] tag. In
    development mode ([debugLogOutput]), when a raw [.dll] and a raw
    [.pak] are found under the same inferred mod id, in either order:
    - if the id had no valid entry, both end up in one new raw entry,
      holding the module path and the pak path, and nothing is reported;
    - if a raw entry held the id, both are added to that entry (the
      module path replaced, the pak path appended) and nothing is
      reported;
    - only if a packaged entry held the id are they refused, each with
      one "conflicting with packed mod" problem naming it, and the
      entries are left as they were. *)
Theorem raw_mod_pair_registration (modId : string) (st : FModHandler) :
  let prior := entry_at (loadingEntries st) modId in
  let conflict := fun filePath =>
    formatStr ["Found raw mod file conflicting with packed mod: "; filePath] in
  (forall filePath,
     let st' := fst (createRawModLoadingEntry modId filePath st) in
     let ref := snd (createRawModLoadingEntry modId filePath st) in
     isValid prior = false ->
     ref = EntryRefAt modId
     /\ loadingEntries st' = <[modId := rawModEntry modId filePath prior]> (loadingEntries st)
     /\ isValid (deref st' ref) = true
     /\ isRawMod (deref st' ref) = true
     /\ dependencies (modInfo (deref st' ref)) = [("@ORDER:LAST", FVersionRange_parse "1.0.0")]
     /\ optionalDependencies (modInfo (deref st' ref)) = []
     /\ version (modInfo (deref st' ref)) = dummyVersion
     /\ modid (modInfo (deref st' ref)) = modId)
  /\ (debugLogOutput = true ->
      forall dllPath pakPath,
        getModIdFromFile dllPath = Returned modId ->
        getModIdFromFile pakPath = Returned modId ->
        (exists st1 st2,
           constructDllMod dllPath st = Returned st1
           /\ constructPakMod pakPath st1 = Returned st2
           /\ (isValid prior = false ->
                 loadingEntries st2
                 = <[modId := push_pakFilePath
                                (set_dllFilePath (rawModEntry modId dllPath prior) dllPath)
                                pakPath]> (loadingEntries st)
                 /\ loadingProblems st2 = loadingProblems st)
           /\ (isValid prior = true -> isRawMod prior = true ->
                 loadingEntries st2
                 = <[modId := push_pakFilePath (set_dllFilePath prior dllPath) pakPath]>
                     (loadingEntries st)
                 /\ loadingProblems st2 = loadingProblems st)
           /\ (isValid prior = true -> isRawMod prior = false ->
                 loadingEntries st2 = loadingEntries st
                 /\ loadingProblems st2
                    = (loadingProblems st ++ [conflict dllPath; conflict pakPath])%list))
        /\ (exists st1 st2,
              constructPakMod pakPath st = Returned st1
              /\ constructDllMod dllPath st1 = Returned st2
              /\ (isValid prior = false ->
                    loadingEntries st2
                    = <[modId := set_dllFilePath
                                   (push_pakFilePath (rawModEntry modId pakPath prior) pakPath)
                                   dllPath]> (loadingEntries st)
                    /\ loadingProblems st2 = loadingProblems st)
              /\ (isValid prior = true -> isRawMod prior = true ->
                    loadingEntries st2
                    = <[modId := set_dllFilePath (push_pakFilePath prior pakPath) dllPath]>
                        (loadingEntries st)
                    /\ loadingProblems st2 = loadingProblems st)
              /\ (isValid prior = true -> isRawMod prior = false ->
                    loadingEntries st2 = loadingEntries st
                    /\ loadingProblems st2
                       = (loadingProblems st ++ [conflict pakPath; conflict dllPath])%list))).
Proof.
  intros prior conflict. split.
  - intros filePath st' ref Hinv.
    destruct (createRawModLoadingEntry_cases modId filePath st) as [Hnew _].
    destruct (Hnew Hinv) as (Href & _ & Hentries & Hvalid & Hraw & _ & Hdeps & Hopt & Hver & Hid).
    repeat (split; [assumption|]). assumption.
  - intros Hmode dllPath pakPath Hdll Hpak. split.
    + destruct (constructDllMod_development dllPath modId st Hmode Hdll)
        as (noted1 & He1 & Hp1 & Hfirst).
      destruct (constructPakMod_development pakPath modId
                  (registerRawMod modId dllPath (fun e => set_dllFilePath e dllPath) noted1)
                  Hmode Hpak) as (noted2 & He2 & Hp2 & Hsecond).
      eexists. eexists. split; [exact Hfirst|]. split; [exact Hsecond|].
      exact (registerRawMod_pair modId dllPath pakPath
               (fun e => set_dllFilePath e dllPath) (fun e => push_pakFilePath e pakPath)
               st noted1 noted2 (fun e => conj eq_refl eq_refl) He1 Hp1 He2 Hp2).
    + destruct (constructPakMod_development pakPath modId st Hmode Hpak)
        as (noted1 & He1 & Hp1 & Hfirst).
      destruct (constructDllMod_development dllPath modId
                  (registerRawMod modId pakPath (fun e => push_pakFilePath e pakPath) noted1)
                  Hmode Hdll) as (noted2 & He2 & Hp2 & Hsecond).
      eexists. eexists. split; [exact Hfirst|]. split; [exact Hsecond|].
      exact (registerRawMod_pair modId pakPath dllPath
               (fun e => push_pakFilePath e pakPath) (fun e => set_dllFilePath e dllPath)
               st noted1 noted2 (fun e => conj eq_refl eq_refl) He1 Hp1 He2 Hp2).
Qed.

End RawModFacts.

(** ** Checking dependencies *)

Section DependencyFacts.
Context `{Versions} `{Host} `{Platform}.

Lemma same_reads_touch (key : string) (m base : gmap string FModLoadingEntry) :
  same_reads m base -> same_reads (touch key m) base.
Proof. intros Hm k. rewrite entry_at_touch. apply Hm. Qed.

Lemma dependencyFails_same_reads (m base : gmap string FModLoadingEntry) pair :
  same_reads m base -> dependencyFails m pair = dependencyFails base pair.
Proof. intros Hm. unfold dependencyFails. rewrite Hm. reflexivity. Qed.

(** One step of [iterateDependencies], read against a table [base] that
    the current one agrees with. *)
Lemma iterateDependency_spec modIndices selfInfo optional (r : Resolution) pair base :
  same_reads (res_entries r) base ->
  same_reads (res_entries (iterateDependency modIndices selfInfo optional r pair)) base
  /\ res_missing (iterateDependency modIndices selfInfo optional r pair)
     = (res_missing r
          ++ (if optional then []
              else if dependencyFails base pair
                   then [dependencyMessage base selfInfo pair] else []))%list
  /\ graph_nodes (res_graph (iterateDependency modIndices selfInfo optional r pair))
     = graph_nodes (res_graph r)
  /\ graph_edges (res_graph (iterateDependency modIndices selfInfo optional r pair))
     = (graph_edges (res_graph r) ++ edgesOf modIndices base selfInfo [pair])%list.
Proof.
  intros Hm.
  assert (Ht : same_reads (touch (fst pair) (res_entries r)) base)
    by (apply same_reads_touch; assumption).
  unfold iterateDependency, edgesOf, dependencyMessage. cbn [List.filter map].
  rewrite (Ht (fst pair)).
  fold (dependencyFails base pair).
  destruct (dependencyFails base pair); cbn [negb res_entries res_missing res_graph map].
  - split; [assumption|]. split; [|split].
    + destruct optional; [symmetry; apply app_nil_r|reflexivity].
    + reflexivity.
    + symmetry. apply app_nil_r.
  - split; [assumption|]. split; [|split].
    + destruct optional; symmetry; apply app_nil_r.
    + reflexivity.
    + reflexivity.
Qed.

Lemma edgesOf_cons modIndices base selfInfo pair deps :
  edgesOf modIndices base selfInfo (pair :: deps)
  = (edgesOf modIndices base selfInfo [pair] ++ edgesOf modIndices base selfInfo deps)%list.
Proof.
  unfold edgesOf. cbn [List.filter].
  destruct (negb (dependencyFails base pair)); reflexivity.
Qed.

Lemma iterateDependencies_spec modIndices selfInfo optional deps (r : Resolution) base :
  same_reads (res_entries r) base ->
  same_reads (res_entries (iterateDependencies modIndices selfInfo deps optional r)) base
  /\ res_missing (iterateDependencies modIndices selfInfo deps optional r)
     = (res_missing r
          ++ (if optional then []
              else map (dependencyMessage base selfInfo)
                       (List.filter (dependencyFails base) deps)))%list
  /\ graph_nodes (res_graph (iterateDependencies modIndices selfInfo deps optional r))
     = graph_nodes (res_graph r)
  /\ graph_edges (res_graph (iterateDependencies modIndices selfInfo deps optional r))
     = (graph_edges (res_graph r) ++ edgesOf modIndices base selfInfo deps)%list.
Proof.
  unfold iterateDependencies. revert r.
  induction deps as [|pair deps IH]; intros r Hm; cbn [fold_left].
  - repeat split; try assumption.
    + destruct optional; cbn; rewrite app_nil_r; reflexivity.
    + unfold edgesOf. cbn. rewrite app_nil_r. reflexivity.
  - destruct (iterateDependency_spec modIndices selfInfo optional r pair base Hm)
      as (Hm1 & Hmiss1 & Hn1 & He1).
    destruct (IH _ Hm1) as (Hm2 & Hmiss2 & Hn2 & He2).
    repeat split.
    + assumption.
    + rewrite Hmiss2, Hmiss1. cbn [List.filter].
      destruct optional; [rewrite !app_nil_r; reflexivity|].
      destruct (dependencyFails base pair); cbn [map]; rewrite <- app_assoc; reflexivity.
    + rewrite Hn2, Hn1. reflexivity.
    + rewrite He2, He1, (edgesOf_cons _ _ _ pair deps), <- app_assoc. reflexivity.
Qed.

Lemma resolveEntry_spec modIndices (r : Resolution) (e : FModLoadingEntry) base :
  same_reads (res_entries r) base ->
  same_reads (res_entries (resolveEntry modIndices r e)) base
  /\ res_missing (resolveEntry modIndices r e)
     = (res_missing r ++ requiredFailuresOf base e)%list
  /\ graph_nodes (res_graph (resolveEntry modIndices r e)) = graph_nodes (res_graph r)
  /\ graph_edges (res_graph (resolveEntry modIndices r e))
     = (graph_edges (res_graph r) ++ entryEdges modIndices base e)%list.
Proof.
  intros Hm. unfold resolveEntry.
  destruct (iterateDependencies_spec modIndices (modInfo e) false
              (dependencies (modInfo e)) r base Hm) as (Hm1 & Hmiss1 & Hn1 & He1).
  destruct (iterateDependencies_spec modIndices (modInfo e) true
              (optionalDependencies (modInfo e)) _ base Hm1) as (Hm2 & Hmiss2 & Hn2 & He2).
  split; [assumption|]. split; [|split].
  - rewrite Hmiss2, Hmiss1, app_nil_r. reflexivity.
  - rewrite Hn2, Hn1. reflexivity.
  - rewrite He2, He1. unfold entryEdges. rewrite <- app_assoc. reflexivity.
Qed.

Lemma resolveEntries_spec modIndices (es : list FModLoadingEntry) (r : Resolution) base :
  same_reads (res_entries r) base ->
  same_reads (res_entries (fold_left (resolveEntry modIndices) es r)) base
  /\ res_missing (fold_left (resolveEntry modIndices) es r)
     = (res_missing r ++ flat_map (requiredFailuresOf base) es)%list
  /\ graph_nodes (res_graph (fold_left (resolveEntry modIndices) es r))
     = graph_nodes (res_graph r)
  /\ graph_edges (res_graph (fold_left (resolveEntry modIndices) es r))
     = (graph_edges (res_graph r) ++ flat_map (entryEdges modIndices base) es)%list.
Proof.
  revert r. induction es as [|e es IH]; intros r Hm; cbn [fold_left flat_map].
  - rewrite !app_nil_r. repeat split; try reflexivity. assumption.
  - destruct (resolveEntry_spec modIndices r e base Hm) as (Hm1 & Hmiss1 & Hn1 & He1).
    destruct (IH _ Hm1) as (Hm2 & Hmiss2 & Hn2 & He2).
    split; [assumption|]. split; [|split].
    + rewrite Hmiss2, Hmiss1, <- app_assoc. reflexivity.
    + rewrite Hn2, Hn1. reflexivity.
    + rewrite He2, He1, <- app_assoc. reflexivity.
Qed.

(** Reporting the collected lines: each is pushed and logged, nothing
    else changes. *)
Lemma report_lines (lines : list string) (st : FModHandler) :
  let st' := fold_left (fun st dependencyLine =>
                          log LogFatal dependencyLine (push_problem dependencyLine st))
                       lines st in
  loadingProblems st' = (loadingProblems st ++ lines)%list
  /\ logged st' = (logged st ++ map (pair LogFatal) lines)%list
  /\ sortedModLoadList st' = sortedModLoadList st
  /\ loadingEntries st' = loadingEntries st
  /\ shutdownRequests st' = shutdownRequests st.
Proof.
  revert st. induction lines as [|l lines IH]; intros st; cbn [fold_left map].
  - rewrite !app_nil_r. repeat split; reflexivity.
  - destruct (IH (log LogFatal l (push_problem l st))) as (Hp & Hl & Hs & He & Hq).
    cbn zeta in *. rewrite Hp, Hl, Hs, He, Hq. cbn.
    rewrite <- !app_assoc. repeat split; reflexivity.
Qed.

Lemma same_reads_refl (m : gmap string FModLoadingEntry) : same_reads m m.
Proof. intros k. reflexivity. Qed.

(** What the second loop of [checkDependencies] leaves behind. *)
Lemma checkDependencies_resolution walk (st : FModHandler) :
  let r := fold_left (resolveEntry (ix_modIndices (assignIndices walk))) (map snd walk)
             {| res_entries := loadingEntries st; res_missing := [];
                res_graph := ix_graph (assignIndices walk) |} in
  same_reads (res_entries r) (loadingEntries st)
  /\ res_missing r = requiredFailures (loadingEntries st) walk
  /\ graph_nodes (res_graph r) = graph_nodes (ix_graph (assignIndices walk))
  /\ graph_edges (res_graph r)
     = (graph_edges (ix_graph (assignIndices walk))
          ++ flat_map (entryEdges (ix_modIndices (assignIndices walk)) (loadingEntries st))
                      (map snd walk))%list.
Proof.
  cbn zeta.
  apply (resolveEntries_spec (ix_modIndices (assignIndices walk)) (map snd walk)
           {| res_entries := loadingEntries st; res_missing := [];
              res_graph := ix_graph (assignIndices walk) |} (loadingEntries st)).
  apply same_reads_refl.
Qed.

(** When some required dependency is unmet, every entry has been visited
    before the report: the problems gain the headline and the message of
    every unmet required dependency, in the order visited; exactly these
    lines are logged as fatal; no load order is produced. *)
Lemma checkDependencies_missing_report walk (st : FModHandler) :
  requiredFailures (loadingEntries st) walk <> [] ->
  loadingProblems (checkDependencies walk st)
  = (loadingProblems st
       ++ "Found missing dependencies:" :: requiredFailures (loadingEntries st) walk)%list
  /\ logged (checkDependencies walk st)
     = (logged st
          ++ map (pair LogFatal)
               ("Found missing dependencies:" :: requiredFailures (loadingEntries st) walk))%list
  /\ sortedModLoadList (checkDependencies walk st) = sortedModLoadList st
  /\ shutdownRequests (checkDependencies walk st) = shutdownRequests st.
Proof.
  intros Hne.
  unfold checkDependencies.
  destruct (checkDependencies_resolution walk st) as (_ & Hmiss & _ & _).
  cbn zeta in Hmiss. rewrite Hmiss.
  destruct (requiredFailures (loadingEntries st) walk) as [|l lines] eqn:E;
    [contradiction|].
  match goal with
  | |- context [fold_left ?f (l :: lines) ?s] =>
      destruct (report_lines (l :: lines) s) as (Hp & Hl & Hs & _ & Hq)
  end.
  cbn zeta in Hp, Hl, Hs, Hq. rewrite Hp, Hl, Hs, Hq. cbn.
  rewrite <- !app_assoc. repeat split; reflexivity.
Qed.

(** C7, as the code has it. For an unmet dependency the message naming
    requirer, required id, range and reason is built; when the dependency
    is optional it is dropped (the missing dependencies and the graph stay
    as they were), when it is required it is appended to the missing
    dependencies, and no edge is added either way. When some required
    dependency of some entry is unmet, [checkDependencies] has visited
    every entry before it reports: the problems gain the headline and the
    message of every unmet required dependency of every entry, in the
    order visited, exactly these lines are logged, and no load order is
    produced. *)
Theorem checkDependencies_reports_required_only :
  (forall modIndices selfInfo (r : Resolution) pair,
     dependencyFails (res_entries r) pair = true ->
     res_missing (iterateDependency modIndices selfInfo true r pair) = res_missing r
     /\ res_graph (iterateDependency modIndices selfInfo true r pair) = res_graph r
     /\ res_missing (iterateDependency modIndices selfInfo false r pair)
        = (res_missing r ++ [dependencyMessage (res_entries r) selfInfo pair])%list
     /\ res_graph (iterateDependency modIndices selfInfo false r pair) = res_graph r)
  /\ (forall walk (st : FModHandler),
        requiredFailures (loadingEntries st) walk <> [] ->
        loadingProblems (checkDependencies walk st)
        = (loadingProblems st
             ++ "Found missing dependencies:" :: requiredFailures (loadingEntries st) walk)%list
        /\ logged (checkDependencies walk st)
           = (logged st
                ++ map (pair LogFatal)
                     ("Found missing dependencies:" :: requiredFailures (loadingEntries st) walk))%list
        /\ sortedModLoadList (checkDependencies walk st) = sortedModLoadList st
        /\ shutdownRequests (checkDependencies walk st) = shutdownRequests st).
Proof.
  split.
  - intros modIndices selfInfo r pair Hfail.
    unfold iterateDependency, dependencyMessage.
    unfold dependencyFails in Hfail.
    rewrite !entry_at_touch, Hfail. cbn. repeat split; reflexivity.
  - exact checkDependencies_missing_report.
Qed.

End DependencyFacts.

(** ** Extraction into the cache *)

Section ExtractionFacts.
Context `{Versions} `{Host}.

Lemma hashArchiveFileContents_fresh (bs : list Byte.byte) :
  hashArchiveFileContents (fresh_file bs) = (hash256_hex bs, exhausted bs).
Proof.
  unfold hashArchiveFileContents, File_read, fresh_file, File_size, exhausted.
  cbn [contents getpos]. rewrite drop_0, firstn_all, Nat.sub_diag. cbn [replicate].
  rewrite app_nil_r. reflexivity.
Qed.

(** The copy loop gives everything from the read position on, whatever
    fuel is left once it covers the bytes still to come. *)
Lemma extract_loop_spec (fuel : nat) (obj : File) (written : list Byte.byte) :
  (File_size obj - getpos obj <= S fuel)%nat ->
  extract_loop fuel obj written
  = ((written ++ drop (getpos obj) (contents obj))%list,
     {| contents := contents obj;
        getpos := (getpos obj + (File_size obj - getpos obj))%nat |}).
Proof.
  revert obj written. induction fuel as [|fuel IH]; intros obj written Hfuel.
  - cbn [extract_loop File_read].
    assert (Hlen : (length (drop (getpos obj) (contents obj)) <= 4096)%nat).
    { rewrite length_drop. unfold File_size in Hfuel. lia. }
    rewrite (take_ge _ _ Hlen). rewrite length_drop. reflexivity.
  - cbn [extract_loop File_read]. cbn [getpos contents]. unfold File_size in *.
    cbn [contents].
    set (c := contents obj) in *. set (p := getpos obj) in *.
    set (chunk := take 4096 (drop p c)).
    assert (Hlen : length chunk = (4096 `min` (length c - p))%nat).
    { subst chunk. rewrite length_take, length_drop. reflexivity. }
    destruct (Nat.ltb_spec (p + length chunk) (length c)) as [Hlt|Hge].
    + assert (Hchunk : length chunk = 4096%nat) by lia.
      rewrite IH by (cbn [getpos contents]; unfold File_size; cbn [contents]; lia).
      cbn [getpos contents]. unfold File_size. cbn [contents].
      f_equal.
      * rewrite <- app_assoc. f_equal. rewrite Hchunk. subst chunk.
        rewrite <- drop_drop. apply take_drop.
      * f_equal. lia.
    + assert (Hall : chunk = drop p c).
      { subst chunk. apply take_ge. rewrite length_drop. lia. }
      rewrite Hall, length_drop. reflexivity.
Qed.

(** From a file nothing was read of, [extractArchiveFile] writes the
    whole file. *)
Lemma extractArchiveFile_fresh (outFilePath : string) (bs : list Byte.byte) (d : Disk) :
  extractArchiveFile outFilePath (fresh_file bs) d
  = (<[outFilePath := bs]> d, exhausted bs).
Proof.
  unfold extractArchiveFile.
  rewrite extract_loop_spec by (unfold File_size, fresh_file; cbn; lia).
  unfold fresh_file, exhausted, File_size. cbn [contents getpos].
  rewrite drop_0, Nat.sub_0_r. reflexivity.
Qed.

(** From a file that was read to its end, it writes an empty file. *)
Lemma extractArchiveFile_exhausted (outFilePath : string) (bs : list Byte.byte) (d : Disk) :
  extractArchiveFile outFilePath (exhausted bs) d
  = (<[outFilePath := []]> d, exhausted bs).
Proof.
  unfold extractArchiveFile.
  rewrite extract_loop_spec by (unfold File_size, exhausted; cbn; lia).
  unfold exhausted, File_size. cbn [contents getpos].
  rewrite drop_all, Nat.sub_diag, Nat.add_0_r. reflexivity.
Qed.

(** The disk after extracting a cached object type from a file nothing
    was read of: untouched when the cache file is there and hashes to the
    digest; otherwise the cache file is removed and written anew, from a
    file whose read position the hashing has left at the end. *)
Lemma extractArchiveObject_disk (objectType archivePath : string) (x : Extraction)
  (bs : list Byte.byte) :
  objectType <> "config" ->
  ex_root x !! archivePath = Some (fresh_file bs) ->
  ex_disk (fst (extractArchiveObject objectType archivePath x))
  = if negb (path_exists (ex_disk x) (generateTempFilePath (hash256_hex bs)))
       || negb (String.eqb (hash256_hex bs)
                  (hashFileContents (ex_disk x) (generateTempFilePath (hash256_hex bs))))
    then <[generateTempFilePath (hash256_hex bs) := []]>
           (delete (generateTempFilePath (hash256_hex bs)) (ex_disk x))
    else ex_disk x.
Proof.
  intros Hcfg Hfile. unfold extractArchiveObject. rewrite Hfile.
  apply String.eqb_neq in Hcfg. rewrite Hcfg.
  rewrite hashArchiveFileContents_fresh. cbn iota.
  destruct (negb (path_exists (ex_disk x) (generateTempFilePath (hash256_hex bs)))
            || negb (String.eqb (hash256_hex bs)
                       (hashFileContents (ex_disk x) (generateTempFilePath (hash256_hex bs))))).
  - rewrite extractArchiveFile_exhausted.
    repeat match goal with |- context [if ?b then _ else _] => destruct b end;
      reflexivity.
  - repeat match goal with |- context [if ?b then _ else _] => destruct b end;
      reflexivity.
Qed.

(** Where the extracted object is recorded in the loading entry. *)
Lemma extractArchiveObject_entry (objectType archivePath : string) (x : Extraction)
  (bs : list Byte.byte) :
  ex_root x !! archivePath = Some (fresh_file bs) ->
  (objectType = "pak" ->
     extractArchiveObject objectType archivePath x
     = (fst (extractArchiveObject objectType archivePath x), Returned tt)
     /\ ex_entry (fst (extractArchiveObject objectType archivePath x))
        = push_pakFilePath (ex_entry x) (generateTempFilePath (hash256_hex bs)))
  /\ (objectType = "sml_mod" -> dllFilePath (ex_entry x) = "" ->
        extractArchiveObject objectType archivePath x
        = (fst (extractArchiveObject objectType archivePath x), Returned tt)
        /\ ex_entry (fst (extractArchiveObject objectType archivePath x))
           = set_dllFilePath (ex_entry x) (generateTempFilePath (hash256_hex bs))).
Proof.
  intros Hfile. split.
  - intros ->. unfold extractArchiveObject. rewrite Hfile. cbn [String.eqb Ascii.eqb Bool.eqb].
    rewrite hashArchiveFileContents_fresh. cbn iota.
    destruct (negb _ || negb _).
    + rewrite extractArchiveFile_exhausted. cbn. split; reflexivity.
    + cbn. split; reflexivity.
  - intros -> Hdll. unfold extractArchiveObject. rewrite Hfile. cbn [String.eqb Ascii.eqb Bool.eqb].
    rewrite hashArchiveFileContents_fresh. cbn iota. rewrite Hdll.
    destruct (negb _ || negb _).
    + rewrite extractArchiveFile_exhausted. cbn. split; reflexivity.
    + cbn. split; reflexivity.
Qed.

(** Hashing a file that was read to its end: the buffer stays
    zero-filled. *)
Lemma hashArchiveFileContents_exhausted (bs : list Byte.byte) :
  hashArchiveFileContents (exhausted bs)
  = (hash256_hex (replicate (length bs) Byte.x00), exhausted bs).
Proof.
  unfold hashArchiveFileContents, File_read, exhausted, File_size.
  cbn [contents getpos]. rewrite drop_all, take_nil. cbn [length app].
  rewrite Nat.sub_0_r, Nat.add_0_r. reflexivity.
Qed.

(** The archive after extracting a cached object type from a file
    nothing was read of: the file is left read to its end. *)
Lemma extractArchiveObject_root (objectType archivePath : string) (x : Extraction)
  (bs : list Byte.byte) :
  objectType <> "config" ->
  ex_root x !! archivePath = Some (fresh_file bs) ->
  ex_root (fst (extractArchiveObject objectType archivePath x))
  = <[archivePath := exhausted bs]> (ex_root x).
Proof.
  intros Hcfg Hfile. unfold extractArchiveObject. rewrite Hfile.
  apply String.eqb_neq in Hcfg. rewrite Hcfg.
  rewrite hashArchiveFileContents_fresh. cbn iota.
  destruct (negb (path_exists (ex_disk x) (generateTempFilePath (hash256_hex bs)))
            || negb (String.eqb (hash256_hex bs)
                       (hashFileContents (ex_disk x) (generateTempFilePath (hash256_hex bs))))).
  - rewrite extractArchiveFile_exhausted.
    repeat match goal with |- context [if ?b then _ else _] => destruct b end;
      reflexivity.
  - repeat match goal with |- context [if ?b then _ else _] => destruct b end;
      reflexivity.
Qed.

(** Where a pak object is recorded, whatever was read of it before. *)
Lemma extractArchiveObject_pak_entry (archivePath : string) (x : Extraction) (obj : File) :
  ex_root x !! archivePath = Some obj ->
  pakFilePaths (ex_entry (fst (extractArchiveObject "pak" archivePath x)))
  = (pakFilePaths (ex_entry x)
       ++ [generateTempFilePath (fst (hashArchiveFileContents obj))])%list.
Proof.
  intros Hfile. unfold extractArchiveObject. rewrite Hfile.
  cbn [String.eqb Ascii.eqb Bool.eqb].
  destruct (hashArchiveFileContents obj) as [fileHash obj1]. cbn [fst].
  destruct (negb _ || negb _); [destruct (extractArchiveFile _ _ _)|]; reflexivity.
Qed.

(** C5, at the code. Two archives hold the same bytes as an object of a
    cached type, and the cache has no file for their digest yet. Both
    extractions compute the digest of the bytes and record the cache
    location it names. But the first leaves an empty file there: the
    hashing has read the archive object to its end and the copy finds
    nothing left. The second extraction therefore finds the cache file
    present with a hash that does not match, removes it and writes it
    again, empty again. An object the archive hands out a second time
    (the same object listed twice) is hashed from its end: the digest is
    that of a zero-filled buffer, not that of the bytes, and the second
    extraction records another cache location. Only a cache
    file that does hash to the digest, which these extractions never
    leave behind, is kept as it is. *)
Theorem identical_payloads_written_twice
  (objectType path1 path2 : string) (x1 : Extraction) (root2 : Root)
  (entry2 : FModLoadingEntry) (bs : list Byte.byte) :
  objectType <> "config" ->
  ex_root x1 !! path1 = Some (fresh_file bs) ->
  root2 !! path2 = Some (fresh_file bs) ->
  ex_disk x1 !! generateTempFilePath (hash256_hex bs) = None ->
  hash256_hex [] <> hash256_hex bs ->
  let location := generateTempFilePath (hash256_hex bs) in
  let x1' := fst (extractArchiveObject objectType path1 x1) in
  let x2 := {| ex_root := root2; ex_disk := ex_disk x1'; ex_entry := entry2 |} in
  let x2' := fst (extractArchiveObject objectType path2 x2) in
  fst (hashArchiveFileContents (fresh_file bs)) = hash256_hex bs
  /\ ex_disk x1' = <[location := []]> (ex_disk x1)
  /\ path_exists (ex_disk x2) location = true
  /\ String.eqb (hash256_hex bs) (hashFileContents (ex_disk x2) location) = false
  /\ ex_disk x2' = <[location := []]> (delete location (ex_disk x2))
  /\ ex_disk x2' !! location = Some []
  /\ hashFileContents (ex_disk x2') location <> hash256_hex bs
  /\ (objectType = "pak" ->
        pakFilePaths (ex_entry x1') = (pakFilePaths (ex_entry x1) ++ [location])%list
        /\ pakFilePaths (ex_entry x2') = (pakFilePaths entry2 ++ [location])%list)
  /\ ex_root x1' !! path1 = Some (exhausted bs)
  /\ fst (hashArchiveFileContents (exhausted bs))
     = hash256_hex (replicate (length bs) Byte.x00)
  /\ (objectType = "pak" ->
        pakFilePaths (ex_entry (fst (extractArchiveObject objectType path1 x1')))
        = (pakFilePaths (ex_entry x1)
             ++ [location;
                 generateTempFilePath (hash256_hex (replicate (length bs) Byte.x00))])%list)
  /\ (forall (x : Extraction) (path : string) (stored : list Byte.byte),
        ex_root x !! path = Some (fresh_file bs) ->
        ex_disk x !! location = Some stored ->
        hash256_hex stored = hash256_hex bs ->
        ex_disk (fst (extractArchiveObject objectType path x)) = ex_disk x).
Proof.
  intros Hcfg Hf1 Hf2 Hnone Hempty location x1' x2 x2'.
  assert (Hd1 : ex_disk x1' = <[location := []]> (ex_disk x1)).
  { subst x1'. rewrite (extractArchiveObject_disk _ _ _ bs Hcfg Hf1). fold location.
    unfold path_exists. fold location in Hnone. rewrite Hnone. cbn [negb orb].
    rewrite delete_id by exact Hnone. reflexivity. }
  assert (Hstored : ex_disk x2 !! location = Some []).
  { subst x2. cbn [ex_disk]. rewrite Hd1. apply lookup_insert_eq. }
  assert (Hmismatch : String.eqb (hash256_hex bs) (hashFileContents (ex_disk x2) location)
                      = false).
  { unfold hashFileContents. rewrite Hstored. cbn [default from_option id].
    apply String.eqb_neq. congruence. }
  assert (Hd2 : ex_disk x2' = <[location := []]> (delete location (ex_disk x2))).
  { subst x2'. rewrite (extractArchiveObject_disk objectType path2 x2 bs Hcfg Hf2).
    fold location.
    rewrite Hmismatch. cbn [negb]. rewrite orb_true_r. reflexivity. }
  split; [rewrite hashArchiveFileContents_fresh; reflexivity|].
  split; [exact Hd1|].
  split; [unfold path_exists; rewrite Hstored; reflexivity|].
  split; [exact Hmismatch|].
  split; [exact Hd2|].
  split; [rewrite Hd2; apply lookup_insert_eq|].
  split.
  { unfold hashFileContents. rewrite Hd2, lookup_insert_eq. cbn [default from_option id].
    exact Hempty. }
  split.
  { intros Hpak.
    destruct (extractArchiveObject_entry objectType path1 x1 bs Hf1) as [Hentry1 _].
    destruct (extractArchiveObject_entry objectType path2 x2 bs Hf2) as [Hentry2 _].
    destruct (Hentry1 Hpak) as [_ E1]. destruct (Hentry2 Hpak) as [_ E2].
    subst x1' x2'. rewrite E1, E2. split; reflexivity. }
  split.
  { subst x1'. rewrite (extractArchiveObject_root _ _ _ bs Hcfg Hf1).
    apply lookup_insert_eq. }
  split; [rewrite hashArchiveFileContents_exhausted; reflexivity|].
  split.
  { intros ->.
    assert (Hread : ex_root x1' !! path1 = Some (exhausted bs)).
    { subst x1'. rewrite (extractArchiveObject_root _ _ _ bs Hcfg Hf1).
      apply lookup_insert_eq. }
    rewrite (extractArchiveObject_pak_entry path1 x1' (exhausted bs) Hread).
    rewrite hashArchiveFileContents_exhausted. cbn [fst].
    subst x1'. rewrite (extractArchiveObject_pak_entry path1 x1 (fresh_file bs) Hf1).
    rewrite hashArchiveFileContents_fresh. cbn [fst]. rewrite <- app_assoc. reflexivity. }
  intros x path stored Hfile Hfound Hhash.
  rewrite (extractArchiveObject_disk _ _ _ bs Hcfg Hfile). fold location.
  unfold path_exists, hashFileContents. rewrite Hfound.
  cbn [default from_option id]. rewrite Hhash, String.eqb_refl. reflexivity.
Qed.

(** C6, at the code. When the file stored under the digest no longer
    hashes to it, the extraction does remove it and write the cache file
    anew, but from the archive object the hashing has just read to its
    end: the file it leaves under the digest is empty, whatever the
    payload. *)
Theorem corrupt_cache_entry_rewritten_empty
  (objectType archivePath : string) (x : Extraction) (bs stored : list Byte.byte) :
  objectType <> "config" ->
  ex_root x !! archivePath = Some (fresh_file bs) ->
  ex_disk x !! generateTempFilePath (hash256_hex bs) = Some stored ->
  hash256_hex stored <> hash256_hex bs ->
  ex_disk (fst (extractArchiveObject objectType archivePath x))
    !! generateTempFilePath (hash256_hex bs) = Some [].
Proof.
  intros Hcfg Hfile Hstored Hcorrupt.
  rewrite (extractArchiveObject_disk _ _ _ bs Hcfg Hfile).
  unfold path_exists, hashFileContents. rewrite Hstored.
  change (default [] (Some stored)) with stored.
  assert (E : String.eqb (hash256_hex bs) (hash256_hex stored) = false).
  { apply String.eqb_neq. congruence. }
  rewrite E. cbn [negb orb]. apply lookup_insert_eq.
Qed.

End ExtractionFacts.

(** ** The queries after [loadMods] *)

Section LoaderFacts.
Context `{Versions} `{Host} `{Platform}.

Lemma same_tables_refl st : same_tables st st.
Proof. repeat split. Qed.

Lemma same_tables_trans st1 st2 st3 :
  same_tables st1 st2 -> same_tables st2 st3 -> same_tables st1 st3.
Proof. intros (a & b & c) (d & e & f). repeat split; congruence. Qed.

Lemma same_tables_log lvl message st : same_tables st (log lvl message st).
Proof. repeat split. Qed.

Lemma same_tables_push message st : same_tables st (push_problem message st).
Proof. repeat split. Qed.

Lemma same_tables_engine e st : same_tables st (set_engine st e).
Proof. repeat split. Qed.

Lemma same_tables_checkStageErrors stage st : same_tables st (checkStageErrors stage st).
Proof. unfold checkStageErrors. destruct (loadingProblems st); repeat split. Qed.

Lemma same_tables_loadModuleDll acc e :
  same_tables (fst acc) (fst (loadModuleDll acc e)).
Proof.
  destruct acc as [st dlls]. unfold loadModuleDll.
  destruct (String.eqb (dllFilePath e) ""); [apply same_tables_refl|].
  destruct (LoadModule (dllFilePath e) (engine st)) as [en [[module|]|what]];
    repeat split.
Qed.

Lemma same_tables_loadModuleDlls es acc :
  same_tables (fst acc) (fst (fold_left loadModuleDll es acc)).
Proof.
  revert acc. induction es as [|e es IH]; intros acc; cbn [fold_left].
  - apply same_tables_refl.
  - eapply same_tables_trans; [apply same_tables_loadModuleDll|apply IH].
Qed.

Lemma same_tables_initModuleDll acc pair :
  same_tables (fst acc) (fst (initModuleDll acc pair)).
Proof.
  destruct acc as [st mods]. unfold initModuleDll.
  destruct (GetModuleProcAddress (snd pair) "InitializeModule" (engine st)).
  - destruct (LoadModuleFromInitializerFunc (fst pair) f (engine st)). repeat split.
  - repeat split.
Qed.

Lemma same_tables_initModuleDlls dlls acc :
  same_tables (fst acc) (fst (fold_left initModuleDll dlls acc)).
Proof.
  revert acc. induction dlls as [|d dlls IH]; intros acc; cbn [fold_left].
  - apply same_tables_refl.
  - eapply same_tables_trans; [apply same_tables_initModuleDll|apply IH].
Qed.

Lemma same_tables_mountModPaks st e : same_tables st (mountModPaks st e).
Proof.
  unfold mountModPaks. destruct (pakFilePaths e); [repeat split|].
  destruct (LoadClass _ _) as [e1 c1]. destruct (LoadClass _ e1) as [e2 c2].
  destruct c1, c2; repeat split.
Qed.

Lemma same_tables_mountAll es st : same_tables st (fold_left mountModPaks es st).
Proof.
  revert st. induction es as [|e es IH]; intros st; cbn [fold_left].
  - apply same_tables_refl.
  - eapply same_tables_trans; [apply same_tables_mountModPaks|apply IH].
Qed.

Lemma lookup_emplace `{Countable K} {V} (key key' : K) (v : V) (m : gmap K V) :
  emplace key v m !! key'
  = match m !! key' with
    | Some c => Some c
    | None => if decide (key = key') then Some v else None
    end.
Proof.
  unfold emplace. destruct (m !! key) eqn:E.
  - destruct (m !! key') eqn:E'; [reflexivity|].
    destruct (decide (key = key')) as [->|]; [congruence|reflexivity].
  - destruct (decide (key = key')) as [->|Hne].
    + rewrite lookup_insert_eq, E. reflexivity.
    + rewrite lookup_insert_ne by assumption. destruct (m !! key'); reflexivity.
Qed.

(** One step of the third loop. *)
Lemma populateModList_spec loadedModules st e :
  exists c,
    container_modInfo c = modInfo e
    /\ loadedMods (populateModList loadedModules st e)
       = emplace (modid (modInfo e)) c (loadedMods st)
    /\ loadedModsModIDs (populateModList loadedModules st e)
       = (loadedModsModIDs st ++ [modid (modInfo e)])%list
    /\ sortedModLoadList (populateModList loadedModules st e) = sortedModLoadList st.
Proof.
  unfold populateModList.
  destruct (ordered_find (modid (modInfo e)) loadedModules) as [i|].
  - exists {| container_modInfo := modInfo e; container_module := i |}. repeat split.
  - destruct (newDefaultModuleImpl (engine st)) as [en i].
    exists {| container_modInfo := modInfo e; container_module := i |}. repeat split.
Qed.

Lemma populateAll_spec loadedModules es st :
  let st' := fold_left (populateModList loadedModules) es st in
  loadedModsModIDs st' = (loadedModsModIDs st ++ map (fun e => modid (modInfo e)) es)%list
  /\ sortedModLoadList st' = sortedModLoadList st
  /\ forall m,
       match loadedMods st' !! m with
       | Some c =>
           loadedMods st !! m = Some c
           \/ (loadedMods st !! m = None
               /\ exists i e, first_with_id es m i e /\ container_modInfo c = modInfo e)
       | None =>
           loadedMods st !! m = None /\ ~ In m (map (fun e => modid (modInfo e)) es)
       end.
Proof.
  revert st. induction es as [|e es IH]; intros st; cbn [fold_left map].
  - cbn zeta. rewrite app_nil_r. split; [reflexivity|]. split; [reflexivity|].
    intros m. destruct (loadedMods st !! m); [left; reflexivity|].
    split; [reflexivity|]. intros [].
  - destruct (populateModList_spec loadedModules st e) as (c0 & Hc0 & Hmods & Hids & Hsorted).
    specialize (IH (populateModList loadedModules st e)). cbn zeta in IH |- *.
    destruct IH as (IHids & IHsorted & IHm).
    split; [rewrite IHids, Hids, <- app_assoc; reflexivity|].
    split; [rewrite IHsorted, Hsorted; reflexivity|].
    intros m. specialize (IHm m).
    rewrite Hmods, lookup_emplace in IHm.
    destruct (loadedMods (fold_left (populateModList loadedModules) es
                            (populateModList loadedModules st e)) !! m) as [c|].
    + destruct (loadedMods st !! m) as [c'|] eqn:Est.
      * destruct IHm as [IHm|[IHm _]]; [left; exact IHm|discriminate].
      * right. split; [reflexivity|].
        destruct (decide (modid (modInfo e) = m)) as [Heq|Hne].
        -- destruct IHm as [IHm|[IHm _]]; [|discriminate].
           exists 0%nat, e. split.
           ++ split; [reflexivity|]. split; [assumption|]. intros j e' Hj. lia.
           ++ congruence.
        -- destruct IHm as [IHm|(_ & i & e1 & (Hi & Hid & Hfirst) & Hc)]; [discriminate|].
           exists (S i), e1. split; [|assumption].
           split; [exact Hi|]. split; [assumption|].
           intros [|j] e' Hj Hlook.
           ++ cbn in Hlook. congruence.
           ++ apply (Hfirst j e'); [lia|exact Hlook].
    + destruct (loadedMods st !! m) as [c'|] eqn:Est; [destruct IHm; discriminate|].
      destruct (decide (modid (modInfo e) = m)) as [Heq|Hne]; [destruct IHm; discriminate|].
      destruct IHm as [_ Hnot]. split; [reflexivity|].
      intros [Hin|Hin]; [contradiction|]. apply Hnot. exact Hin.
Qed.

(** The tables [loadMods] leaves are those the third loop builds from the
    sorted load list. *)
Lemma loadMods_tables st :
  exists loadedModules st1,
    same_tables st st1
    /\ same_tables (fold_left (populateModList loadedModules) (sortedModLoadList st1) st1)
                   (loadMods st).
Proof.
  unfold loadMods.
  pose proof (same_tables_loadModuleDlls (sortedModLoadList
                (log LogInfo "Loading mods into the process address space..." st))
                (log LogInfo "Loading mods into the process address space..." st, [])) as Hloop1.
  destruct (fold_left loadModuleDll _ _) as [sta dlls]. cbn [fst] in Hloop1.
  destruct (LoadModuleFromInitializerFunc "SML" InitializeSMLModule _) as [en smlModule].
  pose proof (same_tables_initModuleDlls dlls
                (set_engine (log LogInfo "Loading mods..." sta) en,
                 ordered_insert "SML" smlModule [])) as Hloop2.
  destruct (fold_left initModuleDll _ _) as [stb loadedModules]. cbn [fst] in Hloop2.
  exists loadedModules, (log LogInfo "Populating mod list..." stb).
  split.
  - eapply same_tables_trans; [apply same_tables_log|].
    eapply same_tables_trans; [exact Hloop1|].
    eapply same_tables_trans; [apply same_tables_log|].
    eapply same_tables_trans; [apply same_tables_engine|].
    eapply same_tables_trans; [exact Hloop2|]. apply same_tables_log.
  - eapply same_tables_trans; [apply same_tables_log|].
    eapply same_tables_trans; [apply same_tables_mountAll|].
    apply same_tables_checkStageErrors.
Qed.

(** C10. After [loadMods] on a handler whose loaded-mod tables are still
    empty: [getLoadedMods] is the sequence of mod ids of the sorted load
    list, in that order; [isModLoaded] holds exactly for the ids in that
    sequence; [GetLoadedMod] returns exactly when [isModLoaded] holds and
    throws otherwise; and the descriptor it returns for an id is the one
    of the loading entry carrying that id (the first one, should several
    carry it). *)
Theorem loaded_mod_queries_consistent (st : FModHandler) :
  loadedMods st = ∅ ->
  loadedModsModIDs st = [] ->
  let st' := loadMods st in
  getLoadedMods st' = map (fun e => modid (modInfo e)) (sortedModLoadList st)
  /\ (forall m, isModLoaded st' m = true <-> In m (getLoadedMods st'))
  /\ (forall m, (exists c, GetLoadedMod st' m = Returned c) <-> isModLoaded st' m = true)
  /\ (forall m, isModLoaded st' m = false ->
                GetLoadedMod st' m = Thrown "Mod with provided ID is not loaded")
  /\ (forall m c, GetLoadedMod st' m = Returned c ->
                  exists i e, first_with_id (sortedModLoadList st) m i e
                              /\ container_modInfo c = modInfo e).
Proof.
  intros Hmods Hids st'. subst st'.
  destruct (loadMods_tables st) as (loadedModules & st1 & (T1 & T2 & T3) & (U1 & U2 & U3)).
  destruct (populateAll_spec loadedModules (sortedModLoadList st1) st1) as (P1 & P2 & P3).
  cbn zeta in P1, P2, P3.
  rewrite T3 in U1, U2, U3, P1, P2, P3.
  rewrite T2, Hids in P1. cbn [app] in P1.
  assert (Hlookup : forall m,
            match loadedMods (loadMods st) !! m with
            | Some c => exists i e, first_with_id (sortedModLoadList st) m i e
                                    /\ container_modInfo c = modInfo e
            | None => ~ In m (map (fun e => modid (modInfo e)) (sortedModLoadList st))
            end).
  { intros m. specialize (P3 m). rewrite U1. rewrite T1, Hmods, lookup_empty in P3.
    destruct (loadedMods (fold_left (populateModList loadedModules) (sortedModLoadList st) st1) !! m).
    - destruct P3 as [P3|[_ P3]]; [discriminate|exact P3].
    - apply P3. }
  unfold getLoadedMods, isModLoaded, GetLoadedMod.
  rewrite U2, P1.
  split; [reflexivity|]. split; [|split; [|split]].
  - intros m. specialize (Hlookup m). destruct (loadedMods (loadMods st) !! m).
    + split; [intros _|reflexivity].
      destruct Hlookup as (i & e & (Hi & Hid & _) & _).
      apply in_map_iff. exists e. split; [assumption|].
      apply list_elem_of_In. apply list_elem_of_lookup. exists i. exact Hi.
    + split; [discriminate|]. intros Hin. contradiction.
  - intros m. destruct (loadedMods (loadMods st) !! m).
    + split; [reflexivity|]. intros _. eexists; reflexivity.
    + split; [intros [c Hc]; discriminate|discriminate].
  - intros m. destruct (loadedMods (loadMods st) !! m); [discriminate|reflexivity].
  - intros m c. specialize (Hlookup m). destruct (loadedMods (loadMods st) !! m); [|discriminate].
    intros [= <-]. exact Hlookup.
Qed.

End LoaderFacts.

(** ** The sort *)

Section SortFacts.

Implicit Types (g : DirectedGraph) (pending placed order : list nat).

Lemma ready_true g placed n :
  ready g placed n = true <-> forall d, (n, d) ∈ graph_edges g -> d ∈ placed.
Proof.
  unfold ready. rewrite forallb_forall. split.
  - intros Hall d Hin. apply list_elem_of_In in Hin. specialize (Hall _ Hin).
    cbn in Hall. rewrite Nat.eqb_refl in Hall. apply bool_decide_eq_true in Hall. exact Hall.
  - intros Hall [a b] Hin. cbn. destruct (Nat.eqb_spec a n) as [->|]; [|reflexivity].
    apply bool_decide_eq_true. apply Hall. apply list_elem_of_In. exact Hin.
Qed.

Lemma ready_false g placed n :
  ready g placed n = false -> exists d, (n, d) ∈ graph_edges g /\ d ∉ placed.
Proof.
  unfold ready. induction (graph_edges g) as [|[a b] es IH]; cbn; [discriminate|].
  destruct (Nat.eqb_spec a n) as [->|Hne].
  - destruct (bool_decide (b ∈ placed)) eqn:E; cbn.
    + intros Hrest. destruct (IH Hrest) as (d & Hin & Hd).
      exists d. split; [right; exact Hin|exact Hd].
    + intros _. exists b. split; [left|]. apply bool_decide_eq_false in E. exact E.
  - cbn. intros Hrest. destruct (IH Hrest) as (d & Hin & Hd).
    exists d. split; [right; exact Hin|exact Hd].
Qed.

Lemma take_first_ready_Some g placed pending n rest :
  take_first_ready g placed pending = Some (n, rest) ->
  exists l1 l2, pending = (l1 ++ n :: l2)%list /\ rest = (l1 ++ l2)%list
                /\ ready g placed n = true
                /\ Forall (fun x => ready g placed x = false) l1.
Proof.
  revert n rest. induction pending as [|x pending IH]; intros n rest; cbn; [discriminate|].
  destruct (ready g placed x) eqn:E.
  - intros [= <- <-]. exists [], pending. repeat split; [assumption|constructor].
  - destruct (take_first_ready g placed pending) as [[m rest']|]; [|discriminate].
    intros [= <- <-]. destruct (IH m rest' eq_refl) as (l1 & l2 & -> & -> & Hr & Hall).
    exists (x :: l1), l2. repeat split; [assumption|]. constructor; assumption.
Qed.

Lemma take_first_ready_None g placed pending :
  take_first_ready g placed pending = None ->
  Forall (fun x => ready g placed x = false) pending.
Proof.
  induction pending as [|x pending IH]; cbn; [constructor|].
  destruct (ready g placed x) eqn:E; [discriminate|].
  destruct (take_first_ready g placed pending) as [[m rest']|]; [discriminate|].
  intros _. constructor; [assumption|apply IH; reflexivity].
Qed.

(** What a completed sort guarantees about the part it appended. *)
Lemma sort_loop_sound g fuel pending placed order :
  sort_loop fuel g pending placed = Sorted order ->
  exists tail,
    order = (placed ++ tail)%list
    /\ tail ≡ₚ pending
    /\ (forall i n, tail !! i = Some n -> ready g (placed ++ take i tail) n = true)
    /\ (StronglySorted lt pending ->
        forall i j n x, (i < j)%nat -> tail !! i = Some n -> tail !! j = Some x ->
                        (x < n)%nat -> ready g (placed ++ take i tail) x = false).
Proof.
  revert pending placed. induction fuel as [|fuel IH]; intros pending placed.
  - destruct pending as [|first pending]; cbn; [|discriminate].
    intros [= <-]. exists []. rewrite app_nil_r. repeat split; try reflexivity.
    + intros i n Hi. rewrite lookup_nil in Hi. discriminate.
    + intros _ i j n x _ Hi. rewrite lookup_nil in Hi. discriminate.
  - destruct pending as [|first pending].
    { cbn. intros [= <-]. exists []. rewrite app_nil_r. repeat split; try reflexivity.
      - intros i n Hi. rewrite lookup_nil in Hi. discriminate.
      - intros _ i j n x _ Hi. rewrite lookup_nil in Hi. discriminate. }
    cbn [sort_loop].
    destruct (take_first_ready g placed (first :: pending)) as [[n rest]|] eqn:E;
      [|discriminate].
    intros Hsort.
    destruct (take_first_ready_Some _ _ _ _ _ E) as (l1 & l2 & Hpend & -> & Hready & Hearlier).
    destruct (IH _ _ Hsort) as (tail & -> & Hperm & Htail & Htie).
    exists (n :: tail). rewrite Hpend.
    split; [rewrite <- app_assoc; reflexivity|].
    split; [rewrite Hperm; apply Permutation_middle|].
    split.
    + intros [|i] m Hi; cbn in Hi.
      * injection Hi as <-. cbn. rewrite app_nil_r. exact Hready.
      * cbn [take]. specialize (Htail i m Hi). rewrite <- app_assoc in Htail. exact Htail.
    + intros Hsorted i j m x Hij Hi Hj Hxm.
      apply StronglySorted_app in Hsorted as (Hs12 & Hs1 & Hs2).
      apply StronglySorted_cons in Hs2 as [Hn2 Hs2].
      destruct i as [|i]; cbn in Hi.
      * injection Hi as <-. cbn. rewrite app_nil_r.
        destruct j as [|j]; [lia|]. cbn in Hj.
        assert (Hx : x ∈ (l1 ++ l2)%list).
        { rewrite <- Hperm. eapply list_elem_of_lookup_2. exact Hj. }
        apply elem_of_app in Hx as [Hx|Hx].
        -- rewrite Forall_forall in Hearlier. apply Hearlier. exact Hx.
        -- rewrite Forall_forall in Hn2. specialize (Hn2 _ Hx). lia.
      * destruct j as [|j]; [lia|]. cbn in Hj. cbn [take].
        assert (Hrest : StronglySorted lt (l1 ++ l2)).
        { apply StronglySorted_app_2; [|assumption..].
          intros a b Ha Hb. apply (Hs12 a b Ha). right. exact Hb. }
        specialize (Htie Hrest i j m x ltac:(lia) Hi Hj Hxm).
        rewrite <- app_assoc in Htie. exact Htie.
Qed.

(** In a non-empty finite set each of whose members is related to a
    member, the relation has a cycle. *)
Lemma no_sink_cycle (R : relation nat) (S : list nat) :
  S <> [] -> (forall x, x ∈ S -> exists y, y ∈ S /\ R x y) -> exists a, tc R a a.
Proof.
  remember (length S) as n eqn:Hn. revert S R Hn.
  induction n as [n IH] using lt_wf_ind. intros S R Hn Hne Hsucc.
  destruct S as [|x S0]; [contradiction|].
  destruct (Hsucc x ltac:(left)) as (z & Hz & Hxz).
  destruct (decide (z = x)) as [->|Hzx].
  { exists x. apply tc_once. exact Hxz. }
  set (S' := filter (fun y => y <> x) (x :: S0)).
  assert (Hlen : (length S' < n)%nat).
  { subst n S'. apply (length_filter_lt _ _ x); [left|]. intros Hx. apply Hx. reflexivity. }
  assert (HzS' : z ∈ S') by (apply list_elem_of_filter; split; assumption).
  destruct (IH (length S') Hlen S' (fun a b => R a b \/ (R a x /\ R x b)) eq_refl)
    as [a Ha].
  - intros E. rewrite E in HzS'. apply elem_of_nil in HzS'. exact HzS'.
  - intros a Ha. apply list_elem_of_filter in Ha as [Hax HaS].
    destruct (Hsucc a HaS) as (y & Hy & Hay).
    destruct (decide (y = x)) as [->|Hyx].
    + exists z. split; [exact HzS'|]. right. split; assumption.
    + exists y. split; [apply list_elem_of_filter; split; assumption|]. left; assumption.
  - exists a. revert Ha. generalize a at 2 4. generalize a. clear.
    intros a b Ha.
    induction Ha as [a b [Hab|[Hax Hxb]] | a b c [Hab|[Hax Hxb]] _ IHtc].
    + apply tc_once; assumption.
    + eapply tc_l; [exact Hax|apply tc_once; exact Hxb].
    + eapply tc_l; [exact Hab|exact IHtc].
    + eapply tc_l; [exact Hax|]. eapply tc_l; [exact Hxb|exact IHtc].
Qed.

(** The sort completes when the edges from pending nodes lead to placed
    or pending nodes and no node requires itself through a chain. *)
Lemma sort_loop_complete g fuel pending placed :
  (length pending <= fuel)%nat ->
  (forall a b, (a, b) ∈ graph_edges g -> a ∈ pending -> b ∈ placed \/ b ∈ pending) ->
  (forall a, ~ tc (fun x y => (x, y) ∈ graph_edges g) a a) ->
  exists order, sort_loop fuel g pending placed = Sorted order.
Proof.
  intros Hfuel Hclosed Hacyclic. revert pending placed Hfuel Hclosed.
  induction fuel as [|fuel IH]; intros pending placed Hfuel Hclosed.
  - destruct pending; [|cbn in Hfuel; lia]. eexists; reflexivity.
  - destruct pending as [|first pending]; [eexists; reflexivity|].
    cbn [sort_loop].
    destruct (take_first_ready g placed (first :: pending)) as [[n rest]|] eqn:E.
    + destruct (take_first_ready_Some _ _ _ _ _ E) as (l1 & l2 & Hpend & -> & Hready & _).
      apply IH.
      * assert (Hl : length (first :: pending) = length (l1 ++ n :: l2)) by (rewrite Hpend; reflexivity).
        rewrite length_app in *. cbn [length] in *. lia.
      * intros a b Hab Ha.
        assert (Ha' : a ∈ first :: pending).
        { rewrite Hpend. apply elem_of_app in Ha as [Ha|Ha];
            apply elem_of_app; [left; assumption|right; right; assumption]. }
        destruct (Hclosed a b Hab Ha') as [Hb|Hb].
        -- left. apply elem_of_app. left. assumption.
        -- rewrite Hpend in Hb. apply elem_of_app in Hb as [Hb|Hb].
           ++ right. apply elem_of_app. left. assumption.
           ++ apply elem_of_cons in Hb as [->|Hb].
              ** left. apply elem_of_app. right. left.
              ** right. apply elem_of_app. right. assumption.
    + exfalso. apply take_first_ready_None in E. rewrite Forall_forall in E.
      destruct (no_sink_cycle (fun x y => (x, y) ∈ graph_edges g) (first :: pending))
        as [a Ha]; [discriminate| |exact (Hacyclic a Ha)].
      intros x Hx. destruct (ready_false _ _ _ (E x Hx)) as (d & Hxd & Hd).
      exists d. split; [|exact Hxd].
      destruct (Hclosed x d Hxd Hx) as [Hp|Hp]; [contradiction|exact Hp].
Qed.

Lemma waits_for_edge g placed n :
  ready g placed n = false ->
  (n, waits_for g placed n) ∈ graph_edges g /\ waits_for g placed n ∉ placed.
Proof.
  intros Hn. destruct (ready_false _ _ _ Hn) as (d & Hin & Hd).
  unfold waits_for.
  destruct (List.filter _ (graph_edges g)) as [|e l] eqn:E.
  - exfalso.
    assert (Hf : In (n, d) (List.filter
                   (fun e => (fst e =? n)%nat && negb (bool_decide (snd e ∈ placed)))
                   (graph_edges g))).
    { apply filter_In. split; [apply list_elem_of_In; exact Hin|]. cbn [fst snd].
      rewrite Nat.eqb_refl. cbn [andb]. apply negb_true_iff, bool_decide_eq_false. exact Hd. }
    rewrite E in Hf. exact Hf.
  - assert (Hf : In e (List.filter
                   (fun e => (fst e =? n)%nat && negb (bool_decide (snd e ∈ placed)))
                   (graph_edges g))) by (rewrite E; left; reflexivity).
    apply filter_In in Hf as [Hin' Hp]. apply andb_true_iff in Hp as [Hfst Hsnd].
    apply Nat.eqb_eq in Hfst. apply negb_true_iff, bool_decide_eq_false in Hsnd.
    destruct e as [a b]. cbn [fst snd] in *. subst a.
    split; [apply list_elem_of_In; exact Hin'|exact Hsnd].
Qed.

Lemma follow_add (a b : nat) g placed n :
  follow (a + b) g placed n = follow b g placed (follow a g placed n).
Proof.
  revert n. induction a as [|a IH]; intros n; [reflexivity|]. cbn [Nat.add follow]. apply IH.
Qed.

(** A list that has a repeated element has it at two positions. *)
Lemma repeated_positions (l : list nat) :
  ~ NoDup l -> exists i j x, (i < j)%nat /\ l !! i = Some x /\ l !! j = Some x.
Proof.
  induction l as [|a l IH]; intros Hdup; [destruct Hdup; constructor|].
  destruct (decide (a ∈ l)) as [Hin|Hnin].
  - apply list_elem_of_lookup_1 in Hin as [k Hk].
    exists 0%nat, (S k), a. split; [lia|]. split; [reflexivity|exact Hk].
  - destruct IH as (i & j & x & Hij & Hi & Hj).
    { intros Hl. apply Hdup. apply NoDup_cons_2; assumption. }
    exists (S i), (S j), x. split; [lia|]. split; assumption.
Qed.

Section Stuck.
Variables (g : DirectedGraph) (placed pending : list nat).
Hypothesis Hstuck : forall x, x ∈ pending -> ready g placed x = false.
Hypothesis Hclosed :
  forall a b, (a, b) ∈ graph_edges g -> a ∈ pending -> b ∈ placed \/ b ∈ pending.

Lemma waits_for_pending x :
  x ∈ pending ->
  (x, waits_for g placed x) ∈ graph_edges g /\ waits_for g placed x ∈ pending.
Proof.
  intros Hx. destruct (waits_for_edge g placed x (Hstuck x Hx)) as [He Hn].
  split; [exact He|]. destruct (Hclosed _ _ He Hx) as [Hp|Hp]; [contradiction|exact Hp].
Qed.

Lemma follow_pending k x : x ∈ pending -> follow k g placed x ∈ pending.
Proof.
  revert x. induction k as [|k IH]; intros x Hx; [exact Hx|].
  cbn [follow]. apply IH. apply (waits_for_pending x Hx).
Qed.

Lemma follow_chain k x :
  x ∈ pending ->
  tc (fun a b => (a, b) ∈ graph_edges g) x (follow (S k) g placed x).
Proof.
  revert x. induction k as [|k IH]; intros x Hx.
  - cbn [follow]. apply tc_once. apply (waits_for_pending x Hx).
  - change (follow (S (S k)) g placed x) with (follow (S k) g placed (waits_for g placed x)).
    eapply tc_l; [apply (waits_for_pending x Hx)|].
    apply IH. apply (waits_for_pending x Hx).
Qed.

(** After as many steps as there are pending nodes the walk is on a
    cycle. *)
Lemma follow_on_cycle x :
  x ∈ pending ->
  tc (fun a b => (a, b) ∈ graph_edges g)
     (follow (length pending) g placed x) (follow (length pending) g placed x).
Proof.
  intros Hx. set (n := length pending).
  set (walked := (fun k => follow k g placed x) <$> seq 0 (S n)).
  assert (Hdup : ~ NoDup walked).
  { intros Hnodup.
    assert (Hincl : walked ⊆+ pending).
    { apply NoDup_submseteq; [exact Hnodup|]. intros y Hy.
      apply list_elem_of_fmap in Hy as (k & -> & _).
      apply follow_pending. exact Hx. }
    apply submseteq_length in Hincl as Hlen.
    subst walked. rewrite length_fmap, length_seq in Hlen. subst n. lia. }
  destruct (repeated_positions walked Hdup) as (i & j & y & Hij & Hi & Hj).
  assert (Hat : forall k z, walked !! k = Some z -> (k <= n)%nat /\ z = follow k g placed x).
  { intros k z Hk. subst walked. rewrite list_lookup_fmap in Hk.
    destruct (seq 0 (S n) !! k) as [m|] eqn:E; [|discriminate].
    apply lookup_seq in E as [-> Hlt]. cbn in Hk. injection Hk as <-. split; [lia|reflexivity]. }
  destruct (Hat i y Hi) as [Hin Hyi]. destruct (Hat j y Hj) as [Hjn Hyj].
  set (p := (j - i - 1)%nat).
  assert (Hperiod : follow (S p) g placed (follow i g placed x) = follow i g placed x).
  { rewrite <- follow_add. replace (i + S p)%nat with j by (subst p; lia). congruence. }
  assert (Hn : follow (S p) g placed (follow n g placed x) = follow n g placed x).
  { replace n with (i + (n - i))%nat by lia. rewrite (follow_add i (n - i)).
    rewrite <- (follow_add (n - i) (S p)), (Nat.add_comm (n - i) (S p)), follow_add.
    rewrite Hperiod. reflexivity. }
  rewrite <- Hn at 2. apply follow_chain. apply follow_pending. exact Hx.
Qed.

End Stuck.

(** The node a failed sort names requires itself through a chain. *)
Lemma sort_loop_cycle g fuel pending placed n :
  (length pending <= fuel)%nat ->
  (forall a b, (a, b) ∈ graph_edges g -> a ∈ pending -> b ∈ placed \/ b ∈ pending) ->
  sort_loop fuel g pending placed = cycle_detected n ->
  tc (fun x y => (x, y) ∈ graph_edges g) n n.
Proof.
  revert pending placed. induction fuel as [|fuel IH]; intros pending placed Hfuel Hclosed.
  - destruct pending; [discriminate|cbn in Hfuel; lia].
  - destruct pending as [|first pending]; [discriminate|].
    cbn [sort_loop].
    destruct (take_first_ready g placed (first :: pending)) as [[m rest]|] eqn:E.
    + destruct (take_first_ready_Some _ _ _ _ _ E) as (l1 & l2 & Hpend & -> & Hready & _).
      apply IH.
      * assert (Hl : length (first :: pending) = length (l1 ++ m :: l2))
          by (rewrite Hpend; reflexivity).
        rewrite length_app in *. cbn [length] in *. lia.
      * intros a b Hab Ha.
        assert (Ha' : a ∈ first :: pending).
        { rewrite Hpend. apply elem_of_app in Ha as [Ha|Ha];
            apply elem_of_app; [left; assumption|right; right; assumption]. }
        destruct (Hclosed a b Hab Ha') as [Hb|Hb].
        -- left. apply elem_of_app. left. assumption.
        -- rewrite Hpend in Hb. apply elem_of_app in Hb as [Hb|Hb].
           ++ right. apply elem_of_app. left. assumption.
           ++ apply elem_of_cons in Hb as [->|Hb].
              ** left. apply elem_of_app. right. left.
              ** right. apply elem_of_app. right. assumption.
    + intros [= <-]. apply take_first_ready_None in E. rewrite Forall_forall in E.
      apply (follow_on_cycle g placed (first :: pending)); [exact E|exact Hclosed|left].
Qed.

(** When every edge leads from a node to a node, the node
    [topologicalSort] names on failure lies on a cycle. *)
Lemma topologicalSort_cycle g n :
  (forall a b, (a, b) ∈ graph_edges g -> a ∈ graph_nodes g -> b ∈ graph_nodes g) ->
  topologicalSort g = cycle_detected n ->
  tc (fun x y => (x, y) ∈ graph_edges g) n n.
Proof.
  intros Hclosed. unfold topologicalSort.
  apply sort_loop_cycle; [reflexivity|].
  intros a b Hab Ha. right. apply (Hclosed a b Hab Ha).
Qed.

End SortFacts.

(** ** Indices *)

Section IndexFacts.
Context `{Versions} `{Host} `{Platform}.

Lemma map_fmap {A B} (f : A -> B) (l : list A) : map f l = f <$> l.
Proof. induction l; cbn; congruence. Qed.

Lemma assignIndices_snoc walk p :
  assignIndices (walk ++ [p]) = assignIndex (assignIndices walk) p.
Proof. unfold assignIndices. rewrite fold_left_app. reflexivity. Qed.

(** The first loop of [checkDependencies] numbers the visited elements
    1, 2, ... in the order visited. *)
Lemma assignIndices_spec (walk : list (string * FModLoadingEntry)) :
  NoDup (map fst walk) ->
  ix_next (assignIndices walk) = S (length walk)
  /\ graph_nodes (ix_graph (assignIndices walk)) = seq 1 (length walk)
  /\ graph_edges (ix_graph (assignIndices walk)) = []
  /\ (forall i key, map fst walk !! i = Some key ->
        ix_modIndices (assignIndices walk) !! key = Some (S i)
        /\ ix_modByIndex (assignIndices walk) !! (S i) = Some key)
  /\ (forall n, (length walk < n)%nat -> ix_modByIndex (assignIndices walk) !! n = None)
  /\ (forall key, key ∉ map fst walk -> ix_modIndices (assignIndices walk) !! key = None).
Proof.
  induction walk as [|p walk IH] using rev_ind; intros Hnodup.
  - cbn. split; [reflexivity|]. split; [reflexivity|]. split; [reflexivity|].
    split; [|split].
    + intros i key Hi. rewrite lookup_nil in Hi. discriminate.
    + intros n _. apply lookup_empty.
    + intros key _. apply lookup_empty.
  - rewrite map_app in Hnodup. cbn [map] in Hnodup.
    apply NoDup_app in Hnodup as (Hnd & Hfresh & _).
    destruct (IH Hnd) as (Hnext & Hnodes & Hedges & Hidx & Hhigh & Hlow).
    assert (Hp : fst p ∉ map fst walk).
    { intros Hin. apply (Hfresh _ Hin). left. }
    rewrite assignIndices_snoc. unfold assignIndex.
    cbn [ix_next ix_modIndices ix_modByIndex ix_graph].
    rewrite Hnext, length_app. cbn [length]. rewrite Nat.add_1_r.
    split; [reflexivity|]. split; [|split; [|split; [|split]]].
    + unfold addNode. rewrite Hnodes.
      rewrite bool_decide_eq_false_2 by (rewrite elem_of_seq; lia).
      cbn [graph_nodes]. rewrite seq_S. reflexivity.
    + unfold addNode. destruct (bool_decide _); [exact Hedges|cbn; exact Hedges].
    + intros i key Hi. rewrite map_app in Hi. cbn [map] in Hi.
      rewrite !lookup_emplace.
      destruct (decide (i < length (map fst walk))%nat) as [Hlt|Hge].
      * rewrite lookup_app_l in Hi by exact Hlt.
        destruct (Hidx i key Hi) as [-> ->]. split; reflexivity.
      * rewrite lookup_app_r in Hi by lia.
        destruct (i - length (map fst walk))%nat as [|?] eqn:E; cbn in Hi; [|discriminate].
        injection Hi as <-. rewrite length_map in *.
        assert (i = length walk) as -> by lia.
        rewrite (Hlow _ Hp), (Hhigh (S (length walk))) by lia.
        rewrite !decide_True by reflexivity. split; reflexivity.
    + intros n Hn. rewrite lookup_emplace. rewrite Hhigh by lia.
      rewrite decide_False by lia. reflexivity.
    + intros key Hkey. rewrite lookup_emplace.
      assert (Hk : key ∉ map fst walk).
      { intros Hin. apply Hkey. rewrite map_app. apply elem_of_app. left. exact Hin. }
      rewrite (Hlow _ Hk).
      destruct (decide (fst p = key)) as [Heq|]; [|reflexivity].
      exfalso. apply Hkey. rewrite map_app, <- Heq. apply elem_of_app. right. left.
Qed.

End IndexFacts.

(** ** The order [checkDependencies] produces *)

Section OrderFacts.
Context `{Versions} `{Host} `{Platform}.
Variable walk : list (string * FModLoadingEntry).
Variable base : gmap string FModLoadingEntry.
Hypothesis Henum : enumerates walk base.
Hypothesis Hkeyed : well_keyed base.

Lemma walk_nodup : NoDup (map fst walk).
Proof.
  rewrite map_fmap. unfold enumerates in Henum. rewrite Henum.
  apply NoDup_fst_map_to_list.
Qed.

Lemma walk_elem key e : (key, e) ∈ walk <-> base !! key = Some e.
Proof. unfold enumerates in Henum. rewrite Henum. apply elem_of_map_to_list. Qed.

Lemma key_position p key :
  map fst walk !! p = Some key ->
  exists e, walk !! p = Some (key, e) /\ base !! key = Some e.
Proof.
  rewrite map_fmap, list_lookup_fmap. destruct (walk !! p) as [[k e]|] eqn:E; [|discriminate].
  cbn. intros [= <-]. exists e. split; [reflexivity|].
  apply walk_elem. eapply list_elem_of_lookup_2. exact E.
Qed.

Lemma position_of_key key e :
  base !! key = Some e -> exists p, map fst walk !! p = Some key /\ walk !! p = Some (key, e).
Proof.
  intros Hk. apply walk_elem in Hk. apply list_elem_of_lookup_1 in Hk as [p Hp].
  exists p. split; [|exact Hp]. rewrite map_fmap, list_lookup_fmap, Hp. reflexivity.
Qed.

Lemma position_unique p q key :
  map fst walk !! p = Some key -> map fst walk !! q = Some key -> p = q.
Proof. intros Hp Hq. eapply NoDup_lookup; [apply walk_nodup|exact Hp|exact Hq]. Qed.

Lemma index_of_key p key :
  map fst walk !! p = Some key ->
  index_of (ix_modIndices (assignIndices walk)) key = S p
  /\ name_of (ix_modByIndex (assignIndices walk)) (S p) = key.
Proof.
  intros Hp. destruct (assignIndices_spec walk walk_nodup) as (_ & _ & _ & Hidx & _).
  destruct (Hidx p key Hp) as [Hi Hn]. unfold index_of, name_of. rewrite Hi, Hn.
  split; reflexivity.
Qed.

Lemma resolved_edge_inv x y :
  (x, y) ∈ (resolved_edges walk base) ->
  exists e pair,
    e ∈ map snd walk
    /\ (pair ∈ dependencies (modInfo e) \/ pair ∈ optionalDependencies (modInfo e))
    /\ dependencyFails base pair = false
    /\ x = index_of (ix_modIndices (assignIndices walk)) (modid (modInfo e))
    /\ y = index_of (ix_modIndices (assignIndices walk))
             (modid (modInfo (entry_at base (fst pair)))).
Proof.
  unfold resolved_edges. rewrite list_elem_of_In, in_flat_map.
  intros (e & He & Hin). exists e.
  unfold entryEdges, edgesOf in Hin. rewrite in_app_iff, !in_map_iff in Hin.
  destruct Hin as [(pair & Heq & Hp)|(pair & Heq & Hp)];
    apply filter_In in Hp as [Hp Hok]; apply negb_true_iff in Hok;
    injection Heq as <- <-; exists pair;
    (split; [apply list_elem_of_In; exact He|]);
    (split; [|split; [exact Hok|split; reflexivity]]).
  - left. apply list_elem_of_In. exact Hp.
  - right. apply list_elem_of_In. exact Hp.
Qed.

Lemma resolved_edge_intro e pair :
  e ∈ map snd walk ->
  (pair ∈ dependencies (modInfo e) \/ pair ∈ optionalDependencies (modInfo e)) ->
  dependencyFails base pair = false ->
  (index_of (ix_modIndices (assignIndices walk)) (modid (modInfo e)),
   index_of (ix_modIndices (assignIndices walk)) (modid (modInfo (entry_at base (fst pair)))))
  ∈ (resolved_edges walk base).
Proof.
  intros He Hp Hok. unfold resolved_edges. rewrite list_elem_of_In, in_flat_map.
  exists e. split; [apply list_elem_of_In; exact He|].
  unfold entryEdges, edgesOf. rewrite in_app_iff, !in_map_iff.
  destruct Hp as [Hp|Hp]; [left|right]; exists pair;
    (split; [reflexivity|]); apply filter_In;
    (split; [apply list_elem_of_In; exact Hp|rewrite Hok; reflexivity]).
Qed.

(** A dependency that does not fail is registered under its own id. *)
Lemma met_dependency_registered pair :
  dependencyFails base pair = false ->
  base !! fst pair = Some (entry_at base (fst pair))
  /\ modid (modInfo (entry_at base (fst pair))) = fst pair.
Proof.
  unfold dependencyFails. intros Hok. apply orb_false_iff in Hok as [Hv _].
  apply negb_false_iff in Hv.
  pose proof (entry_at_valid_present _ _ Hv) as Hpresent.
  split; [exact Hpresent|]. apply (Hkeyed _ _ Hpresent).
Qed.

(** Edges are met dependencies between visited entries, and conversely. *)
Lemma resolved_edge_requires x y :
  (x, y) ∈ (resolved_edges walk base) ->
  exists p q a d,
    x = S p /\ y = S q
    /\ map fst walk !! p = Some a /\ map fst walk !! q = Some d
    /\ requires base a d.
Proof.
  intros Hxy. destruct (resolved_edge_inv x y Hxy) as (e & pair & He & Hp & Hok & -> & ->).
  rewrite map_fmap in He. apply list_elem_of_fmap in He as ([a e'] & Heq & Hin).
  cbn in Heq. subst e'.
  pose proof (proj1 (walk_elem a e) Hin) as Ha.
  destruct (Hkeyed _ _ Ha) as [_ Hida]. rewrite Hida.
  destruct (position_of_key a e Ha) as (p & Hpa & _).
  destruct (met_dependency_registered pair Hok) as [Hd Hidd]. rewrite Hidd.
  destruct (position_of_key _ _ Hd) as (q & Hqd & _).
  exists p, q, a, (fst pair).
  split; [apply (index_of_key p a Hpa)|]. split; [apply (index_of_key q _ Hqd)|].
  split; [exact Hpa|]. split; [exact Hqd|].
  exists e, pair. repeat split; assumption.
Qed.

Lemma requires_resolved_edge p a d :
  map fst walk !! p = Some a -> requires base a d ->
  exists q, map fst walk !! q = Some d /\ (S p, S q) ∈ (resolved_edges walk base).
Proof.
  intros Hpa (e & pair & Ha & Hp & Hok & <-).
  destruct (Hkeyed _ _ Ha) as [_ Hida].
  destruct (met_dependency_registered pair Hok) as [Hd Hidd].
  destruct (position_of_key _ _ Hd) as (q & Hqd & _).
  exists q. split; [exact Hqd|].
  assert (He : e ∈ map snd walk).
  { rewrite map_fmap. apply list_elem_of_fmap. exists (a, e). split; [reflexivity|].
    apply walk_elem. exact Ha. }
  pose proof (resolved_edge_intro e pair He Hp Hok) as Hedge.
  rewrite Hida, Hidd in Hedge.
  rewrite (proj1 (index_of_key p a Hpa)), (proj1 (index_of_key q _ Hqd)) in Hedge.
  exact Hedge.
Qed.

Lemma tc_resolved_edge_requires x y :
  tc (fun x y => (x, y) ∈ (resolved_edges walk base)) x y ->
  exists p q a d,
    x = S p /\ y = S q
    /\ map fst walk !! p = Some a /\ map fst walk !! q = Some d
    /\ tc (requires base) a d.
Proof.
  induction 1 as [x y Hxy|x y z Hxy _ IH].
  - destruct (resolved_edge_requires x y Hxy) as (p & q & a & d & -> & -> & Hp & Hq & Hr).
    exists p, q, a, d. repeat split; try assumption. apply tc_once. exact Hr.
  - destruct (resolved_edge_requires x y Hxy) as (p & q & a & d & -> & -> & Hp & Hq & Hr).
    destruct IH as (q' & r & d' & c & [= <-] & -> & Hq' & Hr' & Htc).
    assert (d' = d) as -> by congruence.
    exists p, r, a, c. repeat split; try assumption. eapply tc_l; [exact Hr|exact Htc].
Qed.

Lemma filter_all_false {A} (f : A -> bool) (l : list A) :
  (forall x, In x l -> f x = false) -> List.filter f l = [].
Proof.
  induction l as [|x l IH]; intros Hall; cbn; [reflexivity|].
  rewrite (Hall x (or_introl eq_refl)). apply IH. intros y Hy. apply Hall. right. exact Hy.
Qed.

Lemma flat_map_all_nil {A B} (f : A -> list B) (l : list A) :
  (forall x, In x l -> f x = []) -> flat_map f l = [].
Proof.
  induction l as [|x l IH]; intros Hall; cbn; [reflexivity|].
  rewrite (Hall x (or_introl eq_refl)). apply IH. intros y Hy. apply Hall. right. exact Hy.
Qed.

Lemma requiredFailures_met : required_met base -> requiredFailures base walk = [].
Proof.
  intros Hmet. unfold requiredFailures. apply flat_map_all_nil. intros e He.
  apply list_elem_of_In in He. rewrite map_fmap in He.
  apply list_elem_of_fmap in He as ([key e'] & Heq & Hin). cbn in Heq. subst e'.
  apply walk_elem in Hin.
  unfold requiredFailuresOf. rewrite filter_all_false; [reflexivity|].
  intros pair Hp. apply (Hmet key e pair Hin). apply list_elem_of_In. exact Hp.
Qed.

Lemma untagged_reads (entries : gmap string FModLoadingEntry) :
  untagged base -> same_reads entries base ->
  forall key, has_key "@ORDER:LAST" (dependencies (modInfo (entry_at entries key))) = false.
Proof.
  intros Huntagged Hsame key. rewrite Hsame. unfold entry_at.
  destruct (base !! key) as [e|] eqn:E; cbn.
  - apply (Huntagged key e E).
  - reflexivity.
Qed.

(** Without tagged entries [finalizeSortingResults] moves nothing. *)
Lemma finalizeSortingResults_untagged modByIndex (entries : gmap string FModLoadingEntry) order :
  (forall key, has_key "@ORDER:LAST" (dependencies (modInfo (entry_at entries key))) = false) ->
  finalizeSortingResults modByIndex entries order = order.
Proof.
  intros Hnone. unfold finalizeSortingResults, modsToMoveInTheEnd.
  induction (combine (seq 0 (length order)) order) as [|p l IH]; [reflexivity|].
  rewrite filter_cons_False; [exact IH|].
  rewrite Hnone. intros [].
Qed.

Lemma seq_strongly_sorted a n : StronglySorted lt (seq a n).
Proof.
  revert a. induction n as [|n IH]; intros a; cbn; constructor; [apply IH|].
  apply List.Forall_forall. intros x Hx. apply in_seq in Hx. lia.
Qed.

(** The sort of the resolved graph: it completes, and its result lists
    every index once, each after the indices it has an edge to, the
    smaller index first whenever both could be placed. *)
Lemma resolved_sort (g : DirectedGraph) :
  acyclic base ->
  graph_nodes g = seq 1 (length walk) ->
  graph_edges g = (resolved_edges walk base) ->
  exists order,
    topologicalSort g = Sorted order
    /\ order ≡ₚ seq 1 (length walk)
    /\ (forall i n, order !! i = Some n -> ready g (take i order) n = true)
    /\ (forall i j n x, (i < j)%nat -> order !! i = Some n -> order !! j = Some x ->
                        (x < n)%nat -> ready g (take i order) x = false).
Proof.
  intros Hacyclic Hnodes Hedges. unfold topologicalSort.
  destruct (sort_loop_complete g (length (graph_nodes g)) (graph_nodes g) [])
    as [order Horder].
  - reflexivity.
  - intros a b Hab _. right. rewrite Hedges in Hab.
    destruct (resolved_edge_requires a b Hab) as (p & q & _ & d & _ & -> & _ & Hq & _).
    rewrite Hnodes. apply elem_of_seq.
    apply lookup_lt_Some in Hq. rewrite length_map in Hq. lia.
  - intros a Ha. rewrite Hedges in Ha.
    destruct (tc_resolved_edge_requires a a Ha) as (p & q & x & y & -> & [= <-] & Hp & Hq & Htc).
    assert (y = x) as -> by congruence. exact (Hacyclic x Htc).
  - exists order. split; [exact Horder|].
    destruct (sort_loop_sound _ _ _ _ _ Horder) as (tail & Heq & Hperm & Hready & Htie).
    cbn [app] in Heq. subst tail. rewrite Hnodes in Hperm, Htie.
    split; [exact Hperm|]. split; [exact Hready|].
    apply Htie. apply seq_strongly_sorted.
Qed.

(** An element of the sorted indices is the index of a visited entry. *)
Lemma sorted_index_key order i n :
  order ≡ₚ seq 1 (length walk) -> order !! i = Some n ->
  exists p key, n = S p /\ map fst walk !! p = Some key
                /\ name_of (ix_modByIndex (assignIndices walk)) n = key.
Proof.
  intros Hperm Hi. apply list_elem_of_lookup_2 in Hi. rewrite Hperm in Hi.
  apply elem_of_seq in Hi. destruct n as [|p]; [lia|].
  destruct (lookup_lt_is_Some_2 (map fst walk) p) as [key Hkey];
    [rewrite length_map; lia|].
  exists p, key. split; [reflexivity|]. split; [exact Hkey|].
  apply (index_of_key p key Hkey).
Qed.

Lemma names_of_all_indices :
  map (name_of (ix_modByIndex (assignIndices walk))) (seq 1 (length walk)) = map fst walk.
Proof.
  apply list_eq. intros i. rewrite (map_fmap (name_of _)), list_lookup_fmap.
  destruct (decide (i < length walk)%nat) as [Hlt|Hge].
  - rewrite lookup_seq_lt by exact Hlt. cbn.
    destruct (lookup_lt_is_Some_2 (map fst walk) i) as [key Hkey];
      [rewrite length_map; exact Hlt|].
    rewrite Hkey. f_equal. apply (index_of_key i key Hkey).
  - rewrite lookup_seq_ge by lia. cbn. symmetry. apply lookup_ge_None_2.
    rewrite length_map. lia.
Qed.

End OrderFacts.

Section OrderTheorem.
Context `{Versions} `{Host} `{Platform}.

Lemma checkStageErrors_no_problems stage (st : FModHandler) :
  loadingProblems st = [] -> checkStageErrors stage st = st.
Proof. unfold checkStageErrors. intros ->. reflexivity. Qed.

(** The order [checkDependencies] produces, with the sort as modelled
    above. Let [walk] be the order in which [checkDependencies] visits
    [loadingEntries] (an enumeration of the table; the container does not
    promise the order of registration). When every entry is valid and
    stored under its own mod id, none lists the [@ORDER:LAST] tag, every
    required dependency is met, no entry requires itself through a chain
    of met dependencies, and no problem is pending, [checkDependencies]
    succeeds: it records no problem and appends to the sorted load list
    the entries of a sequence [ids] of mod ids which
    - is a rearrangement of the ids visited,
    - has every required dependency, and every met optional one,
      strictly before the entry that lists it, and
    - has an entry before one visited earlier only while that one still
      waits for one of its dependencies (the placing rule of the
      modelled sort). *)
Theorem checkDependencies_orders_dependencies
  (walk : list (string * FModLoadingEntry)) (st : FModHandler) :
  enumerates walk (loadingEntries st) ->
  well_keyed (loadingEntries st) ->
  required_met (loadingEntries st) ->
  untagged (loadingEntries st) ->
  acyclic (loadingEntries st) ->
  loadingProblems st = [] ->
  exists ids : list string,
    sortedModLoadList (checkDependencies walk st)
    = (sortedModLoadList st ++ map (entry_at (loadingEntries st)) ids)%list
    /\ loadingProblems (checkDependencies walk st) = []
    /\ shutdownRequests (checkDependencies walk st) = shutdownRequests st
    /\ ids ≡ₚ map fst walk
    /\ (forall i a e pair,
          ids !! i = Some a -> loadingEntries st !! a = Some e ->
          pair ∈ dependencies (modInfo e) ->
          exists j, (j < i)%nat /\ ids !! j = Some (fst pair))
    /\ (forall i a d,
          ids !! i = Some a -> requires (loadingEntries st) a d ->
          exists j, (j < i)%nat /\ ids !! j = Some d)
    /\ (forall i j a b p q,
          (i < j)%nat -> ids !! i = Some a -> ids !! j = Some b ->
          map fst walk !! p = Some a -> map fst walk !! q = Some b -> (q < p)%nat ->
          exists d, requires (loadingEntries st) b d /\ d ∉ take i ids).
Proof.
  intros Henum Hkeyed Hmet Huntagged Hacyclic Hproblems.
  pose proof (checkDependencies_resolution walk st) as Hres. cbn zeta in Hres.
  unfold checkDependencies.
  set (r := fold_left _ _ _) in *.
  destruct Hres as (Hsame & Hmiss & Hnodes & Hedges).
  rewrite Hmiss, (requiredFailures_met walk _ Henum Hmet).
  destruct (assignIndices_spec walk (walk_nodup walk _ Henum)) as (_ & Hn0 & He0 & _).
  rewrite Hn0 in Hnodes. rewrite He0 in Hedges. cbn [app] in Hedges.
  change (flat_map _ _) with (resolved_edges walk (loadingEntries st)) in Hedges.
  destruct (resolved_sort walk _ Henum Hkeyed (res_graph r) Hacyclic Hnodes Hedges)
    as (order & Hsort & Hperm & Hready & Htie).
  rewrite Hsort.
  rewrite (finalizeSortingResults_untagged _ _ _ (untagged_reads _ _ Huntagged Hsame)).
  rewrite checkStageErrors_no_problems by exact Hproblems.
  cbn [sortedModLoadList loadingProblems shutdownRequests set_loadingEntries
       set_sortedModLoadList].
  set (names := name_of (ix_modByIndex (assignIndices walk))).
  assert (Hids : forall i a, map names order !! i = Some a ->
            exists p, order !! i = Some (S p) /\ map fst walk !! p = Some a).
  { intros i a Hi. rewrite map_fmap, list_lookup_fmap in Hi.
    destruct (order !! i) as [n|] eqn:E; [|discriminate]. cbn in Hi. injection Hi as <-.
    destruct (sorted_index_key walk _ Henum order i n Hperm E) as (p & key & -> & Hkey & Hname).
    exists p. split; [reflexivity|]. subst names. rewrite Hname. exact Hkey. }
  assert (Hback : forall j q d, order !! j = Some (S q) -> map fst walk !! q = Some d ->
            map names order !! j = Some d).
  { intros j q d Hj Hq. rewrite map_fmap, list_lookup_fmap, Hj. cbn. f_equal.
    apply (index_of_key walk _ Henum q d Hq). }
  assert (Hprec : forall i a d,
            map names order !! i = Some a -> requires (loadingEntries st) a d ->
            exists j, (j < i)%nat /\ map names order !! j = Some d).
  { intros i a d Hi Hreq. destruct (Hids i a Hi) as (p & Hp & Hpa).
    destruct (requires_resolved_edge walk _ Henum Hkeyed p a d Hpa Hreq) as (q & Hqd & Hedge).
    specialize (Hready i _ Hp). rewrite ready_true in Hready.
    rewrite <- Hedges in Hedge. specialize (Hready _ Hedge).
    apply list_elem_of_lookup_1 in Hready as [j Hj].
    apply lookup_take_Some in Hj as [Hj Hlt].
    exists j. split; [exact Hlt|]. apply (Hback j q d Hj Hqd). }
  exists (map names order).
  split; [|split; [exact Hproblems|split; [reflexivity|split; [|split; [|split]]]]].
  - unfold populateSortedModList. f_equal. rewrite map_map. apply map_ext.
    intros idx. apply Hsame.
  - rewrite Hperm. fold names. rewrite (map_fmap names).
    rewrite <- (map_fmap names). subst names. rewrite (names_of_all_indices walk _ Henum).
    reflexivity.
  - intros i a e pair Hi Ha Hpair. apply (Hprec i a (fst pair) Hi).
    exists e, pair. split; [exact Ha|]. split; [left; exact Hpair|].
    split; [apply (Hmet a e pair Ha Hpair)|reflexivity].
  - exact Hprec.
  - intros i j a b p q Hij Hi Hj Hpa Hqb Hqp.
    destruct (Hids i a Hi) as (p' & Hp' & Hpa').
    destruct (Hids j b Hj) as (q' & Hq' & Hqb').
    assert (p' = p) as -> by (eapply (position_unique walk _ Henum); eassumption).
    assert (q' = q) as -> by (eapply (position_unique walk _ Henum); eassumption).
    specialize (Htie i j (S p) (S q) Hij Hp' Hq' ltac:(lia)).
    destruct (ready_false _ _ _ Htie) as (y & Hedge & Hy).
    rewrite Hedges in Hedge.
    destruct (resolved_edge_requires walk _ Henum Hkeyed _ _ Hedge)
      as (q1 & q2 & b' & d & [= <-] & -> & Hb' & Hd & Hreq).
    assert (b' = b) as -> by congruence.
    exists d. split; [exact Hreq|].
    intros Hin. apply Hy.
    apply list_elem_of_lookup_1 in Hin as [k Hk].
    apply lookup_take_Some in Hk as [Hk Hlt].
    destruct (Hids k d Hk) as (q3 & Hq3 & Hq3d).
    assert (q3 = q2) as -> by (eapply (position_unique walk _ Henum); eassumption).
    eapply list_elem_of_lookup_2. apply lookup_take_Some. split; [exact Hq3|exact Hlt].
Qed.

End OrderTheorem.

(** ** Checking the conditions on a concrete table *)

Section Checks.
Context `{Versions} `{Host} `{Platform}.

Lemma enumerates_checked keys (entries : gmap string FModLoadingEntry) :
  enumerates_check keys entries = true -> enumerates (walk_of entries keys) entries.
Proof.
  unfold enumerates_check. rewrite !andb_true_iff, bool_decide_eq_true, forallb_forall.
  intros [[Hnodup Hall] Hlen]. apply Nat.leb_le in Hlen.
  unfold enumerates, walk_of. rewrite map_fmap.
  apply submseteq_length_Permutation.
  - apply NoDup_submseteq.
    + apply (NoDup_fmap_2_strong _); [|exact Hnodup]. intros x y _ _ [= ->]. reflexivity.
    + intros [k e] Hin. apply list_elem_of_fmap in Hin as (key & [= -> ->] & Hkey).
      apply elem_of_map_to_list.
      specialize (Hall key (proj1 (list_elem_of_In _ _) Hkey)).
      apply bool_decide_eq_true in Hall as [e He]. unfold entry_at. rewrite He. reflexivity.
  - rewrite length_fmap. exact Hlen.
Qed.

Lemma well_keyed_checked (entries : gmap string FModLoadingEntry) :
  well_keyed_check entries = true -> well_keyed entries.
Proof.
  unfold well_keyed_check. rewrite forallb_forall. intros Hall key e Hk.
  apply elem_of_map_to_list, list_elem_of_In in Hk. specialize (Hall _ Hk). cbn in Hall.
  apply andb_true_iff in Hall as [Hv Hid]. apply String.eqb_eq in Hid. split; assumption.
Qed.

Lemma required_met_checked (entries : gmap string FModLoadingEntry) :
  required_met_check entries = true -> required_met entries.
Proof.
  unfold required_met_check. rewrite forallb_forall. intros Hall key e pair Hk Hp.
  apply elem_of_map_to_list, list_elem_of_In in Hk. specialize (Hall _ Hk). cbn in Hall.
  rewrite forallb_forall in Hall. apply list_elem_of_In in Hp. specialize (Hall _ Hp).
  apply negb_true_iff in Hall. exact Hall.
Qed.

Lemma untagged_checked (entries : gmap string FModLoadingEntry) :
  untagged_check entries = true -> untagged entries.
Proof.
  unfold untagged_check. rewrite forallb_forall. intros Hall key e Hk.
  apply elem_of_map_to_list, list_elem_of_In in Hk. specialize (Hall _ Hk). cbn in Hall.
  apply negb_true_iff in Hall. exact Hall.
Qed.

Lemma ranked_requires rank (entries : gmap string FModLoadingEntry) a d :
  ranked_check rank entries = true -> requires entries a d -> (rank d < rank a)%nat.
Proof.
  unfold ranked_check. rewrite forallb_forall.
  intros Hall (e & pair & Ha & Hp & Hok & <-).
  apply elem_of_map_to_list, list_elem_of_In in Ha. specialize (Hall _ Ha). cbn in Hall.
  rewrite forallb_forall in Hall.
  assert (Hin : In pair (dependencies (modInfo e) ++ optionalDependencies (modInfo e))).
  { apply in_app_iff. destruct Hp as [Hp|Hp]; [left|right]; apply list_elem_of_In; exact Hp. }
  specialize (Hall _ Hin). rewrite Hok in Hall. cbn in Hall. apply Nat.ltb_lt in Hall.
  exact Hall.
Qed.

Lemma ranked_chain rank (entries : gmap string FModLoadingEntry) a d :
  ranked_check rank entries = true -> tc (requires entries) a d -> (rank d < rank a)%nat.
Proof.
  intros Hrank. induction 1 as [a d Hr|a b d Hr _ IH].
  - apply (ranked_requires rank entries a d Hrank Hr).
  - pose proof (ranked_requires rank entries a b Hrank Hr). lia.
Qed.

Lemma acyclic_ranked rank (entries : gmap string FModLoadingEntry) :
  ranked_check rank entries = true -> acyclic entries.
Proof.
  intros Hrank a Ha. pose proof (ranked_chain rank entries a a Hrank Ha). lia.
Qed.

End Checks.

(** * The scenarios *)

Section Scenarios.
Existing Instances dottedVersions dumpHost plainPlatform.

(** ** Mod ids of raw files *)

Example getModIdFromFile_dll :
  getModIdFromFile "mods/FactoryGame-Win64-Shipping.dll" = Returned "FactoryGame".
Proof. vm_compute. reflexivity. Qed.

Example getModIdFromFile_dll_no_dash :
  getModIdFromFile "mods/ExampleMod.dll" = Returned "ExampleMod".
Proof. vm_compute. reflexivity. Qed.

Example getModIdFromFile_pak_plain :
  getModIdFromFile "mods/ExampleMod.pak" = Returned "ExampleMod".
Proof. vm_compute. reflexivity. Qed.

(** C9, at the code. For the file name of the source's own comment,
    [FactoryGame_p.pak], the priority suffix stays: [find_last_of] looks
    for the last ['_'] or ['p'], which is the final ['p'], not for the
    text ["_p"]. A name ending in ['_'] or ['p'] followed by one more
    character loses both, and a one-letter name makes [erase] throw. *)
Theorem getModIdFromFile_keeps_priority_suffix :
  getModIdFromFile "mods/FactoryGame_p.pak" = Returned "FactoryGame_p"
  /\ getModIdFromFile "mods/Map_x.pak" = Returned "Map"
  /\ getModIdFromFile "mods/Mapx.pak" = Returned "Ma"
  /\ getModIdFromFile "mods/a.pak" = Thrown "out_of_range".
Proof. vm_compute. repeat split; reflexivity. Qed.

(** ** Moving the tagged entries *)

(** C2, at the code. With M1, M2 and the tagged M3 numbered 1, 2, 3 and
    sorted in this order, the pass collects the position of M3, which is
    2, and moves the index 2: M2 ends up last and M3 stays in front of
    it. With the tagged entry sorted first the collected position is 0,
    no index is removed and 0 is appended: the load list gains a
    value-initialised entry. *)
Theorem finalizeSortingResults_moves_positions :
  let modByIndex : gmap nat string := list_to_map [(1, "M1"); (2, "M2"); (3, "M3")]%nat in
  let entries := loadingEntries handlerM123 in
  has_key "@ORDER:LAST" (dependencies (modInfo (entry_at entries "M3"))) = true
  /\ finalizeSortingResults modByIndex entries [1; 2; 3]%nat = [1; 3; 2]%nat
  /\ ids_of (populateSortedModList modByIndex entries
               (finalizeSortingResults modByIndex entries [1; 2; 3]%nat) [])
     = ["M1"; "M3"; "M2"]
  /\ finalizeSortingResults modByIndex entries [3; 1; 2]%nat = [3; 1; 2; 0]%nat
  /\ map isValid (populateSortedModList modByIndex entries
                    (finalizeSortingResults modByIndex entries [3; 1; 2]%nat) [])
     = [true; true; true; false].
Proof. vm_compute. repeat split; reflexivity. Qed.

(** ** Registration *)

Lemma createLoadingEntry_duplicate_rejected_witness :
  loadingEntries handlerM12 !! modid M1 = Some (entry_at (loadingEntries handlerM12) "M1")
  /\ isValid (entry_at (loadingEntries handlerM12) "M1") = true
  /\ loadingProblems (fst (createLoadingEntry M1 "mods/M1-copy.smod" handlerM12))
     = ["Found duplicate mods with same mod ID M1: mods/M1-copy.smod and mods/M1.smod"].
Proof.
  assert (Hvalid : isValid (entry_at (loadingEntries handlerM12) "M1") = true)
    by (vm_compute; reflexivity).
  assert (Hfirst : loadingEntries handlerM12 !! modid M1
                   = Some (entry_at (loadingEntries handlerM12) "M1"))
    by (apply entry_at_valid_present; exact Hvalid).
  split; [exact Hfirst|]. split; [exact Hvalid|].
  destruct (createLoadingEntry_duplicate_rejected M1 "mods/M1-copy.smod" handlerM12
              (entry_at (loadingEntries handlerM12) "M1") Hfirst Hvalid)
    as (_ & _ & _ & _ & E & _).
  rewrite E. vm_compute. reflexivity.
Defined.

(** C4 as stated fails for raw files. [mods/Foo-Win64-Debug.dll] comes
    after [mods/Foo.dll] and [mods/Foo.pak] have registered the raw mod
    Foo: it is accepted, nothing is reported, and the module path of the
    first entry is overwritten. [mods/M1.pak] comes after the packaged
    mod M1: it is refused, but the one message names the raw file only,
    not the file of the first entry. *)
Lemma raw_file_under_taken_id_not_rejected :
  (getModIdFromFile secondModule = Returned "Foo"
   /\ isValid (entry_at (loadingEntries handlerFoo) "Foo") = true
   /\ dllFilePath (entry_at (loadingEntries handlerFoo) "Foo") = "mods/Foo.dll"
   /\ loadingProblems handlerFoo = []
   /\ (exists st', constructDllMod secondModule handlerFoo = Returned st')
   /\ loadingProblems (constructed (constructDllMod secondModule handlerFoo) handlerFoo) = []
   /\ dllFilePath (entry_at (loadingEntries
                               (constructed (constructDllMod secondModule handlerFoo)
                                  handlerFoo)) "Foo")
      = secondModule)
  /\ (getModIdFromFile "mods/M1.pak" = Returned "M1"
      /\ isValid (entry_at (loadingEntries handlerM12) "M1") = true
      /\ virtualModFilePath (entry_at (loadingEntries handlerM12) "M1") = "mods/M1.smod"
      /\ loadingProblems handlerM12 = []
      /\ loadingProblems (constructed (constructPakMod "mods/M1.pak" handlerM12) handlerM12)
         = ["Found raw mod file conflicting with packed mod: mods/M1.pak"]).
Proof.
  split.
  - assert (Hid : getModIdFromFile secondModule = Returned "Foo") by (vm_compute; reflexivity).
    split; [exact Hid|]. split; [vm_compute; reflexivity|].
    split; [vm_compute; reflexivity|]. split; [vm_compute; reflexivity|].
    split.
    { destruct (constructDllMod_development secondModule "Foo" handlerFoo
                  (eq_refl : @debugLogOutput dumpHost = true) Hid) as (noted & _ & _ & E).
      eexists. exact E. }
    split; vm_compute; reflexivity.
  - split; [vm_compute; reflexivity|]. split; [vm_compute; reflexivity|].
    split; [vm_compute; reflexivity|]. split; vm_compute; reflexivity.
Qed.

(** C8 as stated fails: the module and the pak of one raw mod, found
    under the same inferred id, end up in one raw entry holding both
    paths, and no problem is recorded. *)
Lemma raw_dll_and_pak_share_an_entry :
  getModIdFromFile "mods/Foo.dll" = Returned "Foo"
  /\ getModIdFromFile "mods/Foo.pak" = Returned "Foo"
  /\ loadingProblems handlerFoo = []
  /\ map fst (map_to_list (loadingEntries handlerFoo)) ≡ₚ ["SML"; "Foo"]
  /\ isValid (entry_at (loadingEntries handlerFoo) "Foo") = true
  /\ isRawMod (entry_at (loadingEntries handlerFoo) "Foo") = true
  /\ dllFilePath (entry_at (loadingEntries handlerFoo) "Foo") = "mods/Foo.dll"
  /\ pakFilePaths (entry_at (loadingEntries handlerFoo) "Foo") = ["mods/Foo.pak"].
Proof. vm_compute. repeat split; reflexivity. Qed.

Lemma raw_mod_pair_registration_witness :
  debugLogOutput = true
  /\ getModIdFromFile "mods/Foo.dll" = Returned "Foo"
  /\ getModIdFromFile "mods/Foo.pak" = Returned "Foo"
  /\ isValid (entry_at (loadingEntries freshHandler) "Foo") = false
  /\ (exists st1 st2,
        constructDllMod "mods/Foo.dll" freshHandler = Returned st1
        /\ constructPakMod "mods/Foo.pak" st1 = Returned st2
        /\ loadingEntries st2
           = <["Foo" := push_pakFilePath
                          (set_dllFilePath
                             (rawModEntry "Foo" "mods/Foo.dll"
                                (entry_at (loadingEntries freshHandler) "Foo"))
                             "mods/Foo.dll")
                          "mods/Foo.pak"]> (loadingEntries freshHandler)
        /\ loadingProblems st2 = loadingProblems freshHandler)
  /\ getModIdFromFile "mods/M1.dll" = Returned "M1"
  /\ getModIdFromFile "mods/M1.pak" = Returned "M1"
  /\ isValid (entry_at (loadingEntries handlerM12) "M1") = true
  /\ isRawMod (entry_at (loadingEntries handlerM12) "M1") = false
  /\ (exists st1 st2,
        constructDllMod "mods/M1.dll" handlerM12 = Returned st1
        /\ constructPakMod "mods/M1.pak" st1 = Returned st2
        /\ loadingEntries st2 = loadingEntries handlerM12
        /\ loadingProblems st2
           = (loadingProblems handlerM12
                ++ ["Found raw mod file conflicting with packed mod: mods/M1.dll";
                    "Found raw mod file conflicting with packed mod: mods/M1.pak"])%list).
Proof.
  assert (Hmode : @debugLogOutput dumpHost = true) by reflexivity.
  assert (Hdll : getModIdFromFile "mods/Foo.dll" = Returned "Foo") by (vm_compute; reflexivity).
  assert (Hpak : getModIdFromFile "mods/Foo.pak" = Returned "Foo") by (vm_compute; reflexivity).
  assert (Hnew : isValid (entry_at (loadingEntries freshHandler) "Foo") = false)
    by (vm_compute; reflexivity).
  assert (Hdll1 : getModIdFromFile "mods/M1.dll" = Returned "M1") by (vm_compute; reflexivity).
  assert (Hpak1 : getModIdFromFile "mods/M1.pak" = Returned "M1") by (vm_compute; reflexivity).
  assert (Hval : isValid (entry_at (loadingEntries handlerM12) "M1") = true)
    by (vm_compute; reflexivity).
  assert (Hpacked : isRawMod (entry_at (loadingEntries handlerM12) "M1") = false)
    by (vm_compute; reflexivity).
  split; [exact Hmode|]. split; [exact Hdll|]. split; [exact Hpak|]. split; [exact Hnew|].
  split.
  { destruct (raw_mod_pair_registration "Foo" freshHandler) as [_ Hpair].
    destruct (Hpair Hmode "mods/Foo.dll" "mods/Foo.pak" Hdll Hpak)
      as [(st1 & st2 & H1 & H2 & Hfresh & _) _].
    exists st1, st2. split; [exact H1|]. split; [exact H2|]. exact (Hfresh Hnew). }
  split; [exact Hdll1|]. split; [exact Hpak1|]. split; [exact Hval|]. split; [exact Hpacked|].
  destruct (raw_mod_pair_registration "M1" handlerM12) as [_ Hpair].
  destruct (Hpair Hmode "mods/M1.dll" "mods/M1.pak" Hdll1 Hpak1)
    as [(st1 & st2 & H1 & H2 & _ & _ & Hconflict) _].
  exists st1, st2. split; [exact H1|]. split; [exact H2|]. exact (Hconflict Hval Hpacked).
Defined.

(** ** The cache *)

Lemma identical_payloads_written_twice_witness :
  "pak" <> "config"
  /\ ex_root (extractionOf "Content/Mod.pak" ∅) !! "Content/Mod.pak" = Some (fresh_file payload)
  /\ ex_root (extractionOf "Paks/Other.pak" ∅) !! "Paks/Other.pak" = Some (fresh_file payload)
  /\ ex_disk (extractionOf "Content/Mod.pak" ∅) !! generateTempFilePath (hash256_hex payload)
     = None
  /\ hash256_hex [] <> hash256_hex payload
  /\ ex_disk (fst (extractArchiveObject "pak" "Content/Mod.pak"
                     (extractionOf "Content/Mod.pak" ∅)))
     = {[ "cache/010203" := [] ]}
  /\ path_exists {[ "cache/010203" := ([] : list Byte.byte) ]} "cache/010203" = true
  /\ hashFileContents {[ "cache/010203" := [] ]} "cache/010203" = ""
  /\ ex_disk (fst (extractArchiveObject "pak" "Paks/Other.pak"
                     (extractionOf "Paks/Other.pak" {[ "cache/010203" := [] ]})))
       !! "cache/010203"
     = Some []
  /\ pakFilePaths
       (ex_entry (fst (extractArchiveObject "pak" "Content/Mod.pak"
                         (fst (extractArchiveObject "pak" "Content/Mod.pak"
                                 (extractionOf "Content/Mod.pak" ∅))))))
     = ["cache/010203"; "cache/000000"].
Proof.
  pose proof (identical_payloads_written_twice "pak" "Content/Mod.pak" "Paks/Other.pak"
                (extractionOf "Content/Mod.pak" ∅)
                (ex_root (extractionOf "Paks/Other.pak" ∅)) FModLoadingEntry_default payload
                ltac:(discriminate) ltac:(vm_compute; reflexivity)
                ltac:(vm_compute; reflexivity) ltac:(vm_compute; reflexivity)
                ltac:(vm_compute; discriminate)) as Hthm.
  cbn zeta in Hthm.
  destruct Hthm as (_ & Hd1 & _ & _ & _ & Hstored & _ & _ & _ & _ & Htwice & _).
  split; [discriminate|]. split; [vm_compute; reflexivity|].
  split; [vm_compute; reflexivity|]. split; [vm_compute; reflexivity|].
  split; [vm_compute; discriminate|].
  split; [rewrite Hd1; vm_compute; reflexivity|].
  split; [vm_compute; reflexivity|]. split; [vm_compute; reflexivity|].
  split; [rewrite Hd1 in Hstored; exact Hstored|].
  rewrite (Htwice eq_refl). vm_compute. reflexivity.
Defined.

Lemma corrupt_cache_entry_rewritten_empty_witness :
  "pak" <> "config"
  /\ ex_root (extractionOf "Content/Mod.pak" corruptCache) !! "Content/Mod.pak"
     = Some (fresh_file payload)
  /\ ex_disk (extractionOf "Content/Mod.pak" corruptCache)
       !! generateTempFilePath (hash256_hex payload) = Some [Byte.xff]
  /\ hash256_hex [Byte.xff] <> hash256_hex payload
  /\ ex_disk (fst (extractArchiveObject "pak" "Content/Mod.pak"
                     (extractionOf "Content/Mod.pak" corruptCache)))
       !! "cache/010203" = Some [].
Proof.
  split; [discriminate|]. split; [vm_compute; reflexivity|].
  split; [vm_compute; reflexivity|]. split; [vm_compute; discriminate|].
  exact (corrupt_cache_entry_rewritten_empty "pak" "Content/Mod.pak"
           (extractionOf "Content/Mod.pak" corruptCache) payload [Byte.xff]
           ltac:(discriminate) ltac:(vm_compute; reflexivity) ltac:(vm_compute; reflexivity)
           ltac:(vm_compute; discriminate)).
Defined.

(** What the payload would have to be for the rewritten file to hash to
    its key again: the digest of the empty file is not the digest of the
    payload. *)
Example rewritten_file_does_not_hash_to_key :
  hashFileContents
    (ex_disk (fst (extractArchiveObject "pak" "Content/Mod.pak"
                     (extractionOf "Content/Mod.pak" corruptCache))))
    "cache/010203"
  <> hash256_hex payload.
Proof. vm_compute. discriminate. Qed.

(** ** Unmet dependencies *)

(** C7 as stated fails: P lists the optional dependency Q, which is not
    installed. Dependency checking completes, P is loaded, and nothing
    about Q is recorded or logged anywhere. *)
Lemma optional_failure_leaves_no_trace :
  let walk := walk_of (loadingEntries handlerP) ["SML"; "P"] in
  dependencyFails (loadingEntries handlerP) ("Q", ">=1.0.0") = true
  /\ ids_of (sortedModLoadList (checkDependencies walk handlerP)) = ["SML"; "P"]
  /\ loadingProblems (checkDependencies walk handlerP) = []
  /\ logged (checkDependencies walk handlerP) = []
  /\ shutdownRequests (checkDependencies walk handlerP) = [].
Proof. vm_compute. repeat split; reflexivity. Qed.

Lemma checkDependencies_reports_required_only_witness :
  let walk := walk_of (loadingEntries handlerXY) ["SML"; "X"; "Y"] in
  requiredFailures (loadingEntries handlerXY) walk <> []
  /\ loadingProblems (checkDependencies walk handlerXY)
     = ["Found missing dependencies:"; "X requires Y(>=2.0.0): unsupported version: 1.0.0"]
  /\ ids_of (sortedModLoadList (checkDependencies walk handlerXY)) = [].
Proof.
  cbn zeta. split; [vm_compute; discriminate|].
  destruct (proj2 checkDependencies_reports_required_only
              (walk_of (loadingEntries handlerXY) ["SML"; "X"; "Y"]) handlerXY
              ltac:(vm_compute; discriminate)) as (Ep & _ & Es & _).
  rewrite Ep, Es. split; vm_compute; reflexivity.
Defined.

(** ** The queries *)

Lemma loaded_mod_queries_consistent_witness :
  loadedMods handlerSorted = ∅
  /\ loadedModsModIDs handlerSorted = []
  /\ getLoadedMods (loadMods handlerSorted) = ["SML"; "M1"; "M2"]
  /\ (isModLoaded (loadMods handlerSorted) "M2" = true
      <-> In "M2" (getLoadedMods (loadMods handlerSorted))).
Proof.
  split; [reflexivity|]. split; [reflexivity|].
  destruct (loaded_mod_queries_consistent handlerSorted eq_refl eq_refl)
    as (Eids & Hloaded & _).
  split; [rewrite Eids; vm_compute; reflexivity|]. apply Hloaded.
Defined.

(** ** The scenario M1, M2, M3 *)

(** C3, at the code. M1 1.2.0, M2 requiring M1 >=1.0.0 and the raw mod M3
    are registered. Whatever order the entries are visited in, dependency
    checking does not succeed: the tag [@ORDER:LAST] that registration put
    among the dependencies of M3 is looked up like a mod id, found not
    installed, and reported as a missing dependency; no load order is
    produced. *)
Theorem scenario_M1_M2_M3_aborts (walk : list (string * FModLoadingEntry)) :
  enumerates walk (loadingEntries handlerM123) ->
  loadingProblems (checkDependencies walk handlerM123)
  = ["Found missing dependencies:"; "M3 requires @ORDER:LAST(1.0.0): not installed"]
  /\ sortedModLoadList (checkDependencies walk handlerM123) = [].
Proof.
  intros Henum.
  assert (Hfail : requiredFailures (loadingEntries handlerM123) walk
                  = ["M3 requires @ORDER:LAST(1.0.0): not installed"]).
  { apply Permutation_singleton_r. unfold requiredFailures.
    etransitivity; [apply Permutation_flat_map, Permutation_map; exact Henum|].
    vm_compute. reflexivity. }
  destruct (checkDependencies_missing_report walk handlerM123) as (Ep & _ & Es & _).
  { rewrite Hfail. discriminate. }
  rewrite Ep, Es, Hfail. split; [vm_compute; reflexivity|].
  apply length_zero_iff_nil. vm_compute. reflexivity.
Qed.

Lemma scenario_M1_M2_M3_aborts_witness :
  let walk := walk_of (loadingEntries handlerM123) ["SML"; "M1"; "M2"; "M3"] in
  enumerates walk (loadingEntries handlerM123)
  /\ FVersionRange_matches ">=1.0.0" (version (modInfo (entry_at (loadingEntries handlerM123) "M1")))
     = true
  /\ isRawMod (entry_at (loadingEntries handlerM123) "M3") = true
  /\ loadingProblems (checkDependencies walk handlerM123)
     = ["Found missing dependencies:"; "M3 requires @ORDER:LAST(1.0.0): not installed"]
  /\ sortedModLoadList (checkDependencies walk handlerM123) = [].
Proof.
  cbn zeta.
  assert (Henum : enumerates (walk_of (loadingEntries handlerM123) ["SML"; "M1"; "M2"; "M3"])
                    (loadingEntries handlerM123)).
  { apply enumerates_checked. vm_compute. reflexivity. }
  split; [exact Henum|]. split; [vm_compute; reflexivity|]. split; [vm_compute; reflexivity|].
  exact (scenario_M1_M2_M3_aborts _ Henum).
Defined.

(** Without the raw mod the same registration sorts as expected. *)
Example scenario_M1_M2_sorts :
  ids_of (sortedModLoadList
            (checkDependencies (walk_of (loadingEntries handlerM12) ["SML"; "M1"; "M2"])
               handlerM12))
  = ["SML"; "M1"; "M2"].
Proof. vm_compute. reflexivity. Qed.

(** ** Ties *)

Lemma requires_A_C : requires (loadingEntries handlerABC) "A" "C".
Proof.
  exists (entry_at (loadingEntries handlerABC) "A"), ("C", ">=1.0.0").
  split; [apply entry_at_valid_present; vm_compute; reflexivity|].
  split; [left; vm_compute; left|].
  split; vm_compute; reflexivity.
Qed.

Lemma checkDependencies_orders_dependencies_witness :
  let base := loadingEntries handlerABC in
  let walk := walk_of base registrationABC in
  enumerates walk base
  /\ well_keyed base /\ required_met base /\ untagged base /\ acyclic base
  /\ loadingProblems handlerABC = []
  /\ exists ids,
       sortedModLoadList (checkDependencies walk handlerABC)
       = (sortedModLoadList handlerABC ++ map (entry_at base) ids)%list
       /\ ids ≡ₚ map fst walk
       /\ before ids "C" "A".
Proof.
  cbn zeta.
  assert (Henum : enumerates (walk_of (loadingEntries handlerABC) registrationABC)
                    (loadingEntries handlerABC))
    by (apply enumerates_checked; vm_compute; reflexivity).
  assert (Hkeyed : well_keyed (loadingEntries handlerABC))
    by (apply well_keyed_checked; vm_compute; reflexivity).
  assert (Hmet : required_met (loadingEntries handlerABC))
    by (apply required_met_checked; vm_compute; reflexivity).
  assert (Huntagged : untagged (loadingEntries handlerABC))
    by (apply untagged_checked; vm_compute; reflexivity).
  assert (Hacyclic : acyclic (loadingEntries handlerABC))
    by (apply (acyclic_ranked rankABC); vm_compute; reflexivity).
  assert (Hproblems : loadingProblems handlerABC = []) by (vm_compute; reflexivity).
  repeat (split; [assumption|]).
  destruct (checkDependencies_orders_dependencies
              (walk_of (loadingEntries handlerABC) registrationABC) handlerABC
              Henum Hkeyed Hmet Huntagged Hacyclic Hproblems)
    as (ids & Hsorted & _ & _ & Hperm & _ & Hprec & _).
  exists ids. split; [exact Hsorted|]. split; [exact Hperm|].
  assert (Ha : "A" ∈ ids).
  { rewrite Hperm. unfold walk_of, registrationABC. cbn [map fst].
    right. left. }
  apply list_elem_of_lookup_1 in Ha as [i Hi].
  destruct (Hprec i "A" "C" Hi requires_A_C) as (j & Hj & Hc).
  exists j, i. repeat split; assumption.
Defined.

(** ** A cycle *)

(** 1 requires 2, 2 requires 3 and 3 requires 2: the sort fails and names
    2, which lies on the cycle; 1, the first node it could not place,
    does not. *)
Example topologicalSort_names_a_node_of_the_cycle :
  topologicalSort {| graph_nodes := [1; 2; 3]%nat;
                     graph_edges := [(1, 2); (2, 3); (3, 2)]%nat |}
  = cycle_detected 2.
Proof. reflexivity. Qed.

(** ** Visiting order and tagged entries *)

(** The same table visited in two orders gives two sequences: the
    result is a function of the visiting order, which an
    [std::unordered_map] does not promise to be the order of
    registration. *)
Remark visiting_order_decides_ties :
  let base := loadingEntries handlerABC in
  ids_of (sortedModLoadList
            (checkDependencies (walk_of base ["SML"; "A"; "B"; "C"]) handlerABC))
  = ["SML"; "B"; "C"; "A"]
  /\ ids_of (sortedModLoadList
               (checkDependencies (walk_of base ["C"; "B"; "A"; "SML"]) handlerABC))
     = ["C"; "B"; "A"; "SML"].
Proof. split; vm_compute; reflexivity. Qed.

(** Why tagged entries are set apart in
    [checkDependencies_orders_dependencies]: when a mod whose id is the
    text of the tag is installed, the tag of a raw mod is a met
    dependency, the check passes, and [finalizeSortingResults] moves the
    index equal to the raw mod's position, here that dependency, behind
    it. *)
Remark tagged_entry_overtakes_its_dependency :
  let base := loadingEntries handlerTagged in
  let walk := walk_of base visitTagged in
  enumerates walk base
  /\ well_keyed base /\ required_met base /\ acyclic base
  /\ requires base "Late" "@ORDER:LAST"
  /\ loadingProblems (checkDependencies walk handlerTagged) = []
  /\ ids_of (sortedModLoadList (checkDependencies walk handlerTagged))
     = ["SML"; "Late"; "@ORDER:LAST"].
Proof.
  cbn zeta.
  split; [apply enumerates_checked; vm_compute; reflexivity|].
  split; [apply well_keyed_checked; vm_compute; reflexivity|].
  split; [apply required_met_checked; vm_compute; reflexivity|].
  split; [apply (acyclic_ranked rankTagged); vm_compute; reflexivity|].
  split.
  { exists (entry_at (loadingEntries handlerTagged) "Late"), ("@ORDER:LAST", "1.0.0").
    split; [apply entry_at_valid_present; vm_compute; reflexivity|].
    split; [left; vm_compute; left|].
    split; vm_compute; reflexivity. }
  split; vm_compute; reflexivity.
Qed.

End Scenarios.

(** * Further properties of the code *)

Ltac split_all := repeat match goal with |- _ /\ _ => split end.

(** ** Strings and paths *)

Section StringFacts.

Lemma chars_app (a b : string) :
  WString.chars (a ++ b) = (WString.chars a ++ WString.chars b)%list.
Proof.
  unfold WString.chars. induction a as [|c a IH]; simpl; [reflexivity|].
  rewrite IH. reflexivity.
Qed.

Lemma of_chars_app (l1 l2 : list ascii) :
  string_of_list_ascii (l1 ++ l2)%list = string_of_list_ascii l1 ++ string_of_list_ascii l2.
Proof. induction l1 as [|c l1 IH]; simpl; [reflexivity|]. rewrite IH. reflexivity. Qed.

Lemma size_chars (s : string) : WString.size s = Z.of_nat (length (WString.chars s)).
Proof.
  unfold WString.size, WString.chars. f_equal.
  induction s as [|c s IH]; cbn; [reflexivity|]. rewrite IH. reflexivity.
Qed.

Lemma of_chars (s : string) : string_of_list_ascii (WString.chars s) = s.
Proof. apply string_of_list_ascii_of_string. Qed.

Lemma chars_of (l : list ascii) : WString.chars (string_of_list_ascii l) = l.
Proof. apply list_ascii_of_string_of_list_ascii. Qed.

Lemma last_from_none (p : ascii -> bool) (l : list ascii) (i : Z) :
  Forall (fun c => p c = false) l -> WString.last_from p l i = WString.npos.
Proof.
  intros Hl. revert i. induction Hl as [|c l Hc Hl IH]; intros i; cbn; [reflexivity|].
  rewrite IH, Z.eqb_refl, Hc. reflexivity.
Qed.

Lemma last_from_inv (p : ascii -> bool) (l : list ascii) (i : Z) :
  0 <= i -> i + Z.of_nat (length l) <= WString.npos ->
  (WString.last_from p l i = WString.npos /\ Forall (fun c => p c = false) l)
  \/ exists l1 c l2,
       l = (l1 ++ c :: l2)%list /\ p c = true /\ Forall (fun x => p x = false) l2
       /\ WString.last_from p l i = i + Z.of_nat (length l1).
Proof.
  revert i. induction l as [|c l IH]; intros i Hi Hbound.
  - left. split; [reflexivity|constructor].
  - cbn [WString.last_from]. cbn [length] in Hbound.
    destruct (IH (i + 1)) as [[Hnone Hall]|(l1 & c' & l2 & -> & Hc' & Hl2 & Hidx)]; [lia..| |].
    + rewrite Hnone, Z.eqb_refl. destruct (p c) eqn:Ec.
      * right. exists [], c, l. cbn. repeat split; try assumption. lia.
      * left. split; [reflexivity|]. constructor; assumption.
    + right. exists (c :: l1), c', l2. rewrite Hidx.
      rewrite length_app in Hbound. cbn [length] in Hbound |- *.
      destruct (Z.eqb_spec (i + 1 + Z.of_nat (length l1)) WString.npos) as [E|_]; [lia|].
      repeat split; try assumption. lia.
Qed.

Lemma first_from_inv (p : ascii -> bool) (l : list ascii) (i : Z) :
  0 <= i -> i + Z.of_nat (length l) <= WString.npos ->
  (WString.first_from p l i = WString.npos /\ Forall (fun c => p c = false) l)
  \/ exists l1 c l2,
       l = (l1 ++ c :: l2)%list /\ p c = true /\ Forall (fun x => p x = false) l1
       /\ WString.first_from p l i = i + Z.of_nat (length l1).
Proof.
  revert i. induction l as [|c l IH]; intros i Hi Hbound.
  - left. split; [reflexivity|constructor].
  - cbn [WString.first_from]. cbn [length] in Hbound.
    destruct (p c) eqn:Ec.
    + right. exists [], c, l. cbn. repeat split; try assumption; [constructor|lia].
    + destruct (IH (i + 1)) as [[Hnone Hall]|(l1 & c' & l2 & -> & Hc' & Hl1 & Hidx)]; [lia..| |].
      * left. split; [assumption|]. constructor; assumption.
      * right. exists (c :: l1), c', l2. rewrite Hidx. cbn [length].
        repeat split; try assumption; [constructor; assumption|lia].
Qed.

(** The file name is a suffix of the path. *)
Lemma filename_size (p : string) : WString.size (Path.filename p) <= WString.size p.
Proof.
  unfold Path.filename. destruct (_ =? _); [lia|].
  rewrite !size_chars, chars_of, length_skipn. lia.
Qed.

Lemma npos_value : WString.npos = 18446744073709551615.
Proof. reflexivity. Qed.

(** A file name without a dot has no stem to cut; one with a dot is its
    stem followed by the part from the last dot on. *)
Lemma erase_extension (f : string) :
  WString.size f < WString.npos ->
  (Forall (fun c => Ascii.eqb "." c = false) (WString.chars f)
   /\ WString.erase f (WString.find_last_of_char f ".") = Thrown "out_of_range")
  \/ exists stem ext,
       f = stem ++ String "." ext
       /\ Forall (fun c => Ascii.eqb "." c = false) (WString.chars ext)
       /\ WString.find_last_of_char f "." = WString.size stem
       /\ WString.erase f (WString.find_last_of_char f ".") = Returned stem.
Proof.
  intros Hbound. unfold WString.find_last_of_char, WString.erase.
  rewrite size_chars in Hbound.
  destruct (last_from_inv (Ascii.eqb ".") (WString.chars f) 0)
    as [[Hnone Hall]|(l1 & c & l2 & Hf & Hc & Hl2 & Hidx)]; [lia..| |].
  - left. split; [assumption|]. rewrite Hnone.
    rewrite size_chars. destruct (Z.ltb_spec (Z.of_nat (length (WString.chars f))) WString.npos); [reflexivity|lia].
  - right. exists (string_of_list_ascii l1), (string_of_list_ascii l2).
    apply Ascii.eqb_eq in Hc. subst c.
    assert (Ef : f = string_of_list_ascii l1 ++ String "." (string_of_list_ascii l2)).
    { rewrite <- (of_chars f), Hf, of_chars_app. reflexivity. }
    split; [exact Ef|]. rewrite chars_of. split; [assumption|].
    rewrite Hidx, !size_chars, chars_of, Hf, length_app. cbn [length].
    split; [lia|].
    destruct (Z.ltb_spec (Z.of_nat (length l1 + S (length l2))) (0 + Z.of_nat (length l1))); [lia|].
    f_equal. f_equal. rewrite Z.add_0_l, Nat2Z.id. rewrite take_app_length. reflexivity.
Qed.


Lemma last_from_app_none (p : ascii -> bool) (l l2 : list ascii) (i : Z) :
  Forall (fun c => p c = false) l2 ->
  WString.last_from p (l ++ l2)%list i = WString.last_from p l i.
Proof.
  intros Hl2. revert i. induction l as [|c l IH]; intros i.
  - cbn [app]. rewrite last_from_none by assumption. reflexivity.
  - cbn [app WString.last_from]. rewrite IH. reflexivity.
Qed.

Lemma last_from_at (p : ascii -> bool) (l1 : list ascii) (c : ascii) (l2 : list ascii) (i : Z) :
  0 <= i -> i + Z.of_nat (length l1) < WString.npos ->
  p c = true -> Forall (fun x => p x = false) l2 ->
  WString.last_from p (l1 ++ c :: l2)%list i = i + Z.of_nat (length l1).
Proof.
  intros Hi Hbound Hc Hl2. revert i Hi Hbound.
  induction l1 as [|a l1 IH]; intros i Hi Hbound.
  - cbn [app WString.last_from length]. rewrite last_from_none by assumption.
    rewrite Z.eqb_refl, Hc. lia.
  - cbn [app WString.last_from]. cbn [length] in Hbound |- *.
    rewrite IH by lia.
    destruct (Z.eqb_spec (i + 1 + Z.of_nat (length l1)) WString.npos); lia.
Qed.

Lemma size_app (a b : string) : WString.size (a ++ b) = WString.size a + WString.size b.
Proof. rewrite !size_chars, chars_app, length_app. lia. Qed.

Lemma size_nonneg (s : string) : 0 <= WString.size s.
Proof. unfold WString.size. lia. Qed.

(** A file name [stem.ext], where [ext] has no dot: the last dot is the
    one after [stem], erasing from it leaves [stem], and the extension is
    the rest. *)
Lemma split_at_last_dot (p stem ext : string) :
  WString.size p < WString.npos ->
  Path.filename p = stem ++ String "." ext ->
  Forall (fun c => c <> "."%char) (WString.chars ext) ->
  WString.erase (Path.filename p) (WString.find_last_of_char (Path.filename p) ".")
  = Returned stem
  /\ Path.extension p = String "." ext.
Proof.
  intros Hbound Hf Hext.
  pose proof (filename_size p) as Hsize. rewrite Hf in Hsize.
  rewrite size_app in Hsize. pose proof (size_nonneg (String "." ext)) as Hpos.
  assert (Hidx : WString.find_last_of_char (stem ++ String "." ext) "."
                 = WString.size stem).
  { unfold WString.find_last_of_char. rewrite chars_app.
    change (WString.chars (String "." ext)) with ("."%char :: WString.chars ext).
    rewrite last_from_at.
    - rewrite size_chars. lia.
    - lia.
    - rewrite <- size_chars. change (WString.size (String "." ext)) with
        (Z.of_nat (S (String.length ext))) in Hsize. lia.
    - reflexivity.
    - eapply Forall_impl; [exact Hext|]. intros c Hc. cbn beta.
      destruct (Ascii.eqb_spec "." c); [congruence|reflexivity]. }
  unfold Path.extension. rewrite Hf, Hidx.
  assert (Hn : (WString.size stem =? WString.npos) = false) by (apply Z.eqb_neq; lia).
  rewrite Hn. unfold WString.erase.
  rewrite size_app.
  destruct (Z.ltb_spec (WString.size stem + WString.size (String "." ext)) (WString.size stem)); [lia|].
  rewrite chars_app. rewrite size_chars, Nat2Z.id.
  rewrite take_app_length, drop_app_length, !of_chars.
  split; reflexivity.
Qed.

(** A file name without any dot: there is nothing to erase from. *)
Lemma no_dot_throws (p : string) :
  WString.size p < WString.npos ->
  Forall (fun c => c <> "."%char) (WString.chars (Path.filename p)) ->
  getModIdFromFile p = Thrown "out_of_range".
Proof.
  intros Hbound Hall. pose proof (filename_size p) as Hsize.
  unfold getModIdFromFile, WString.find_last_of_char.
  rewrite last_from_none.
  - unfold WString.erase.
    destruct (Z.ltb_spec (WString.size (Path.filename p)) WString.npos); [reflexivity|lia].
  - eapply Forall_impl; [exact Hall|]. intros c Hc. cbn beta.
    destruct (Ascii.eqb_spec "." c); [congruence|reflexivity].
Qed.

End StringFacts.

Section ModIdFacts.

(** X1. [getModIdFromFile] on a file name without a dot, and on one whose
    extension is neither [.dll] nor [.pak]. *)
Theorem getModIdFromFile_needs_a_dot (p : string) :
  WString.size p < WString.npos ->
  (Forall (fun c => c <> "."%char) (WString.chars (Path.filename p)) ->
   getModIdFromFile p = Thrown "out_of_range")
  /\ (forall stem ext,
        Path.filename p = stem ++ String "." ext ->
        Forall (fun c => c <> "."%char) (WString.chars ext) ->
        ext <> "dll" -> ext <> "pak" ->
        getModIdFromFile p = Returned stem).
Proof.
  intros Hbound. split; [apply no_dot_throws; assumption|].
  intros stem ext Hf Hext Hdll Hpak.
  destruct (split_at_last_dot p stem ext Hbound Hf Hext) as [Herase Hextension].
  unfold getModIdFromFile. rewrite Herase, Hextension.
  assert (E1 : String.eqb (String "." ext) ".dll" = false).
  { apply String.eqb_neq. intros [= E]. contradiction. }
  assert (E2 : String.eqb (String "." ext) ".pak" = false).
  { apply String.eqb_neq. intros [= E]. contradiction. }
  rewrite E1, E2. reflexivity.
Qed.

Lemma stem_bound (p stem ext : string) :
  WString.size p < WString.npos ->
  Path.filename p = stem ++ ext ->
  WString.size stem < WString.npos.
Proof.
  intros Hbound Hf. pose proof (filename_size p) as Hsize.
  rewrite Hf, size_app in Hsize. pose proof (size_nonneg ext). lia.
Qed.

Lemma dll_has_no_dot : Forall (fun c => c <> "."%char) (WString.chars "dll").
Proof. repeat constructor; discriminate. Qed.

Lemma pak_has_no_dot : Forall (fun c => c <> "."%char) (WString.chars "pak").
Proof. repeat constructor; discriminate. Qed.

(** X2. The mod id of a [.dll]: the part of the stem before its first
    ['-'], the whole stem when it has none. *)
Theorem getModIdFromFile_dll_first_piece (p stem : string) :
  WString.size p < WString.npos ->
  Path.filename p = stem ++ ".dll" ->
  exists id,
    getModIdFromFile p = Returned id
    /\ Forall (fun c => c <> "-"%char) (WString.chars id)
    /\ (stem = id \/ exists rest, stem = id ++ String "-" rest).
Proof.
  intros Hbound Hf.
  destruct (split_at_last_dot p stem "dll" Hbound Hf dll_has_no_dot) as [Herase Hextension].
  pose proof (stem_bound p stem ".dll" Hbound Hf) as Hstem.
  unfold getModIdFromFile. rewrite Herase, Hextension.
  cbn [String.eqb Ascii.eqb Bool.eqb].
  unfold WString.substr0, WString.find.
  rewrite size_chars in Hstem |- *.
  destruct (first_from_inv (Ascii.eqb "-") (WString.chars stem) 0)
    as [[Hnone Hall]|(l1 & c & l2 & Hl & Hc & Hl1 & Hidx)]; [lia..| |].
  - rewrite Hnone. exists stem.
    rewrite Z.min_r by lia. rewrite Nat2Z.id, firstn_all, of_chars.
    split; [reflexivity|]. split; [|left; reflexivity].
    eapply Forall_impl; [exact Hall|]. intros c Hc Heq. subst c. discriminate.
  - rewrite Hidx, Hl. exists (string_of_list_ascii l1).
    rewrite length_app. cbn [length].
    rewrite Z.min_l by lia. rewrite Z.add_0_l, Nat2Z.id, take_app_length, chars_of.
    split; [reflexivity|]. split.
    + eapply Forall_impl; [exact Hl1|]. intros a Ha Heq. subst a. discriminate.
    + right. exists (string_of_list_ascii l2).
      apply Ascii.eqb_eq in Hc. subst c.
      rewrite <- (of_chars stem), Hl, of_chars_app. reflexivity.
Qed.

End ModIdFacts.

Section PakFacts.

(** The characters [find_last_of(TEXT("_p"))] looks for. *)
Lemma marker_chars (c : ascii) :
  existsb (Ascii.eqb c) (WString.chars "_p") = true <-> c = "_"%char \/ c = "p"%char.
Proof.
  cbn [WString.chars list_ascii_of_string existsb]. rewrite !orb_true_iff, !Ascii.eqb_eq.
  intuition discriminate.
Qed.

Lemma not_marker_chars (c : ascii) :
  existsb (Ascii.eqb c) (WString.chars "_p") = false <-> c <> "_"%char /\ c <> "p"%char.
Proof.
  rewrite <- not_true_iff_false, marker_chars. tauto.
Qed.

Lemma size_sub_2 (n : Z) : 2 <= n < WString.npos -> WString.size_sub n 2 = n - 2.
Proof.
  intros Hn. unfold WString.size_sub. apply Z.mod_small.
  rewrite npos_value in Hn. unfold WString.size_max. lia.
Qed.

(** The [.pak] branch, on the stem. *)
Lemma pak_branch (p stem : string) :
  WString.size p < WString.npos ->
  Path.filename p = stem ++ ".pak" ->
  getModIdFromFile p
  = if WString.find_last_of stem "_p" =? WString.size_sub (WString.size stem) 2
    then WString.erase stem (WString.find_last_of stem "_p")
    else Returned stem.
Proof.
  intros Hbound Hf.
  destruct (split_at_last_dot p stem "pak" Hbound Hf pak_has_no_dot) as [Herase Hextension].
  unfold getModIdFromFile. rewrite Herase, Hextension. reflexivity.
Qed.

(** X3. The mod id of a [.pak], by the last two characters of the stem. *)
Theorem getModIdFromFile_pak_suffix (p stem : string) :
  WString.size p < WString.npos ->
  Path.filename p = stem ++ ".pak" ->
  (forall pre a b,
     stem = pre ++ String a (String b "") ->
     (a = "_"%char \/ a = "p"%char) -> b <> "_"%char -> b <> "p"%char ->
     getModIdFromFile p = Returned pre)
  /\ (forall pre b,
        stem = pre ++ String b "" -> (b = "_"%char \/ b = "p"%char) ->
        getModIdFromFile p = Returned stem)
  /\ (forall pre a b,
        stem = pre ++ String a (String b "") ->
        a <> "_"%char -> a <> "p"%char -> b <> "_"%char -> b <> "p"%char ->
        getModIdFromFile p = Returned stem)
  /\ (forall b,
        stem = String b "" -> b <> "_"%char -> b <> "p"%char ->
        getModIdFromFile p = Thrown "out_of_range")
  /\ (stem = "" -> getModIdFromFile p = Returned "").
Proof.
  intros Hbound Hf.
  pose proof (stem_bound p stem ".pak" Hbound Hf) as Hstem.
  rewrite (pak_branch p stem Hbound Hf). unfold WString.find_last_of.
  split; [|split; [|split; [|split]]].
  - intros pre a b -> Ha Hb1 Hb2.
    rewrite size_app in Hstem |- *. pose proof (size_nonneg pre) as Hpre.
    change (WString.size (String a (String b ""))) with 2 in *.
    rewrite chars_app. change (WString.chars (String a (String b ""))) with [a; b].
    rewrite last_from_at;
      [|lia|rewrite <- size_chars; lia|apply marker_chars; assumption
       |repeat constructor; apply not_marker_chars; split; assumption].
    rewrite size_sub_2 by lia. rewrite <- size_chars.
    replace (0 + WString.size pre) with (WString.size pre + 2 - 2) by lia.
    rewrite Z.eqb_refl. unfold WString.erase.
    rewrite size_app. change (WString.size (String a (String b ""))) with 2.
    destruct (Z.ltb_spec (WString.size pre + 2) (WString.size pre + 2 - 2)); [lia|].
    rewrite chars_app, size_chars.
    replace (Z.to_nat (Z.of_nat (length (WString.chars pre)) + 2 - 2))
      with (length (WString.chars pre)) by lia.
    rewrite take_app_length, of_chars. reflexivity.
  - intros pre b -> Hb.
    rewrite size_app in Hstem |- *. pose proof (size_nonneg pre) as Hpre.
    change (WString.size (String b "")) with 1 in *.
    rewrite chars_app. change (WString.chars (String b "")) with [b].
    rewrite last_from_at;
      [|lia|rewrite <- size_chars; lia|apply marker_chars; assumption|constructor].
    rewrite <- size_chars.
    destruct (Z.eqb_spec (0 + WString.size pre) (WString.size_sub (WString.size pre + 1) 2))
      as [E|_]; [|reflexivity].
    exfalso. destruct (Z.eq_dec (WString.size pre) 0) as [E0|E0].
    + rewrite E0 in E. vm_compute in E. discriminate.
    + rewrite size_sub_2 in E by lia. lia.
  - intros pre a b -> Ha1 Ha2 Hb1 Hb2.
    rewrite size_app in Hstem |- *. pose proof (size_nonneg pre) as Hpre.
    change (WString.size (String a (String b ""))) with 2 in *.
    rewrite chars_app. change (WString.chars (String a (String b ""))) with [a; b].
    rewrite last_from_app_none
      by (repeat constructor; apply not_marker_chars; split; assumption).
    rewrite size_sub_2 by lia.
    rewrite size_chars in Hstem, Hpre |- *.
    destruct (last_from_inv (fun c => existsb (Ascii.eqb c) (WString.chars "_p"))
                (WString.chars pre) 0)
      as [[Hnone _]|(l1 & c & l2 & Hl & _ & _ & Hidx)]; [lia..| |].
    + rewrite Hnone.
      destruct (Z.eqb_spec WString.npos (Z.of_nat (length (WString.chars pre)) + 2 - 2));
        [lia|reflexivity].
    + rewrite Hidx, Hl, length_app. cbn [length].
      destruct (Z.eqb_spec (0 + Z.of_nat (length l1))
                  (Z.of_nat (length l1 + S (length l2)) + 2 - 2)); [lia|reflexivity].
  - intros b -> Hb1 Hb2.
    change (WString.chars (String b "")) with [b].
    cbn [WString.last_from]. rewrite Z.eqb_refl.
    assert (E : existsb (Ascii.eqb b) (WString.chars "_p") = false)
      by (apply not_marker_chars; split; assumption).
    rewrite E. reflexivity.
  - intros ->. reflexivity.
Qed.

Lemma getModIdFromFile_pak_one_letter (p : string) (b : ascii) :
  WString.size p < WString.npos ->
  Path.filename p = String b ".pak" -> b <> "_"%char -> b <> "p"%char ->
  getModIdFromFile p = Thrown "out_of_range".
Proof.
  intros Hbound Hf Hb1 Hb2.
  rewrite (pak_branch p (String b "") Hbound Hf). unfold WString.find_last_of.
  change (WString.chars (String b "")) with [b].
  cbn [WString.last_from]. rewrite Z.eqb_refl.
  assert (E : existsb (Ascii.eqb b) (WString.chars "_p") = false)
    by (apply not_marker_chars; split; assumption).
  rewrite E. reflexivity.
Qed.

End PakFacts.

(** ** More on extraction *)

Section MoreExtractionFacts.
Context `{Versions} `{Host}.

Lemma extractArchiveFile_spec (outFilePath : string) (obj : File) (d : Disk) :
  extractArchiveFile outFilePath obj d
  = (<[outFilePath := drop (getpos obj) (contents obj)]> d,
     {| contents := contents obj;
        getpos := (getpos obj + (File_size obj - getpos obj))%nat |}).
Proof.
  unfold extractArchiveFile. rewrite extract_loop_spec by lia. reflexivity.
Qed.

(** X4. [extractArchiveFile] copies what the object still has to give,
    however many 4096-byte rounds that takes, into a file that holds
    nothing else, and leaves the object read to its end. *)
Theorem extractArchiveFile_copies_the_rest (outFilePath : string) (obj : File) (d : Disk) :
  fst (extractArchiveFile outFilePath obj d)
  = <[outFilePath := drop (getpos obj) (contents obj)]> d
  /\ contents (snd (extractArchiveFile outFilePath obj d)) = contents obj
  /\ getpos (snd (extractArchiveFile outFilePath obj d))
     = (getpos obj `max` File_size obj)%nat
  /\ (forall other, other <> outFilePath ->
        fst (extractArchiveFile outFilePath obj d) !! other = d !! other).
Proof.
  rewrite extractArchiveFile_spec. cbn [fst snd contents getpos].
  split; [reflexivity|]. split; [reflexivity|]. split; [lia|].
  intros other Hne. apply lookup_insert_ne. congruence.
Qed.

(** What [hashArchiveFileContents] hashes: the bytes from the read
    position on, followed by as many zero bytes as were read before. *)
Lemma hashArchiveFileContents_spec (obj : File) :
  hashArchiveFileContents obj
  = (hash256_hex (drop (getpos obj) (contents obj)
                    ++ replicate (getpos obj `min` File_size obj)%nat Byte.x00)%list,
     {| contents := contents obj;
        getpos := (getpos obj + (File_size obj - getpos obj))%nat |}).
Proof.
  unfold hashArchiveFileContents, File_read, File_size.
  rewrite take_ge by (rewrite length_drop; lia).
  rewrite length_drop. repeat f_equal. lia.
Qed.

(** Hashing an object a second time does not see its bytes again: the
    digest is that of a zero-filled buffer of the object's size. *)
Lemma hashArchiveFileContents_twice (bs : list Byte.byte) :
  let first := hashArchiveFileContents (fresh_file bs) in
  let second := hashArchiveFileContents (snd first) in
  fst first = hash256_hex bs
  /\ fst second = hash256_hex (replicate (length bs) Byte.x00)
  /\ snd second = snd first.
Proof.
  cbn zeta. rewrite (hashArchiveFileContents_spec (fresh_file bs)).
  cbn [fst snd]. rewrite hashArchiveFileContents_spec.
  unfold fresh_file, File_size. cbn [contents getpos fst snd].
  rewrite drop_0, Nat.min_0_l, Nat.sub_0_r, Nat.add_0_l. cbn [replicate].
  rewrite app_nil_r, drop_all, Nat.sub_diag, Nat.add_0_r, Nat.min_id.
  cbn [app]. repeat split; reflexivity.
Qed.



Lemma join_not_empty (dir name : string) : Path.join dir name <> "".
Proof.
  unfold Path.join. intros E. apply (f_equal WString.size) in E.
  rewrite !size_app in E. pose proof (size_nonneg dir). pose proof (size_nonneg name).
  change (WString.size "/") with 1 in E. change (WString.size "") with 0 in E. lia.
Qed.

(** One call of [extractArchiveObject] on an object the archive has. *)
Lemma extractArchiveObject_step (objectType archivePath : string) (x : Extraction)
  (obj : File) :
  ex_root x !! archivePath = Some obj ->
  let r := extractArchiveObject objectType archivePath x in
  let read := {| contents := contents obj;
                 getpos := (getpos obj + (File_size obj - getpos obj))%nat |} in
  let cfg := getModConfigFilePath (modid (modInfo (ex_entry x))) in
  let cached :=
    if negb (path_exists (ex_disk x) (cacheFileOf obj))
       || negb (String.eqb (fst (hashArchiveFileContents obj))
                  (hashFileContents (ex_disk x) (cacheFileOf obj)))
    then <[cacheFileOf obj := []]> (delete (cacheFileOf obj) (ex_disk x))
    else ex_disk x in
  (objectType = "config" ->
     snd r = Returned tt /\ ex_entry (fst r) = ex_entry x
     /\ (path_exists (ex_disk x) cfg = true -> fst r = x)
     /\ (path_exists (ex_disk x) cfg = false ->
           ex_disk (fst r) = <[cfg := drop (getpos obj) (contents obj)]> (ex_disk x)
           /\ ex_root (fst r) = <[archivePath := read]> (ex_root x)))
  /\ (objectType <> "config" ->
        ex_disk (fst r) = cached
        /\ ex_root (fst r) = <[archivePath := read]> (ex_root x)
        /\ (objectType = "pak" ->
              snd r = Returned tt
              /\ ex_entry (fst r) = push_pakFilePath (ex_entry x) (cacheFileOf obj))
        /\ (objectType = "sml_mod" -> dllFilePath (ex_entry x) = "" ->
              snd r = Returned tt
              /\ ex_entry (fst r) = set_dllFilePath (ex_entry x) (cacheFileOf obj))
        /\ (objectType = "sml_mod" -> dllFilePath (ex_entry x) <> "" ->
              snd r = Thrown "mod can only have one DLL module at a time"
              /\ ex_entry (fst r) = ex_entry x)
        /\ (objectType = "core_mod" ->
              snd r = Thrown "core mods are not supported by this version of SML"
              /\ ex_entry (fst r) = ex_entry x)
        /\ (objectType <> "pak" -> objectType <> "sml_mod" -> objectType <> "core_mod" ->
              snd r = Thrown "Unknown archive object type encountered"
              /\ ex_entry (fst r) = ex_entry x)).
Proof.
  intros Hfile. cbn zeta. unfold extractArchiveObject, cacheFileOf. rewrite Hfile.
  split.
  - intros ->. cbn [String.eqb Ascii.eqb Bool.eqb].
    destruct (path_exists (ex_disk x) _) eqn:E.
    + cbn [fst snd]. repeat (split || intro); try reflexivity; discriminate.
    + rewrite extractArchiveFile_spec. cbn [fst snd ex_entry ex_disk ex_root].
      repeat (split || intro); try reflexivity; discriminate.
  - intros Hcfg. apply String.eqb_neq in Hcfg. rewrite Hcfg.
    rewrite hashArchiveFileContents_spec. cbn [fst snd].
    set (h := hash256_hex _). set (fp := generateTempFilePath h).
    set (read := {| contents := contents obj;
                    getpos := (getpos obj + (File_size obj - getpos obj))%nat |}).
    assert (Hx : extractArchiveFile fp read (delete fp (ex_disk x))
                 = (<[fp := []]> (delete fp (ex_disk x)), read)).
    { rewrite extractArchiveFile_spec. subst read. unfold File_size. cbn [contents getpos].
      assert (Hge : (length (contents obj)
                     <= getpos obj + (length (contents obj) - getpos obj))%nat) by lia.
      rewrite (drop_ge _ _ Hge). do 2 f_equal. lia. }
    destruct (negb (path_exists (ex_disk x) fp)
              || negb (String.eqb h (hashFileContents (ex_disk x) fp)));
      [rewrite Hx|]; clear Hx.
    all: destruct (String.eqb objectType "pak") eqn:Epak;
         [apply String.eqb_eq in Epak; subst objectType;
          cbn [fst snd ex_entry ex_disk ex_root];
          repeat (split || intro); try reflexivity; try discriminate; try congruence|].
    all: destruct (String.eqb objectType "sml_mod") eqn:Edll;
         [apply String.eqb_eq in Edll; subst objectType;
          destruct (String.eqb_spec (dllFilePath (ex_entry x)) "") as [Hd|Hd];
          cbn [negb fst snd ex_entry ex_disk ex_root];
          repeat (split || intro); try reflexivity; try discriminate; try congruence|].
    all: destruct (String.eqb objectType "core_mod") eqn:Ecore;
         [apply String.eqb_eq in Ecore; subst objectType;
          cbn [fst snd ex_entry ex_disk ex_root];
          repeat (split || intro); try reflexivity; try discriminate; try congruence|].
    all: apply String.eqb_neq in Epak, Edll, Ecore;
         cbn [fst snd ex_entry ex_disk ex_root];
         repeat (split || intro); try reflexivity; try discriminate; try congruence.
Qed.


Lemma extractArchiveObject_missing (objectType archivePath : string) (x : Extraction) :
  ex_root x !! archivePath = None ->
  extractArchiveObject objectType archivePath x
  = (x, Thrown "object specified in data.json is missing in zip").
Proof. intros Hfile. unfold extractArchiveObject. rewrite Hfile. reflexivity. Qed.



Lemma extraction_frame_refl (x : Extraction) : extraction_frame x x.
Proof.
  unfold extraction_frame. split_all; try reflexivity.
  exists []. symmetry. apply app_nil_r.
Qed.

Lemma extraction_frame_trans (x1 x2 x3 : Extraction) :
  extraction_frame x1 x2 -> extraction_frame x2 x3 -> extraction_frame x1 x3.
Proof.
  intros (A1 & A2 & A3 & A4 & (a & A5) & A6 & A7 & A8)
         (B1 & B2 & B3 & B4 & (b & B5) & B6 & B7 & B8).
  unfold extraction_frame. split_all.
  - congruence.
  - congruence.
  - congruence.
  - congruence.
  - exists (a ++ b)%list. rewrite B5, A5, app_assoc. reflexivity.
  - intros Hd. rewrite B6; [apply A6; assumption|]. rewrite A6; assumption.
  - intros p. rewrite B7. apply A7.
  - intros p Hcfg Hcache. rewrite B8, A8; try assumption; [reflexivity|].
    rewrite A1. exact Hcfg.
Qed.

Lemma is_Some_insert_present {V} (m : gmap string V) (key p : string) (v : V) :
  is_Some (m !! key) -> (is_Some (<[key := v]> m !! p) <-> is_Some (m !! p)).
Proof.
  intros Hkey. destruct (decide (key = p)) as [<-|Hne].
  - rewrite lookup_insert_eq. split; [intros _; exact Hkey|intros _; eexists; reflexivity].
  - rewrite lookup_insert_ne by assumption. reflexivity.
Qed.

Lemma extractArchiveObject_frame (objectType archivePath : string) (x : Extraction) :
  extraction_frame x (fst (extractArchiveObject objectType archivePath x)).
Proof.
  destruct (ex_root x !! archivePath) as [obj|] eqn:Hfile;
    [|rewrite extractArchiveObject_missing by assumption; apply extraction_frame_refl].
  destruct (extractArchiveObject_step objectType archivePath x obj Hfile) as [Hconfig Hother].
  cbn zeta in Hconfig, Hother.
  assert (Hsome : is_Some (ex_root x !! archivePath)) by (rewrite Hfile; eexists; reflexivity).
  destruct (String.eqb_spec objectType "config") as [Hc|Hc].
  - destruct (Hconfig Hc) as (_ & Hentry & Hexists & Hnew).
    destruct (path_exists (ex_disk x) (getModConfigFilePath (modid (modInfo (ex_entry x)))))
      eqn:E.
    + rewrite (Hexists eq_refl). apply extraction_frame_refl.
    + destruct (Hnew eq_refl) as [Hdisk Hroot].
      unfold extraction_frame. rewrite Hentry. split_all; try reflexivity.
      * exists []. symmetry. apply app_nil_r.
      * intros p. rewrite Hroot. apply is_Some_insert_present. exact Hsome.
      * intros p Hcfg _. rewrite Hdisk. apply lookup_insert_ne. congruence.
  - destruct (Hother Hc) as (Hdisk & Hroot & Hpak & Hdll & Hdll2 & Hcore & Hunknown).
    assert (Hentry :
      ex_entry (fst (extractArchiveObject objectType archivePath x)) = ex_entry x
      \/ ex_entry (fst (extractArchiveObject objectType archivePath x))
         = push_pakFilePath (ex_entry x) (cacheFileOf obj)
      \/ (dllFilePath (ex_entry x) = ""
          /\ ex_entry (fst (extractArchiveObject objectType archivePath x))
             = set_dllFilePath (ex_entry x) (cacheFileOf obj))).
    { destruct (String.eqb_spec objectType "pak") as [E1|E1];
        [right; left; apply Hpak; exact E1|].
      destruct (String.eqb_spec objectType "sml_mod") as [E2|E2].
      - destruct (String.eqb_spec (dllFilePath (ex_entry x)) "") as [E3|E3].
        + right; right. split; [exact E3|]. apply Hdll; assumption.
        + left. apply Hdll2; assumption.
      - destruct (String.eqb_spec objectType "core_mod") as [E3|E3].
        + left. apply Hcore; assumption.
        + left. apply Hunknown; assumption. }
    assert (Hframe_disk :
      forall p, p <> getModConfigFilePath (modid (modInfo (ex_entry x))) ->
                (forall fileHash, p <> generateTempFilePath fileHash) ->
                ex_disk (fst (extractArchiveObject objectType archivePath x)) !! p
                = ex_disk x !! p).
    { intros p _ Hcache. rewrite Hdisk.
      destruct (negb _ || negb _); [|reflexivity].
      specialize (Hcache (fst (hashArchiveFileContents obj))). fold (cacheFileOf obj) in Hcache.
      rewrite lookup_insert_ne, lookup_delete_ne by congruence. reflexivity. }
    assert (Hframe_root :
      forall p, is_Some (ex_root (fst (extractArchiveObject objectType archivePath x)) !! p)
                <-> is_Some (ex_root x !! p)).
    { intros p. rewrite Hroot. apply is_Some_insert_present. exact Hsome. }
    unfold extraction_frame.
    destruct Hentry as [Hentry|[Hentry|[Hempty Hentry]]]; rewrite Hentry.
    + split_all; try reflexivity; try exact Hframe_root; try exact Hframe_disk.
      exists []. symmetry. apply app_nil_r.
    + split_all; try reflexivity; try exact Hframe_root; try exact Hframe_disk.
      eexists. reflexivity.
    + split_all; try reflexivity; try exact Hframe_root; try exact Hframe_disk.
      * exists []. symmetry. apply app_nil_r.
      * intros Hd. contradiction.
Qed.

Lemma extractArchiveObjects_items_frame (items : list (option (string * string)))
  (x : Extraction) :
  extraction_frame x (fst (extractArchiveObjects_items items x)).
Proof.
  revert x. induction items as [|[[objType path]|] items IH]; intros x;
    cbn [extractArchiveObjects_items]; try apply extraction_frame_refl.
  pose proof (extractArchiveObject_frame objType path x) as Hstep.
  destruct (extractArchiveObject objType path x) as [x1 [[]|e]]; cbn [fst] in Hstep |- *.
  - eapply extraction_frame_trans; [exact Hstep|apply IH].
  - exact Hstep.
Qed.

Lemma extractArchiveObjects_frame_lemma (objects : ObjectList) (x : Extraction) :
  extraction_frame x (fst (extractArchiveObjects objects x)).
Proof.
  destruct objects as [items|]; cbn [extractArchiveObjects].
  - apply extractArchiveObjects_items_frame.
  - apply extraction_frame_refl.
Qed.

(** X5. Whatever [data.json] lists and however the extraction ends, it
    writes only the mod's configuration file and files of the cache
    directory, never removes or renames a file of the archive, and
    changes nothing of the loading entry but the module path (set once,
    never replaced) and the pak paths, to which it only appends. *)
Theorem extractArchiveObjects_confined (objects : ObjectList) (x : Extraction) :
  let x' := fst (extractArchiveObjects objects x) in
  modInfo (ex_entry x') = modInfo (ex_entry x)
  /\ isValid (ex_entry x') = isValid (ex_entry x)
  /\ virtualModFilePath (ex_entry x') = virtualModFilePath (ex_entry x)
  /\ isRawMod (ex_entry x') = isRawMod (ex_entry x)
  /\ (exists added, pakFilePaths (ex_entry x') = (pakFilePaths (ex_entry x) ++ added)%list)
  /\ (dllFilePath (ex_entry x) <> "" -> dllFilePath (ex_entry x') = dllFilePath (ex_entry x))
  /\ (forall p, is_Some (ex_root x' !! p) <-> is_Some (ex_root x !! p))
  /\ (forall p, p <> getModConfigFilePath (modid (modInfo (ex_entry x))) ->
                (forall fileHash, p <> generateTempFilePath fileHash) ->
                ex_disk x' !! p = ex_disk x !! p).
Proof.
  exact (extractArchiveObjects_frame_lemma objects x).
Qed.


(** X6. A [config] object never replaces a configuration file that is
    already there and never touches the loading entry; when the file is
    absent it is written from what the object still has to give. *)
Theorem config_object_kept_when_present (archivePath : string) (x : Extraction) (obj : File) :
  ex_root x !! archivePath = Some obj ->
  let r := extractArchiveObject "config" archivePath x in
  let cfg := getModConfigFilePath (modid (modInfo (ex_entry x))) in
  snd r = Returned tt
  /\ ex_entry (fst r) = ex_entry x
  /\ (is_Some (ex_disk x !! cfg) -> fst r = x)
  /\ (ex_disk x !! cfg = None ->
        ex_disk (fst r) = <[cfg := drop (getpos obj) (contents obj)]> (ex_disk x)).
Proof.
  intros Hfile.
  destruct (extractArchiveObject_step "config" archivePath x obj Hfile) as [Hconfig _].
  cbn zeta in Hconfig |- *.
  destruct (Hconfig eq_refl) as (Hret & Hentry & Hexists & Hnew).
  split; [exact Hret|]. split; [exact Hentry|]. unfold path_exists in Hexists, Hnew. split.
  - intros [stored Hstored]. rewrite Hstored in Hexists. apply Hexists. reflexivity.
  - intros Hnone. rewrite Hnone in Hnew. apply Hnew. reflexivity.
Qed.

(** X7. An object of a type other than [config], [pak] and [sml_mod], and
    a second [sml_mod], is rejected only after it went through the cache:
    the call throws and leaves the loading entry alone, but the cache
    file named by the object's digest is there afterwards. *)
Theorem rejected_object_is_cached_first (objectType archivePath : string) (x : Extraction)
  (obj : File) :
  ex_root x !! archivePath = Some obj ->
  objectType <> "config" -> objectType <> "pak" ->
  (objectType = "sml_mod" -> dllFilePath (ex_entry x) <> "") ->
  let r := extractArchiveObject objectType archivePath x in
  snd r = Thrown (if String.eqb objectType "sml_mod"
                  then "mod can only have one DLL module at a time"
                  else if String.eqb objectType "core_mod"
                       then "core mods are not supported by this version of SML"
                       else "Unknown archive object type encountered")
  /\ ex_entry (fst r) = ex_entry x
  /\ is_Some (ex_disk (fst r) !! cacheFileOf obj).
Proof.
  intros Hfile Hcfg Hpak Hdll.
  destruct (extractArchiveObject_step objectType archivePath x obj Hfile) as [_ Hother].
  cbn zeta in Hother |- *.
  destruct (Hother Hcfg) as (Hdisk & _ & _ & _ & Hdll2 & Hcore & Hunknown). clear Hother.
  assert (Hcached : is_Some (ex_disk (fst (extractArchiveObject objectType archivePath x))
                               !! cacheFileOf obj)).
  { rewrite Hdisk. clear Hdisk.
    destruct (path_exists (ex_disk x) (cacheFileOf obj)) eqn:Eif; cbn [negb orb].
    - unfold path_exists in Eif.
      match goal with |- context [if ?b then _ else _] => destruct b end;
        [rewrite lookup_insert_eq; eexists; reflexivity|].
      destruct (ex_disk x !! cacheFileOf obj); [eexists; reflexivity|discriminate].
    - rewrite lookup_insert_eq. eexists; reflexivity. }
  destruct (String.eqb_spec objectType "sml_mod") as [E1|E1].
  - destruct (Hdll2 E1 (Hdll E1)) as [-> ->]. repeat split. exact Hcached.
  - destruct (String.eqb_spec objectType "core_mod") as [E2|E2].
    + destruct (Hcore E2) as [-> ->]. repeat split. exact Hcached.
    + destruct (Hunknown Hpak E1 E2) as [-> ->]. repeat split. exact Hcached.
Qed.

(** X8. An object listed twice: the second extraction hashes a buffer of
    zero bytes, because the first left the object read to its end, so the
    two pak paths recorded are the cache file of the payload and the
    cache file of as many zero bytes. *)
Theorem object_listed_twice (archivePath : string) (x : Extraction) (bs : list Byte.byte) :
  ex_root x !! archivePath = Some (fresh_file bs) ->
  let once := fst (extractArchiveObject "pak" archivePath x) in
  let twice := fst (extractArchiveObject "pak" archivePath once) in
  pakFilePaths (ex_entry twice)
  = (pakFilePaths (ex_entry x)
       ++ [generateTempFilePath (hash256_hex bs);
           generateTempFilePath (hash256_hex (replicate (length bs) Byte.x00))])%list.
Proof.
  intros Hfile. cbn zeta.
  destruct (hashArchiveFileContents_twice bs) as (Hfirst & Hsecond & _). cbn zeta in Hfirst, Hsecond.
  destruct (extractArchiveObject_step "pak" archivePath x _ Hfile) as [_ Hother].
  cbn zeta in Hother.
  destruct Hother as (_ & Hroot & Hpak & _); [discriminate|].
  destruct (Hpak eq_refl) as [_ Hentry].
  assert (Hfile2 : ex_root (fst (extractArchiveObject "pak" archivePath x)) !! archivePath
                   = Some (snd (hashArchiveFileContents (fresh_file bs)))).
  { rewrite Hroot, lookup_insert_eq, hashArchiveFileContents_spec. reflexivity. }
  destruct (extractArchiveObject_step "pak" archivePath _ _ Hfile2) as [_ Hother2].
  cbn zeta in Hother2.
  destruct Hother2 as (_ & _ & Hpak2 & _); [discriminate|].
  destruct (Hpak2 eq_refl) as [_ Hentry2].
  rewrite Hentry2, Hentry. unfold cacheFileOf. rewrite Hfirst, Hsecond.
  cbn [push_pakFilePath pakFilePaths]. rewrite <- app_assoc. reflexivity.
Qed.

Lemma extractArchiveObjects_items_app (l1 l2 : list (option (string * string)))
  (x : Extraction) :
  extractArchiveObjects_items (l1 ++ l2)%list x
  = match extractArchiveObjects_items l1 x with
    | (x', Returned _) => extractArchiveObjects_items l2 x'
    | (x', Thrown e) => (x', Thrown e)
    end.
Proof.
  revert x. induction l1 as [|[[objType path]|] l1 IH]; intros x;
    cbn [app extractArchiveObjects_items]; try reflexivity.
  destruct (extractArchiveObject objType path x) as [x1 [[]|e]]; [apply IH|reflexivity].
Qed.


(** One successful call. *)
Lemma extractArchiveObject_returned (objectType archivePath : string) (x x' : Extraction) :
  extractArchiveObject objectType archivePath x = (x', Returned tt) ->
  is_Some (ex_root x !! archivePath)
  /\ ((objectType = "config" /\ ex_entry x' = ex_entry x)
      \/ (objectType = "pak"
          /\ exists filePath, ex_entry x' = push_pakFilePath (ex_entry x) filePath)
      \/ (objectType = "sml_mod" /\ dllFilePath (ex_entry x) = ""
          /\ exists filePath, filePath <> ""
                              /\ ex_entry x' = set_dllFilePath (ex_entry x) filePath)).
Proof.
  intros Hr.
  destruct (ex_root x !! archivePath) as [obj|] eqn:Hfile;
    [|rewrite extractArchiveObject_missing in Hr by assumption; discriminate].
  split; [eexists; reflexivity|].
  destruct (extractArchiveObject_step objectType archivePath x obj Hfile) as [Hconfig Hother].
  cbn zeta in Hconfig, Hother. rewrite Hr in Hconfig, Hother. cbn [fst snd] in Hconfig, Hother.
  destruct (String.eqb_spec objectType "config") as [Hc|Hc].
  - left. split; [exact Hc|]. apply Hconfig. exact Hc.
  - destruct (Hother Hc) as (_ & _ & Hpak & Hdll & Hdll2 & Hcore & Hunknown).
    destruct (String.eqb_spec objectType "pak") as [E1|E1].
    + right; left. split; [exact E1|]. eexists. apply Hpak. exact E1.
    + destruct (String.eqb_spec objectType "sml_mod") as [E2|E2].
      * destruct (String.eqb_spec (dllFilePath (ex_entry x)) "") as [E3|E3].
        -- right; right. split; [exact E2|]. split; [exact E3|].
           exists (cacheFileOf obj). split; [apply join_not_empty|].
           apply Hdll; assumption.
        -- destruct (Hdll2 E2 E3) as [Habs _]. discriminate.
      * destruct (String.eqb_spec objectType "core_mod") as [E3|E3].
        -- destruct (Hcore E3) as [Habs _]. discriminate.
        -- destruct (Hunknown E1 E2 E3) as [Habs _]. discriminate.
Qed.

Lemma extractArchiveObjects_items_returned (items : list (option (string * string)))
  (x x' : Extraction) :
  extractArchiveObjects_items items x = (x', Returned tt) ->
  Forall (fun item => exists objType path,
                        item = Some (objType, path)
                        /\ (objType = "config" \/ objType = "pak" \/ objType = "sml_mod")
                        /\ is_Some (ex_root x !! path)) items
  /\ length (pakFilePaths (ex_entry x'))
     = (length (pakFilePaths (ex_entry x)) + length (objects_of_type "pak" items))%nat
  /\ (dllFilePath (ex_entry x) = "" ->
        (length (objects_of_type "sml_mod" items) <= 1)%nat
        /\ (objects_of_type "sml_mod" items = [] -> dllFilePath (ex_entry x') = ""))
  /\ (dllFilePath (ex_entry x) <> "" -> objects_of_type "sml_mod" items = []).
Proof.
  revert x. induction items as [|[[objType path]|] items IH]; intros x Hr;
    cbn [extractArchiveObjects_items] in Hr.
  - injection Hr as <-. cbn. split_all; try reflexivity; try lia.
    + constructor.
    + intros Hd. split; [lia|]. intros _. exact Hd.
  - destruct (extractArchiveObject objType path x) as [x1 [[]|e]] eqn:Hstep;
      [|destruct (extractArchiveObjects_items items x1); discriminate].
    destruct (extractArchiveObject_returned _ _ _ _ Hstep) as [Hsome Hkind].
    pose proof (extractArchiveObject_frame objType path x) as Hframe.
    rewrite Hstep in Hframe. cbn [fst] in Hframe.
    destruct Hframe as (_ & _ & _ & _ & _ & _ & Hroot & _).
    destruct (IH x1 Hr) as (Hall & Hlen & Hdll & Hdll2).
    assert (Hitems : Forall (fun item => exists objType path,
                        item = Some (objType, path)
                        /\ (objType = "config" \/ objType = "pak" \/ objType = "sml_mod")
                        /\ is_Some (ex_root x !! path)) (Some (objType, path) :: items)).
    { constructor.
      - exists objType, path. split; [reflexivity|]. split; [|exact Hsome].
        destruct Hkind as [[-> _]|[[-> _]|[-> _]]]; tauto.
      - eapply Forall_impl; [exact Hall|]. intros item (t & p & -> & Ht & Hp).
        exists t, p. split; [reflexivity|]. split; [exact Ht|]. apply Hroot. exact Hp. }
    split; [exact Hitems|]. clear Hitems.
    cbn [objects_of_type flat_map]. fold (objects_of_type "pak" items).
    fold (objects_of_type "sml_mod" items).
    destruct Hkind as [[-> Hentry]|[[-> [fp Hentry]]|[-> [Hempty [fp [Hfp Hentry]]]]]];
      rewrite Hentry in Hlen, Hdll, Hdll2;
      cbn [push_pakFilePath set_dllFilePath pakFilePaths dllFilePath] in Hlen, Hdll, Hdll2;
      cbn [String.eqb Ascii.eqb Bool.eqb app].
    + split; [exact Hlen|]. split; assumption.
    + rewrite length_app in Hlen. cbn [length] in Hlen |- *.
      split; [lia|]. split; assumption.
    + split; [exact Hlen|]. split.
      * intros _. rewrite (Hdll2 Hfp). cbn [length]. split; [lia|]. discriminate.
      * intros Hd. contradiction.
  - discriminate.
Qed.

(** X10. A run of [extractArchiveObjects] that returns: [objects] was an
    array of well-formed items, each of type [config], [pak] or [sml_mod]
    and each naming a file of the archive; the entry gained one pak path
    per [pak] item; and there was at most one [sml_mod] item, none when
    the entry had a module path before. *)
Theorem extractArchiveObjects_returned (objects : ObjectList) (x x' : Extraction) :
  extractArchiveObjects objects x = (x', Returned tt) ->
  exists items,
    objects = Some items
    /\ Forall (fun item => exists objType path,
                 item = Some (objType, path)
                 /\ (objType = "config" \/ objType = "pak" \/ objType = "sml_mod")
                 /\ is_Some (ex_root x !! path)) items
    /\ length (pakFilePaths (ex_entry x'))
       = (length (pakFilePaths (ex_entry x)) + length (objects_of_type "pak" items))%nat
    /\ (dllFilePath (ex_entry x) = "" ->
          (length (objects_of_type "sml_mod" items) <= 1)%nat
          /\ (objects_of_type "sml_mod" items = [] -> dllFilePath (ex_entry x') = ""))
    /\ (dllFilePath (ex_entry x) <> "" -> objects_of_type "sml_mod" items = []).
Proof.
  intros Hr. destruct objects as [items|]; cbn [extractArchiveObjects] in Hr; [|discriminate].
  exists items. split; [reflexivity|].
  apply extractArchiveObjects_items_returned. exact Hr.
Qed.

End MoreExtractionFacts.

(** ** More on registration *)

Section MoreRegistrationFacts.
Context `{Versions} `{Host} `{Platform}.

Lemma lookup_touch_ne (key key' : string) (m : gmap string FModLoadingEntry) :
  key <> key' -> touch key m !! key' = m !! key'.
Proof.
  intros Hne. unfold touch. destruct (m !! key); [reflexivity|].
  apply lookup_insert_ne. exact Hne.
Qed.

(** What [createLoadingEntry] does for an id without a valid entry. *)
Lemma createLoadingEntry_fresh (info : FModInfo) (filePath : string) (st : FModHandler) :
  isValid (entry_at (loadingEntries st) (modid info)) = false ->
  createLoadingEntry info filePath st
  = (set_loadingEntries st
       (<[modid info :=
            {| isValid := true; modInfo := info; virtualModFilePath := filePath;
               dllFilePath := dllFilePath (entry_at (loadingEntries st) (modid info));
               pakFilePaths := pakFilePaths (entry_at (loadingEntries st) (modid info));
               isRawMod := isRawMod (entry_at (loadingEntries st) (modid info)) |}]>
          (loadingEntries st)),
     EntryRefAt (modid info)).
Proof.
  intros Hinv. unfold createLoadingEntry. rewrite entry_at_touch, Hinv, insert_touch.
  reflexivity.
Qed.

(** What it does for an id that has one. *)
Lemma createLoadingEntry_taken (info : FModInfo) (filePath : string) (st : FModHandler) :
  isValid (entry_at (loadingEntries st) (modid info)) = true ->
  createLoadingEntry info filePath st
  = (let message :=
       formatStr ["Found duplicate mods with same mod ID "; modid info; ": "; filePath;
                  " and "; virtualModFilePath (entry_at (loadingEntries st) (modid info))] in
     push_problem message (log LogFatal message st),
     InvalidEntryRef).
Proof.
  intros Hval. unfold createLoadingEntry. rewrite entry_at_touch, Hval.
  rewrite (touch_present _ _ _ (entry_at_valid_present _ _ Hval)).
  rewrite set_loadingEntries_same. reflexivity.
Qed.

(** X11. Of two candidates with the same mod id the first one registered
    stays: it is stored under the id with its descriptor and path, the
    other elements are untouched and nothing is reported; the second is
    refused with one message naming both paths, and the table is left as
    the first registration made it. *)
Theorem first_registration_wins
  (info1 info2 : FModInfo) (path1 path2 : string) (st : FModHandler) :
  isValid (entry_at (loadingEntries st) (modid info1)) = false ->
  modid info2 = modid info1 ->
  let st1 := fst (createLoadingEntry info1 path1 st) in
  let st2 := fst (createLoadingEntry info2 path2 st1) in
  snd (createLoadingEntry info1 path1 st) = EntryRefAt (modid info1)
  /\ loadingProblems st1 = loadingProblems st
  /\ isValid (entry_at (loadingEntries st1) (modid info1)) = true
  /\ modInfo (entry_at (loadingEntries st1) (modid info1)) = info1
  /\ virtualModFilePath (entry_at (loadingEntries st1) (modid info1)) = path1
  /\ (forall key, key <> modid info1 -> loadingEntries st1 !! key = loadingEntries st !! key)
  /\ snd (createLoadingEntry info2 path2 st1) = InvalidEntryRef
  /\ loadingEntries st2 = loadingEntries st1
  /\ loadingProblems st2
     = (loadingProblems st
          ++ [formatStr ["Found duplicate mods with same mod ID "; modid info1; ": ";
                         path2; " and "; path1]])%list.
Proof.
  intros Hinv Hid. cbn zeta.
  rewrite (createLoadingEntry_fresh info1 path1 st Hinv). cbn [fst snd].
  set (st1 := set_loadingEntries st _).
  assert (Hentry : entry_at (loadingEntries st1) (modid info1)
                   = {| isValid := true; modInfo := info1; virtualModFilePath := path1;
                        dllFilePath := dllFilePath (entry_at (loadingEntries st) (modid info1));
                        pakFilePaths := pakFilePaths (entry_at (loadingEntries st) (modid info1));
                        isRawMod := isRawMod (entry_at (loadingEntries st) (modid info1)) |}).
  { subst st1. unfold entry_at at 1. cbn [loadingEntries set_loadingEntries].
    rewrite lookup_insert_eq. reflexivity. }
  rewrite createLoadingEntry_taken by (rewrite Hid, Hentry; reflexivity).
  rewrite Hid, Hentry. cbn [fst snd isValid modInfo virtualModFilePath].
  split; [reflexivity|]. split; [reflexivity|]. split; [reflexivity|].
  split; [reflexivity|]. split; [reflexivity|]. split.
  - intros key Hne. subst st1. cbn [loadingEntries set_loadingEntries].
    apply lookup_insert_ne. congruence.
  - split; [reflexivity|]. split; reflexivity.
Qed.

(** X12. In production mode (no debug log output) a raw [.dll] or [.pak]
    is never registered and its name is never looked at: the constructor
    returns, the table is as before, and one problem naming the file is
    recorded. *)
Theorem raw_mods_refused_in_production (filePath : string) (st : FModHandler) :
  debugLogOutput = false ->
  exists st',
    constructDllMod filePath st = Returned st'
    /\ constructPakMod filePath st = Returned st'
    /\ loadingEntries st' = loadingEntries st
    /\ loadingProblems st'
       = (loadingProblems st ++ [formatStr ["Found unsupported raw mod file: "; filePath]])%list
    /\ shutdownRequests st' = shutdownRequests st.
Proof.
  intros Hmode. unfold constructDllMod, constructPakMod, checkAndNotifyRawMod.
  rewrite Hmode. cbn [negb]. eexists. split; [reflexivity|]. split; [reflexivity|].
  repeat split.
Qed.

(** The part of the raw constructors after the id is known, for an id
    that a raw entry holds. *)
Lemma registerRawMod_again (modId filePath : string)
  (f : FModLoadingEntry -> FModLoadingEntry) (st : FModHandler) (e : FModLoadingEntry) :
  loadingEntries st !! modId = Some e -> isValid e = true -> isRawMod e = true ->
  registerRawMod modId filePath f st
  = set_loadingEntries st (<[modId := f e]> (loadingEntries st)).
Proof.
  intros He Hval Hraw. unfold registerRawMod, createRawModLoadingEntry.
  rewrite entry_at_touch, (entry_at_present _ _ _ He), Hval. cbn [negb].
  rewrite Hraw. cbn [negb]. rewrite insert_touch, (insert_id _ _ _ He).
  rewrite set_loadingEntries_same, (entry_at_present _ _ _ He), Hval. cbn [negb].
  unfold update_entry. rewrite (entry_at_present _ _ _ He). reflexivity.
Qed.

(** X13. In development mode the raw files of one mod pile up in its
    entry without a diagnostic: a further [.dll] replaces the module
    path recorded before, a further [.pak] is appended to the pak paths,
    and the entry keeps the descriptor and the path of the first file. *)
Theorem raw_files_of_one_mod_accumulate
  (filePath modId : string) (st : FModHandler) (e : FModLoadingEntry) :
  debugLogOutput = true ->
  getModIdFromFile filePath = Returned modId ->
  loadingEntries st !! modId = Some e -> isValid e = true -> isRawMod e = true ->
  exists stDll stPak,
    constructDllMod filePath st = Returned stDll
    /\ constructPakMod filePath st = Returned stPak
    /\ loadingEntries stDll = <[modId := set_dllFilePath e filePath]> (loadingEntries st)
    /\ loadingEntries stPak = <[modId := push_pakFilePath e filePath]> (loadingEntries st)
    /\ loadingProblems stDll = loadingProblems st
    /\ loadingProblems stPak = loadingProblems st.
Proof.
  intros Hmode Hid He Hval Hraw.
  unfold constructDllMod, constructPakMod, checkAndNotifyRawMod.
  rewrite Hmode, Hid. cbn [negb].
  eexists. eexists. split; [reflexivity|]. split; [reflexivity|].
  rewrite !(registerRawMod_again modId filePath _ _ e) by assumption.
  repeat split.
Qed.

Lemma checkStageErrors_frame (stageName : string) (st : FModHandler) :
  loadingProblems (checkStageErrors stageName st) = []
  /\ loadingEntries (checkStageErrors stageName st) = loadingEntries st
  /\ sortedModLoadList (checkStageErrors stageName st) = sortedModLoadList st
  /\ disk (checkStageErrors stageName st) = disk st
  /\ shutdownRequests (checkStageErrors stageName st)
     = match loadingProblems st with
       | [] => shutdownRequests st
       | _ => (shutdownRequests st
                 ++ [formatStr ["Errors occurred during mod loading stage '"; stageName;
                                ("'. Loading cannot continue:"
                                   ++ String (ascii_of_nat 10) "")%string]])%list
       end.
Proof.
  unfold checkStageErrors. destruct (loadingProblems st) eqn:E; [rewrite E|]; repeat split.
Qed.

(** X14. [checkStageErrors] leaves no problem behind and does nothing when
    there was none. When there were problems it logs and passes to the
    engine shutdown one text, the headline of the stage: the texts of the
    problems are not part of it. A second check right after does
    nothing. *)
Theorem checkStageErrors_reports_headline_only (stageName : string) (st : FModHandler) :
  let headline := "Errors occurred during mod loading stage '" ++ stageName
                  ++ "'. Loading cannot continue:" ++ String (ascii_of_nat 10) "" in
  let st' := checkStageErrors stageName st in
  loadingProblems st' = []
  /\ loadingEntries st' = loadingEntries st
  /\ sortedModLoadList st' = sortedModLoadList st
  /\ (loadingProblems st = [] -> st' = st)
  /\ (loadingProblems st <> [] ->
        shutdownRequests st' = (shutdownRequests st ++ [headline])%list
        /\ logged st' = (logged st ++ [(LogFatal, headline)])%list)
  /\ (forall nextStage, checkStageErrors nextStage st' = st').
Proof.
  cbn zeta. unfold checkStageErrors.
  destruct (loadingProblems st) as [|p ps] eqn:E.
  - rewrite E. split_all; try reflexivity.
    intros Hne. contradiction.
  - cbn [loadingProblems set_loadingProblems log set_logged set_shutdownRequests
         loadingEntries sortedModLoadList shutdownRequests logged formatStr String.concat].
    split_all; try reflexivity.
    + discriminate.
    + intros _. split; reflexivity.
Qed.

End MoreRegistrationFacts.

(** ** Discovery *)

Section DiscoveryFacts.
Context `{Versions} `{Host} `{Platform} `{!Archives}.

Lemma discovery_step_refl st : discovery_step st st.
Proof.
  unfold discovery_step. split_all; try reflexivity; [|tauto].
  exists []. symmetry. apply app_nil_r.
Qed.

Lemma discovery_step_trans st1 st2 st3 :
  discovery_step st1 st2 -> discovery_step st2 st3 -> discovery_step st1 st3.
Proof.
  intros (A1 & A2 & (a & A3) & A4) (B1 & B2 & (b & B3) & B4).
  unfold discovery_step. split_all.
  - congruence.
  - congruence.
  - exists (a ++ b)%list. rewrite B3, A3, app_assoc. reflexivity.
  - intros p Hp. apply B4, A4, Hp.
Qed.

Lemma discovery_step_log lvl message st : discovery_step st (log lvl message st).
Proof.
  unfold discovery_step. cbn. split_all; try reflexivity; [|tauto].
  exists []. symmetry. apply app_nil_r.
Qed.

Lemma discovery_step_push message st : discovery_step st (push_problem message st).
Proof.
  unfold discovery_step. cbn. split_all; try reflexivity; [|tauto].
  exists [message]. reflexivity.
Qed.

Lemma discovery_step_entries st m : discovery_step st (set_loadingEntries st m).
Proof.
  unfold discovery_step. cbn. split_all; try reflexivity; [|tauto].
  exists []. symmetry. apply app_nil_r.
Qed.

Lemma discovery_step_report filePath reason st :
  discovery_step st (reportBrokenZipMod filePath reason st)
  /\ loadingEntries (reportBrokenZipMod filePath reason st) = loadingEntries st.
Proof.
  unfold reportBrokenZipMod. split; [|reflexivity].
  eapply discovery_step_trans; [apply discovery_step_log|apply discovery_step_push].
Qed.

Lemma registry_ok_insert (m : gmap string FModLoadingEntry) key e :
  registry_ok m -> key <> "SML" -> isValid e = true -> modid (modInfo e) = key ->
  registry_ok (<[key := e]> m).
Proof.
  intros [Hkeyed Hsml] Hne Hval Hid. split.
  - intros k e' Hk. destruct (decide (key = k)) as [<-|Hk'].
    + rewrite lookup_insert_eq in Hk. injection Hk as <-. split; assumption.
    + rewrite lookup_insert_ne in Hk by assumption. apply (Hkeyed k e' Hk).
  - rewrite lookup_insert_ne by assumption. exact Hsml.
Qed.

Lemma registry_ok_read (m : gmap string FModLoadingEntry) key :
  registry_ok m ->
  (m !! key = None /\ isValid (entry_at m key) = false)
  \/ (exists e, m !! key = Some e /\ entry_at m key = e /\ isValid e = true
                /\ modid (modInfo e) = key).
Proof.
  intros [Hkeyed _]. unfold entry_at. destruct (m !! key) as [e|] eqn:E.
  - right. exists e. destruct (Hkeyed key e E) as [Hval Hid]. repeat split; assumption.
  - left. split; reflexivity.
Qed.

Lemma sml_entry_not_raw : isRawMod createSMLLoadingEntry = false.
Proof. reflexivity. Qed.

(** Registration keeps the table in order; a reference to an element is
    to a valid one other than the loader's. *)
Lemma createLoadingEntry_ok (info : FModInfo) (filePath : string) (st : FModHandler) :
  registry_ok (loadingEntries st) ->
  let r := createLoadingEntry info filePath st in
  registry_ok (loadingEntries (fst r))
  /\ discovery_step st (fst r)
  /\ disk (fst r) = disk st
  /\ match snd r with
     | InvalidEntryRef => loadingEntries (fst r) = loadingEntries st
     | EntryRefAt key =>
         key = modid info /\ key <> "SML"
         /\ loadingEntries st !! key = None
         /\ exists e, loadingEntries (fst r) = <[key := e]> (loadingEntries st)
                      /\ isValid e = true /\ modInfo e = info
                      /\ virtualModFilePath e = filePath
     end.
Proof.
  intros Hok. cbn zeta.
  destruct (registry_ok_read _ (modid info) Hok) as [[Hnone Hinv]|(e & He & Hat & Hval & Hid)].
  - rewrite (createLoadingEntry_fresh info filePath st Hinv). cbn [fst snd].
    assert (Hne : modid info <> "SML").
    { intros E. rewrite E in Hnone. destruct Hok as [_ Hsml]. congruence. }
    split_all.
    + apply registry_ok_insert; try assumption; reflexivity.
    + apply discovery_step_entries.
    + reflexivity.
    + reflexivity.
    + exact Hne.
    + exact Hnone.
    + eexists. split; [reflexivity|]. repeat split.
  - rewrite createLoadingEntry_taken by (rewrite Hat; exact Hval). cbn [fst snd].
    split_all.
    + exact Hok.
    + eapply discovery_step_trans; [apply discovery_step_log|apply discovery_step_push].
    + reflexivity.
    + reflexivity.
Qed.

Lemma raw_entry_modid (modId filePath : string) (prior : FModLoadingEntry) :
  modid (modInfo (rawModEntry modId filePath prior)) = modId.
Proof. reflexivity. Qed.

Lemma createRawModLoadingEntry_ok (modId filePath : string) (st : FModHandler) :
  registry_ok (loadingEntries st) ->
  let r := createRawModLoadingEntry modId filePath st in
  registry_ok (loadingEntries (fst r))
  /\ discovery_step st (fst r)
  /\ disk (fst r) = disk st
  /\ match snd r with
     | InvalidEntryRef => loadingEntries (fst r) = loadingEntries st
     | EntryRefAt key =>
         key = modId /\ key <> "SML"
         /\ exists e, loadingEntries (fst r) !! key = Some e
                      /\ isValid e = true /\ isRawMod e = true /\ modid (modInfo e) = key
     end.
Proof.
  intros Hok. cbn zeta. unfold createRawModLoadingEntry. rewrite entry_at_touch, insert_touch.
  destruct (registry_ok_read _ modId Hok) as [[Hnone Hinv]|(e & He & Hat & Hval & Hid)].
  - rewrite Hinv. cbn [negb isRawMod fst snd].
    assert (Hne : modId <> "SML").
    { intros E. rewrite E in Hnone. destruct Hok as [_ Hsml]. congruence. }
    split_all.
    + apply registry_ok_insert; try assumption; reflexivity.
    + apply discovery_step_entries.
    + reflexivity.
    + reflexivity.
    + exact Hne.
    + eexists. cbn [loadingEntries set_loadingEntries]. rewrite lookup_insert_eq.
      split; [reflexivity|]. repeat split.
  - rewrite Hat, Hval. cbn [negb]. rewrite (insert_id _ _ _ He), set_loadingEntries_same.
    destruct (isRawMod e) eqn:Hraw; cbn [negb fst snd].
    + split_all.
      * exact Hok.
      * apply discovery_step_refl.
      * reflexivity.
      * reflexivity.
      * intros E. rewrite E in He. destruct Hok as [_ Hsml]. rewrite Hsml in He.
        injection He as <-. discriminate.
      * exists e. repeat split; assumption.
    + split_all.
      * exact Hok.
      * eapply discovery_step_trans; [apply discovery_step_log|apply discovery_step_push].
      * reflexivity.
      * reflexivity.
Qed.

Lemma registerRawMod_ok (modId filePath : string)
  (f : FModLoadingEntry -> FModLoadingEntry) (st : FModHandler) :
  (forall e, isValid (f e) = isValid e /\ modInfo (f e) = modInfo e) ->
  registry_ok (loadingEntries st) ->
  registry_ok (loadingEntries (registerRawMod modId filePath f st))
  /\ discovery_step st (registerRawMod modId filePath f st).
Proof.
  intros Hf Hok. unfold registerRawMod.
  destruct (createRawModLoadingEntry_ok modId filePath st Hok) as (Hok1 & Hstep & _ & Href).
  cbn zeta in Hok1, Hstep, Href.
  destruct (createRawModLoadingEntry modId filePath st) as [st1 [|key]];
    cbn [fst snd] in Hok1, Hstep, Href.
  - split; assumption.
  - destruct Href as (-> & Hne & e & He & Hval & Hraw & Hid).
    rewrite (entry_at_present _ _ _ He), Hval. cbn [negb].
    unfold update_entry. rewrite (entry_at_present _ _ _ He).
    cbn [loadingEntries set_loadingEntries]. split.
    + destruct (Hf e) as [Hfv Hfi].
      apply registry_ok_insert; try assumption; congruence.
    + eapply discovery_step_trans; [exact Hstep|apply discovery_step_entries].
Qed.

Lemma checkAndNotifyRawMod_ok (filePath : string) (st : FModHandler) :
  loadingEntries (fst (checkAndNotifyRawMod filePath st)) = loadingEntries st
  /\ discovery_step st (fst (checkAndNotifyRawMod filePath st))
  /\ snd (checkAndNotifyRawMod filePath st) = debugLogOutput
  /\ (debugLogOutput = false ->
        loadingProblems (fst (checkAndNotifyRawMod filePath st))
        = (loadingProblems st ++ [formatStr ["Found unsupported raw mod file: "; filePath]])%list).
Proof.
  unfold checkAndNotifyRawMod. destruct debugLogOutput; cbn [negb fst snd].
  - split_all; try reflexivity; [|discriminate].
    eapply discovery_step_trans; apply discovery_step_log.
  - split_all; try reflexivity.
    eapply discovery_step_trans; [apply discovery_step_log|].
    eapply discovery_step_trans; [apply discovery_step_log|apply discovery_step_push].
Qed.

Lemma constructRawMod_ok (filePath : string)
  (f : FModLoadingEntry -> FModLoadingEntry) (st st' : FModHandler) :
  (forall e, isValid (f e) = isValid e /\ modInfo (f e) = modInfo e) ->
  registry_ok (loadingEntries st) ->
  match checkAndNotifyRawMod filePath st with
  | (st, false) => Returned st
  | (st, true) =>
      match getModIdFromFile filePath with
      | Thrown e => Thrown e
      | Returned modId => Returned (registerRawMod modId filePath f st)
      end
  end = Returned st' ->
  registry_ok (loadingEntries st') /\ discovery_step st st'.
Proof.
  intros Hf Hok.
  destruct (checkAndNotifyRawMod_ok filePath st) as (Hentries & Hstep & _ & _).
  destruct (checkAndNotifyRawMod filePath st) as [st1 [|]]; cbn [fst] in Hentries, Hstep.
  - destruct (getModIdFromFile filePath) as [modId|]; [|discriminate].
    intros [= <-]. rewrite <- Hentries in Hok.
    destruct (registerRawMod_ok modId filePath f st1 Hf Hok) as [Hok' Hstep'].
    split; [exact Hok'|]. eapply discovery_step_trans; eassumption.
  - intros [= <-]. rewrite Hentries. split; assumption.
Qed.

Lemma constructDllMod_ok (filePath : string) (st st' : FModHandler) :
  registry_ok (loadingEntries st) ->
  constructDllMod filePath st = Returned st' ->
  registry_ok (loadingEntries st') /\ discovery_step st st'.
Proof.
  intros Hok. apply constructRawMod_ok; [|exact Hok]. intros e. split; reflexivity.
Qed.

Lemma constructPakMod_ok (filePath : string) (st st' : FModHandler) :
  registry_ok (loadingEntries st) ->
  constructPakMod filePath st = Returned st' ->
  registry_ok (loadingEntries st') /\ discovery_step st st'.
Proof.
  intros Hok. apply constructRawMod_ok; [|exact Hok]. intros e. split; reflexivity.
Qed.


Lemma extractArchiveObject_keeps_files (objectType archivePath : string) (x : Extraction) :
  forall p, is_Some (ex_disk x !! p) ->
            is_Some (ex_disk (fst (extractArchiveObject objectType archivePath x)) !! p).
Proof.
  intros p Hp.
  destruct (ex_root x !! archivePath) as [obj|] eqn:Hfile;
    [|rewrite extractArchiveObject_missing by assumption; exact Hp].
  destruct (extractArchiveObject_step objectType archivePath x obj Hfile) as [Hconfig Hother].
  cbn zeta in Hconfig, Hother.
  destruct (String.eqb_spec objectType "config") as [Hc|Hc].
  - destruct (Hconfig Hc) as (_ & _ & Hexists & Hnew).
    destruct (path_exists (ex_disk x) (getModConfigFilePath (modid (modInfo (ex_entry x))))).
    + rewrite (Hexists eq_refl). exact Hp.
    + destruct (Hnew eq_refl) as [-> _].
      destruct (decide (getModConfigFilePath (modid (modInfo (ex_entry x))) = p)) as [<-|Hne].
      * rewrite lookup_insert_eq. eexists; reflexivity.
      * rewrite lookup_insert_ne by assumption. exact Hp.
  - destruct (Hother Hc) as (-> & _).
    match goal with |- context [if ?b then _ else _] => destruct b end; [|exact Hp].
    destruct (decide (cacheFileOf obj = p)) as [<-|Hne].
    + rewrite lookup_insert_eq. eexists; reflexivity.
    + rewrite lookup_insert_ne, lookup_delete_ne by assumption. exact Hp.
Qed.

Lemma extractArchiveObjects_keeps_files (objects : ObjectList) (x : Extraction) :
  forall p, is_Some (ex_disk x !! p) ->
            is_Some (ex_disk (fst (extractArchiveObjects objects x)) !! p).
Proof.
  destruct objects as [items|]; cbn [extractArchiveObjects fst]; [|tauto].
  revert x. induction items as [|[[objType path]|] items IH]; intros x p Hp;
    cbn [extractArchiveObjects_items fst]; try exact Hp.
  pose proof (extractArchiveObject_keeps_files objType path x p Hp) as Hstep.
  destruct (extractArchiveObject objType path x) as [x1 [[]|e]]; cbn [fst] in Hstep |- *.
  - apply IH. exact Hstep.
  - exact Hstep.
Qed.


Lemma no_raw_insert (m : gmap string FModLoadingEntry) key e :
  no_raw_entries m -> isRawMod e = false -> no_raw_entries (<[key := e]> m).
Proof.
  intros Hm He k e' Hk. destruct (decide (key = k)) as [<-|Hne].
  - rewrite lookup_insert_eq in Hk. injection Hk as <-. exact He.
  - rewrite lookup_insert_ne in Hk by assumption. apply (Hm k e' Hk).
Qed.

(** The three ways [constructZipMod] can go. *)
Lemma constructZipMod_cases (filePath : string) (st : FModHandler) :
  (exists reason,
     constructZipMod filePath st = reportBrokenZipMod filePath reason st)
  \/ (exists info,
        isValid (entry_at (loadingEntries st) (modid info)) = true
        /\ constructZipMod filePath st = fst (createLoadingEntry info filePath st))
  \/ (exists info dataJsonObj vfs x r,
        isValid (entry_at (loadingEntries st) (modid info)) = false
        /\ extractArchiveObjects (json_objects dataJsonObj)
             {| ex_root := vfs; ex_disk := disk st;
                ex_entry :=
                  {| isValid := true; modInfo := info; virtualModFilePath := filePath;
                     dllFilePath := dllFilePath (entry_at (loadingEntries st) (modid info));
                     pakFilePaths := pakFilePaths (entry_at (loadingEntries st) (modid info));
                     isRawMod := isRawMod (entry_at (loadingEntries st) (modid info)) |} |}
           = (x, r)
        /\ let st1 := set_disk (set_loadingEntries st
                                  (<[modid info := ex_entry x]> (loadingEntries st)))
                               (ex_disk x) in
           constructZipMod filePath st
           = match r with
             | Returned _ => st1
             | Thrown what =>
                 reportBrokenZipMod filePath
                   (formatStr ["Failed to extract data objects: "; what]) st1
             end).
Proof.
  unfold constructZipMod.
  destruct (AddArchive filePath (disk st) !! archiveMember filePath "data.json")
    as [dataJson|]; [|left; eexists; reflexivity].
  destruct (readArchiveJson dataJson) as [parsed dataJson'].
  destruct parsed as [dataJsonObj|what]; [|left; eexists; reflexivity].
  destruct (createFromJson dataJsonObj) as [info|what]; [|left; eexists; reflexivity].
  right.
  destruct (isValid (entry_at (loadingEntries st) (modid info))) eqn:Hval.
  - left. exists info. split; [exact Hval|].
    rewrite createLoadingEntry_taken by exact Hval. cbn [fst snd]. reflexivity.
  - right. rewrite (createLoadingEntry_fresh info filePath st Hval).
    cbn [loadingEntries set_loadingEntries disk].
    rewrite !entry_at_insert. cbn [isValid negb].
    match goal with
    | |- context [extractArchiveObjects ?o ?x0] =>
        destruct (extractArchiveObjects o x0) as [x r] eqn:Hx
    end.
    exists info, dataJsonObj,
      (<[archiveMember filePath "data.json" := dataJson']> (AddArchive filePath (disk st))), x, r.
    split; [exact Hval|]. split; [exact Hx|]. cbn zeta.
    unfold update_entry. cbn [loadingEntries set_loadingEntries].
    rewrite insert_insert_eq.
    assert (Hsame : forall m d,
              set_disk (set_loadingEntries
                          (set_loadingEntries st m) (<[modid info := ex_entry x]> (loadingEntries st))) d
              = set_disk (set_loadingEntries st (<[modid info := ex_entry x]> (loadingEntries st))) d)
      by reflexivity.
    rewrite Hsame. reflexivity.
Qed.

Lemma absent_when_invalid (m : gmap string FModLoadingEntry) (key : string) :
  registry_ok m -> isValid (entry_at m key) = false ->
  m !! key = None /\ key <> "SML" /\ entry_at m key = FModLoadingEntry_default.
Proof.
  intros Hok Hinv.
  destruct (registry_ok_read _ key Hok) as [[Hnone _]|(e & He & Hat & Hval & Hid)];
    [|congruence].
  split; [exact Hnone|]. split.
  - intros E. rewrite E in Hnone. destruct Hok as [_ Hsml]. congruence.
  - unfold entry_at. rewrite Hnone. reflexivity.
Qed.

Lemma constructZipMod_ok (filePath : string) (st : FModHandler) :
  registry_ok (loadingEntries st) ->
  registry_ok (loadingEntries (constructZipMod filePath st))
  /\ discovery_step st (constructZipMod filePath st).
Proof.
  intros Hok.
  destruct (constructZipMod_cases filePath st)
    as [[reason ->]|[(info & Hval & ->)|(info & j & vfs & x & r & Hinv & Hx & ->)]].
  - destruct (discovery_step_report filePath reason st) as [Hstep ->]. split; assumption.
  - destruct (createLoadingEntry_ok info filePath st Hok) as (Hok' & Hstep & _). split; assumption.
  - destruct (absent_when_invalid _ _ Hok Hinv) as (Hnone & Hne & _).
    match type of Hx with
    | extractArchiveObjects ?o ?x0 = _ =>
        pose proof (extractArchiveObjects_frame_lemma o x0) as Hframe;
        pose proof (extractArchiveObjects_keeps_files o x0) as Hfiles
    end.
    rewrite Hx in Hframe, Hfiles.
    cbn [fst ex_entry ex_disk modInfo isValid] in Hframe, Hfiles.
    destruct Hframe as (Hinfo & Hvalid & _).
    set (st1 := set_disk _ _).
    assert (Hok1 : registry_ok (loadingEntries st1)).
    { subst st1. cbn [loadingEntries set_disk set_loadingEntries].
      apply registry_ok_insert; try assumption. rewrite Hinfo. reflexivity. }
    assert (Hstep1 : discovery_step st st1).
    { subst st1. unfold discovery_step. cbn. split_all; try reflexivity; [|exact Hfiles].
      exists []. symmetry. apply app_nil_r. }
    destruct r as [[]|what]; [split; assumption|].
    destruct (discovery_step_report filePath
                (formatStr ["Failed to extract data objects: "; what]) st1) as [Hstep ->].
    split; [exact Hok1|]. eapply discovery_step_trans; eassumption.
Qed.

(** X15. [constructZipMod] changes the table by at most one element and
    the problems by at most one message. Either the archive is turned
    down (no [data.json], a manifest that cannot be read, a mod id that
    is taken): then one problem is recorded and neither the table nor
    the disk changes. Or its descriptor is registered under its mod id
    with the archive's path, and it stays registered, with whatever was
    extracted, also when the extraction of its objects fails, which
    records one problem. No file of the disk is removed either way. *)
Theorem constructZipMod_outcomes (filePath : string) (st : FModHandler) :
  let st' := constructZipMod filePath st in
  (loadingEntries st' = loadingEntries st /\ disk st' = disk st
   /\ exists message, loadingProblems st' = (loadingProblems st ++ [message])%list)
  \/ (exists info e,
        isValid (entry_at (loadingEntries st) (modid info)) = false
        /\ loadingEntries st' = <[modid info := e]> (loadingEntries st)
        /\ isValid e = true /\ modInfo e = info /\ virtualModFilePath e = filePath
        /\ (forall p, is_Some (disk st !! p) -> is_Some (disk st' !! p))
        /\ (loadingProblems st' = loadingProblems st
            \/ exists what,
                 loadingProblems st'
                 = (loadingProblems st
                      ++ [formatStr ["Failed to load zip mod from "; filePath;
                                     formatStr ["Failed to extract data objects: "; what]]])%list)).
Proof.
  cbn zeta.
  destruct (constructZipMod_cases filePath st)
    as [[reason ->]|[(info & Hval & ->)|(info & j & vfs & x & r & Hinv & Hx & ->)]].
  - left. split; [reflexivity|]. split; [reflexivity|]. eexists. reflexivity.
  - left. rewrite createLoadingEntry_taken by exact Hval. cbn [fst].
    split; [reflexivity|]. split; [reflexivity|]. eexists. reflexivity.
  - right. exists info, (ex_entry x).
    match type of Hx with
    | extractArchiveObjects ?o ?x0 = _ =>
        pose proof (extractArchiveObjects_frame_lemma o x0) as Hframe;
        pose proof (extractArchiveObjects_keeps_files o x0) as Hfiles
    end.
    rewrite Hx in Hframe, Hfiles.
    cbn [fst ex_entry ex_disk modInfo isValid virtualModFilePath] in Hframe, Hfiles.
    destruct Hframe as (Hinfo & Hvalid & Hpath & _).
    split; [exact Hinv|].
    destruct r as [[]|what]; cbn [loadingEntries loadingProblems disk reportBrokenZipMod
                                   push_problem log set_loadingProblems set_logged
                                   set_disk set_loadingEntries].
    + split_all; try assumption; try reflexivity. left. reflexivity.
    + split_all; try assumption; try reflexivity. right. exists what. reflexivity.
Qed.

Lemma constructZipMod_no_raw (filePath : string) (st : FModHandler) :
  registry_ok (loadingEntries st) -> no_raw_entries (loadingEntries st) ->
  no_raw_entries (loadingEntries (constructZipMod filePath st)).
Proof.
  intros Hok Hraw.
  destruct (constructZipMod_cases filePath st)
    as [[reason ->]|[(info & Hval & ->)|(info & j & vfs & x & r & Hinv & Hx & ->)]].
  - exact Hraw.
  - rewrite createLoadingEntry_taken by exact Hval. exact Hraw.
  - destruct (absent_when_invalid _ _ Hok Hinv) as (_ & _ & Hdefault).
    match type of Hx with
    | extractArchiveObjects ?o ?x0 = _ =>
        pose proof (extractArchiveObjects_frame_lemma o x0) as Hframe
    end.
    rewrite Hx in Hframe. rewrite Hdefault in Hframe. cbn [fst ex_entry isRawMod] in Hframe.
    destruct Hframe as (_ & _ & _ & Hflag & _).
    assert (Hinserted : no_raw_entries (<[modid info := ex_entry x]> (loadingEntries st)))
      by (apply no_raw_insert; assumption).
    destruct r as [[]|what]; exact Hinserted.
Qed.

Lemma discoverFile_ok (file : string) (st st' : FModHandler) :
  registry_ok (loadingEntries st) ->
  discoverFile st file = Returned st' ->
  registry_ok (loadingEntries st') /\ discovery_step st st'.
Proof.
  intros Hok. unfold discoverFile.
  destruct (path_exists (disk st) file);
    [|intros [= <-]; split; [exact Hok|apply discovery_step_refl]].
  assert (Hpak : forall st1,
            registry_ok (loadingEntries st1) -> discovery_step st st1 ->
            (if String.eqb (Path.extension file) ".pak" then constructPakMod file st1
             else Returned st1) = Returned st' ->
            registry_ok (loadingEntries st') /\ discovery_step st st').
  { intros st1 Hok1 Hstep1. destruct (String.eqb (Path.extension file) ".pak").
    - intros Hr. destruct (constructPakMod_ok file st1 st' Hok1 Hr) as [Hok' Hstep'].
      split; [exact Hok'|]. eapply discovery_step_trans; eassumption.
    - intros [= <-]. split; assumption. }
  destruct (String.eqb (Path.extension file) ".smod" || String.eqb (Path.extension file) ".zip").
  - destruct (constructZipMod_ok file st Hok) as [Hok1 Hstep1]. apply Hpak; assumption.
  - destruct (String.eqb (Path.extension file) ".dll").
    + destruct (constructDllMod file st) as [st1|e] eqn:Hdll; [|discriminate].
      destruct (constructDllMod_ok file st st1 Hok Hdll) as [Hok1 Hstep1].
      apply Hpak; assumption.
    + apply Hpak; [exact Hok|apply discovery_step_refl].
Qed.

Lemma discoverFiles_ok (files : list string) (st st' : FModHandler) :
  registry_ok (loadingEntries st) ->
  discoverFiles files st = Returned st' ->
  registry_ok (loadingEntries st') /\ discovery_step st st'.
Proof.
  revert st. induction files as [|file files IH]; intros st Hok; cbn [discoverFiles].
  - intros [= <-]. split; [exact Hok|apply discovery_step_refl].
  - destruct (discoverFile st file) as [st1|e] eqn:Hfile; [|discriminate].
    destruct (discoverFile_ok file st st1 Hok Hfile) as [Hok1 Hstep1].
    intros Hrest. destruct (IH st1 Hok1 Hrest) as [Hok' Hstep'].
    split; [exact Hok'|]. eapply discovery_step_trans; eassumption.
Qed.

Lemma registry_ok_start (st : FModHandler) :
  loadingEntries st = ∅ ->
  registry_ok (emplace "SML" createSMLLoadingEntry (loadingEntries st)).
Proof.
  intros ->. unfold emplace. rewrite lookup_empty. split.
  - intros key e Hk. destruct (decide ("SML" = key)) as [<-|Hne].
    + rewrite lookup_insert_eq in Hk. injection Hk as <-. split; reflexivity.
    + rewrite lookup_insert_ne, lookup_empty in Hk by assumption. discriminate.
  - apply lookup_insert_eq.
Qed.

(** X16. What discovery hands to dependency checking. When [discoverMods]
    returns, on a handler that had no entries: every element of
    [loadingEntries] is a valid entry stored under its own mod id, the
    entry of the loader itself is there as [createSMLLoadingEntry] made
    it (no file of the directory replaces or changes it), no problem is
    left pending, and every file that was on the disk still is. *)
Theorem discoverMods_registers_well (listing : list string) (st : FModHandler) :
  loadingEntries st = ∅ ->
  match discoverMods listing st with
  | Returned st' =>
      well_keyed (loadingEntries st')
      /\ loadingEntries st' !! "SML" = Some createSMLLoadingEntry
      /\ loadingProblems st' = []
      /\ sortedModLoadList st' = sortedModLoadList st
      /\ (forall p, is_Some (disk st !! p) -> is_Some (disk st' !! p))
  | Thrown _ => True
  end.
Proof.
  intros Hempty. unfold discoverMods.
  destruct (discoverFiles listing _) as [st1|e] eqn:Hfiles; [|exact I].
  destruct (discoverFiles_ok listing
              (set_loadingEntries st (emplace "SML" createSMLLoadingEntry (loadingEntries st)))
              st1 (registry_ok_start st Hempty) Hfiles)
    as [[Hkeyed Hsml] (_ & Hsorted & _ & Hdisk)].
  cbn [loadingEntries set_loadingEntries sortedModLoadList disk] in Hsorted, Hdisk.
  destruct (checkStageErrors_frame "mod discovery" st1)
    as (Hproblems & Hentries & Hsorted' & Hdisk' & _).
  rewrite Hentries, Hproblems, Hsorted', Hsorted, Hdisk'. split_all; try assumption;
    reflexivity.
Qed.


(** A raw file in production mode: refused with a problem. *)
Lemma constructRawMod_production (filePath : string)
  (f : FModLoadingEntry -> FModLoadingEntry) (st : FModHandler) :
  debugLogOutput = false ->
  exists st',
    match checkAndNotifyRawMod filePath st with
    | (st, false) => Returned st
    | (st, true) =>
        match getModIdFromFile filePath with
        | Thrown e => Thrown e
        | Returned modId => Returned (registerRawMod modId filePath f st)
        end
    end = Returned st'
    /\ loadingEntries st' = loadingEntries st
    /\ discovery_step st st'
    /\ loadingProblems st' <> [].
Proof.
  intros Hmode.
  destruct (checkAndNotifyRawMod_ok filePath st) as (Hentries & Hstep & Hflag & Hproblem).
  rewrite Hmode in Hflag. specialize (Hproblem Hmode).
  destruct (checkAndNotifyRawMod filePath st) as [st1 flag].
  cbn [fst snd] in Hentries, Hstep, Hflag, Hproblem. subst flag.
  exists st1. split; [reflexivity|]. split; [exact Hentries|]. split; [exact Hstep|].
  rewrite Hproblem. intros E. apply app_eq_nil in E as [_ E]. discriminate.
Qed.

Lemma problems_stay (st st' : FModHandler) :
  discovery_step st st' -> loadingProblems st <> [] -> loadingProblems st' <> [].
Proof.
  intros (_ & _ & (added & ->) & _) Hne E. apply app_eq_nil in E as [E _]. contradiction.
Qed.

Lemma discoverFile_production (file : string) (st : FModHandler) :
  debugLogOutput = false ->
  registry_ok (loadingEntries st) -> no_raw_entries (loadingEntries st) ->
  exists st',
    discoverFile st file = Returned st'
    /\ registry_ok (loadingEntries st') /\ no_raw_entries (loadingEntries st')
    /\ discovery_step st st'
    /\ (is_Some (disk st !! file) ->
        Path.extension file = ".dll" \/ Path.extension file = ".pak" ->
        loadingProblems st' <> []).
Proof.
  intros Hmode Hok Hraw. unfold discoverFile, path_exists.
  destruct (disk st !! file) as [bytes|] eqn:Hfile.
  2:{ exists st. split; [reflexivity|]. split; [exact Hok|]. split; [exact Hraw|].
      split; [apply discovery_step_refl|]. intros [? Habs]. discriminate. }
  destruct (String.eqb_spec (Path.extension file) ".smod") as [E1|E1]; cbn [orb].
  { rewrite E1. cbn [String.eqb Ascii.eqb Bool.eqb].
    destruct (constructZipMod_ok file st Hok) as [Hok1 Hstep1].
    exists (constructZipMod file st). split; [reflexivity|]. split; [exact Hok1|].
    split; [apply constructZipMod_no_raw; assumption|]. split; [exact Hstep1|].
    intros _ [E|E]; rewrite E in E1; discriminate. }
  destruct (String.eqb_spec (Path.extension file) ".zip") as [E2|E2].
  { rewrite E2. cbn [String.eqb Ascii.eqb Bool.eqb].
    destruct (constructZipMod_ok file st Hok) as [Hok1 Hstep1].
    exists (constructZipMod file st). split; [reflexivity|]. split; [exact Hok1|].
    split; [apply constructZipMod_no_raw; assumption|]. split; [exact Hstep1|].
    intros _ [E|E]; rewrite E in E2; discriminate. }
  destruct (String.eqb_spec (Path.extension file) ".dll") as [E3|E3].
  { rewrite E3. cbn [String.eqb Ascii.eqb Bool.eqb].
    destruct (constructRawMod_production file (fun e => set_dllFilePath e file) st Hmode)
      as (st1 & Hr & Hentries & Hstep & Hproblems).
    unfold constructDllMod. rewrite Hr.
    exists st1. split; [reflexivity|]. rewrite Hentries.
    split; [exact Hok|]. split; [exact Hraw|]. split; [exact Hstep|].
    intros _ _. exact Hproblems. }
  destruct (String.eqb_spec (Path.extension file) ".pak") as [E4|E4].
  - destruct (constructRawMod_production file (fun e => push_pakFilePath e file) st Hmode)
      as (st1 & Hr & Hentries & Hstep & Hproblems).
    unfold constructPakMod. rewrite Hr.
    exists st1. split; [reflexivity|]. rewrite Hentries.
    split; [exact Hok|]. split; [exact Hraw|]. split; [exact Hstep|].
    intros _ _. exact Hproblems.
  - exists st. split; [reflexivity|]. split; [exact Hok|]. split; [exact Hraw|].
    split; [apply discovery_step_refl|]. intros _ [E|E]; contradiction.
Qed.

Lemma discoverFiles_production (files : list string) (st : FModHandler) :
  debugLogOutput = false ->
  registry_ok (loadingEntries st) -> no_raw_entries (loadingEntries st) ->
  exists st',
    discoverFiles files st = Returned st'
    /\ no_raw_entries (loadingEntries st')
    /\ discovery_step st st'
    /\ (forall file, file ∈ files -> is_Some (disk st !! file) ->
          Path.extension file = ".dll" \/ Path.extension file = ".pak" ->
          loadingProblems st' <> []).
Proof.
  intros Hmode. revert st. induction files as [|file files IH]; intros st Hok Hraw;
    cbn [discoverFiles].
  - exists st. split; [reflexivity|]. split; [exact Hraw|].
    split; [apply discovery_step_refl|]. intros file Hin. inversion Hin.
  - destruct (discoverFile_production file st Hmode Hok Hraw)
      as (st1 & -> & Hok1 & Hraw1 & Hstep1 & Hfile).
    destruct (IH st1 Hok1 Hraw1) as (st' & -> & Hraw' & Hstep' & Hrest).
    exists st'. split; [reflexivity|]. split; [exact Hraw'|].
    split; [eapply discovery_step_trans; eassumption|].
    intros f Hin Hdisk Hext. apply elem_of_cons in Hin as [->|Hin].
    + apply (problems_stay st1 st' Hstep'). apply Hfile; assumption.
    + apply (Hrest f Hin); [|exact Hext].
      destruct Hstep1 as (_ & _ & _ & Hkeep). apply Hkeep. exact Hdisk.
Qed.


(** X18. In development mode a regular [.pak] file whose stem is a single
    character other than ['_'] and ['p'] ends discovery with the
    exception of [getModIdFromFile]: no problem is recorded for it and
    the stage check is not reached. *)
Theorem one_letter_pak_aborts_discovery
  (file : string) (b : ascii) (rest : list string) (st : FModHandler) :
  debugLogOutput = true ->
  is_Some (disk st !! file) ->
  WString.size file < WString.npos ->
  Path.filename file = String b ".pak" -> b <> "_"%char -> b <> "p"%char ->
  constructPakMod file st = Thrown "out_of_range"
  /\ discoverMods (file :: rest) st = Thrown "out_of_range".
Proof.
  intros Hmode [bytes Hdisk] Hbound Hname Hb1 Hb2.
  pose proof (getModIdFromFile_pak_one_letter file b Hbound Hname Hb1 Hb2) as Hid.
  assert (Hext : Path.extension file = ".pak")
    by apply (split_at_last_dot file (String b "") "pak" Hbound Hname pak_has_no_dot).
  assert (Hpak : forall st1, constructPakMod file st1 = Thrown "out_of_range").
  { intros st1. unfold constructPakMod, checkAndNotifyRawMod. rewrite Hmode, Hid. reflexivity. }
  split; [apply Hpak|].
  unfold discoverMods. cbn [discoverFiles]. unfold discoverFile, path_exists.
  cbn [disk set_loadingEntries]. rewrite Hdisk, Hext.
  cbn [String.eqb Ascii.eqb Bool.eqb orb]. rewrite Hpak. reflexivity.
Qed.

End DiscoveryFacts.

(** ** More on loading *)

Section MoreLoaderFacts.
Context `{Versions} `{Host} `{Platform}.

Lemma loader_step_refl st : loader_step st st.
Proof.
  unfold loader_step. split_all; try reflexivity.
  exists []. symmetry. apply app_nil_r.
Qed.

Lemma loader_step_trans st1 st2 st3 :
  loader_step st1 st2 -> loader_step st2 st3 -> loader_step st1 st3.
Proof.
  intros (A1 & A2 & A3 & A4 & (a & A5) & A6) (B1 & B2 & B3 & B4 & (b & B5) & B6).
  unfold loader_step. split_all; try congruence.
  exists (a ++ b)%list. rewrite B5, A5, app_assoc. reflexivity.
Qed.

Lemma loader_step_log lvl message st : loader_step st (log lvl message st).
Proof.
  unfold loader_step. cbn. split_all; try reflexivity.
  exists []. symmetry. apply app_nil_r.
Qed.

Lemma loader_step_push message st : loader_step st (push_problem message st).
Proof.
  unfold loader_step. cbn. split_all; try reflexivity.
  exists [message]. reflexivity.
Qed.

Lemma loader_step_engine e st : loader_step st (set_engine st e).
Proof.
  unfold loader_step. cbn. split_all; try reflexivity.
  exists []. symmetry. apply app_nil_r.
Qed.

Lemma loader_step_loadModuleDll acc e :
  loader_step (fst acc) (fst (loadModuleDll acc e)).
Proof.
  destruct acc as [st dlls]. unfold loadModuleDll.
  destruct (String.eqb (dllFilePath e) ""); [apply loader_step_refl|].
  destruct (LoadModule (dllFilePath e) (engine st)) as [en [[m|]|what]]; cbn [fst].
  - apply loader_step_engine.
  - eapply loader_step_trans; [apply loader_step_engine|].
    eapply loader_step_trans; [apply loader_step_log|apply loader_step_push].
  - eapply loader_step_trans; [apply loader_step_engine|].
    eapply loader_step_trans; [apply loader_step_log|apply loader_step_push].
Qed.

Lemma loader_step_loadModuleDlls es acc :
  loader_step (fst acc) (fst (fold_left loadModuleDll es acc)).
Proof.
  revert acc. induction es as [|e es IH]; intros acc; cbn [fold_left].
  - apply loader_step_refl.
  - eapply loader_step_trans; [apply loader_step_loadModuleDll|apply IH].
Qed.

Lemma loader_step_initModuleDll acc pair :
  loader_step (fst acc) (fst (initModuleDll acc pair)).
Proof.
  destruct acc as [st mods]. unfold initModuleDll.
  destruct (GetModuleProcAddress _ _ _) as [init|]; cbn [fst].
  - destruct (LoadModuleFromInitializerFunc _ _ _) as [en m]. apply loader_step_engine.
  - eapply loader_step_trans; [apply loader_step_log|apply loader_step_push].
Qed.

Lemma loader_step_initModuleDlls dlls acc :
  loader_step (fst acc) (fst (fold_left initModuleDll dlls acc)).
Proof.
  revert acc. induction dlls as [|p dlls IH]; intros acc; cbn [fold_left].
  - apply loader_step_refl.
  - eapply loader_step_trans; [apply loader_step_initModuleDll|apply IH].
Qed.

Lemma loader_step_populateModList loadedModules st e :
  loader_step st (populateModList loadedModules st e).
Proof.
  unfold populateModList.
  destruct (ordered_find _ _) as [i|]; [|destruct (newDefaultModuleImpl _) as [en i]];
    unfold loader_step; cbn; split_all; try reflexivity;
    exists []; symmetry; apply app_nil_r.
Qed.

Lemma loader_step_populateAll loadedModules es st :
  loader_step st (fold_left (populateModList loadedModules) es st).
Proof.
  revert st. induction es as [|e es IH]; intros st; cbn [fold_left].
  - apply loader_step_refl.
  - eapply loader_step_trans; [apply loader_step_populateModList|apply IH].
Qed.

(** One step of the fourth loop: an initializer entry is added only for
    an entry with paks, and only when a class was found. *)
Lemma mountModPaks_spec st e :
  loadingEntries (mountModPaks st e) = loadingEntries st
  /\ sortedModLoadList (mountModPaks st e) = sortedModLoadList st
  /\ disk (mountModPaks st e) = disk st
  /\ shutdownRequests (mountModPaks st e) = shutdownRequests st
  /\ loadingProblems (mountModPaks st e) = loadingProblems st
  /\ (modPakInitializers (mountModPaks st e) = modPakInitializers st
      \/ (pakFilePaths e <> []
          /\ exists ini,
               modPakInitializers (mountModPaks st e)
               = (modPakInitializers st ++ [ini])%list
               /\ pak_modid ini = modid (modInfo e)
               /\ (modInitClass ini <> None \/ menuInitClass ini <> None))).
Proof.
  unfold mountModPaks. destruct (pakFilePaths e) as [|p ps] eqn:Hpaks.
  - cbn. split_all; try reflexivity. left. reflexivity.
  - cbn [engine set_engine].
    destruct (LoadClass _ _) as [en1 c1]. destruct (LoadClass _ en1) as [en2 c2].
    destruct c1 as [c1|]; [|destruct c2 as [c2|]]; cbn; split_all; try reflexivity.
    + right. split; [discriminate|]. eexists. split; [reflexivity|].
      split; [reflexivity|]. left. discriminate.
    + right. split; [discriminate|]. eexists. split; [reflexivity|].
      split; [reflexivity|]. right. discriminate.
    + left. reflexivity.
Qed.


Lemma mountAll_spec es st :
  let st' := fold_left mountModPaks es st in
  loadingEntries st' = loadingEntries st
  /\ sortedModLoadList st' = sortedModLoadList st
  /\ disk st' = disk st
  /\ shutdownRequests st' = shutdownRequests st
  /\ loadingProblems st' = loadingProblems st
  /\ exists added,
       modPakInitializers st' = (modPakInitializers st ++ added)%list
       /\ sublist (map pak_modid added) (ids_of (List.filter has_paks es))
       /\ Forall (fun ini => modInitClass ini <> None \/ menuInitClass ini <> None) added.
Proof.
  revert st. induction es as [|e es IH]; intros st; cbn [fold_left].
  - cbn zeta. split_all; try reflexivity. exists []. split; [symmetry; apply app_nil_r|].
    split; constructor.
  - destruct (mountModPaks_spec st e) as (E1 & E2 & E3 & E4 & E5 & Hini).
    destruct (IH (mountModPaks st e)) as (I1 & I2 & I3 & I4 & I5 & added & Hadded & Hsub & Hall).
    cbn zeta. rewrite I1, I2, I3, I4, I5, E1, E2, E3, E4, E5, Hadded.
    split_all; try reflexivity.
    cbn [List.filter]. unfold has_paks at 1.
    destruct Hini as [->|(Hpaks & ini & -> & Hid & Hclass)].
    + exists added. split; [reflexivity|]. split; [|exact Hall].
      destruct (pakFilePaths e); [exact Hsub|]. cbn [ids_of map]. apply sublist_cons. exact Hsub.
    + exists (ini :: added). split; [rewrite <- app_assoc; reflexivity|]. split.
      * destruct (pakFilePaths e); [contradiction|]. cbn [ids_of map]. rewrite Hid.
        apply sublist_skip. exact Hsub.
      * constructor; assumption.
Qed.

Lemma populateAll_problems loadedModules es st :
  loadingProblems (fold_left (populateModList loadedModules) es st) = loadingProblems st.
Proof.
  revert st. induction es as [|e es IH]; intros st; cbn [fold_left]; [reflexivity|].
  rewrite IH. unfold populateModList.
  destruct (ordered_find _ _) as [i|]; [|destruct (newDefaultModuleImpl _) as [en i]];
    reflexivity.
Qed.

(** [loadMods] as its four loops followed by the stage check. *)
Lemma loadMods_stages st :
  exists sta dlls en smlModule stb loadedModules st3,
    fold_left loadModuleDll (sortedModLoadList st)
      (log LogInfo "Loading mods into the process address space..." st, []) = (sta, dlls)
    /\ fold_left initModuleDll dlls
         (set_engine (log LogInfo "Loading mods..." sta) en,
          ordered_insert "SML" smlModule []) = (stb, loadedModules)
    /\ loader_step st sta /\ loader_step sta stb /\ loader_step stb st3
    /\ loadingProblems st3 = loadingProblems stb
    /\ loadMods st
       = checkStageErrors "mod initialization"
           (fold_left mountModPaks (sortedModLoadList st3) st3).
Proof.
  unfold loadMods.
  change (sortedModLoadList
            (log LogInfo "Loading mods into the process address space..." st))
    with (sortedModLoadList st).
  pose proof (loader_step_loadModuleDlls (sortedModLoadList st)
                (log LogInfo "Loading mods into the process address space..." st, [])) as Hloop1.
  destruct (fold_left loadModuleDll _ _) as [sta dlls]. cbn [fst] in Hloop1.
  destruct (LoadModuleFromInitializerFunc "SML" InitializeSMLModule _) as [en smlModule].
  pose proof (loader_step_initModuleDlls dlls
                (set_engine (log LogInfo "Loading mods..." sta) en,
                 ordered_insert "SML" smlModule [])) as Hloop2.
  destruct (fold_left initModuleDll _ _) as [stb loadedModules] eqn:Hinit. cbn [fst] in Hloop2.
  pose proof (loader_step_populateAll loadedModules
                (sortedModLoadList (log LogInfo "Populating mod list..." stb))
                (log LogInfo "Populating mod list..." stb)) as Hloop3.
  exists sta, dlls, en, smlModule, stb, loadedModules.
  eexists. split; [reflexivity|]. split; [exact Hinit|]. split_all; [| | | |reflexivity].
  - eapply loader_step_trans; [apply loader_step_log|exact Hloop1].
  - eapply loader_step_trans; [apply loader_step_log|].
    eapply loader_step_trans; [apply loader_step_engine|exact Hloop2].
  - eapply loader_step_trans; [apply loader_step_log|].
    eapply loader_step_trans; [exact Hloop3|]. apply loader_step_log.
  - cbn [loadingProblems log set_logged]. rewrite populateAll_problems. reflexivity.
Qed.

(** X19. Which pak initializers [loadMods] records: it only appends to
    [modPakInitializers]; every entry it appends carries at least one
    class that was found; and their mod ids are, in load order, ids of
    entries of the sorted load list that have a pak, each such entry
    giving at most one. A mod without paks never gets one. *)
Theorem loadMods_pak_initializers (st : FModHandler) :
  exists added,
    modPakInitializers (loadMods st) = (modPakInitializers st ++ added)%list
    /\ sublist (map pak_modid added) (ids_of (List.filter has_paks (sortedModLoadList st)))
    /\ Forall (fun ini => modInitClass ini <> None \/ menuInitClass ini <> None) added.
Proof.
  destruct (loadMods_stages st)
    as (sta & dlls & en & smlModule & stb & loadedModules & st3
        & _ & _ & Ha & Hb & Hc & _ & ->).
  destruct (loader_step_trans _ _ _ (loader_step_trans _ _ _ Ha Hb) Hc)
    as (_ & Hsorted & _ & _ & _ & Hini).
  destruct (mountAll_spec (sortedModLoadList st3) st3)
    as (_ & _ & _ & _ & _ & added & Hadded & Hsub & Hall).
  cbn zeta in Hadded. exists added.
  assert (Hcheck : forall s, modPakInitializers (checkStageErrors "mod initialization" s)
                             = modPakInitializers s).
  { intros s. unfold checkStageErrors. destruct (loadingProblems s); reflexivity. }
  rewrite Hcheck, Hadded, Hini. rewrite Hsorted in Hsub. repeat split; assumption.
Qed.

Lemma no_dll_nothing_loaded es st :
  Forall (fun e => dllFilePath e = "") es ->
  fold_left loadModuleDll es (st, []) = (st, []).
Proof.
  intros Hall. induction Hall as [|e es He Hall IH]; cbn [fold_left]; [reflexivity|].
  unfold loadModuleDll at 2. rewrite He. cbn [String.eqb]. exact IH.
Qed.

Lemma loadModuleDll_fails acc e :
  dllFilePath e <> "" ->
  (forall en module, snd (LoadModule (dllFilePath e) en) <> Returned (Some module)) ->
  loadingProblems (fst (loadModuleDll acc e)) <> [].
Proof.
  intros Hdll Hfail. destruct acc as [st dlls]. unfold loadModuleDll.
  apply String.eqb_neq in Hdll. rewrite Hdll.
  specialize (Hfail (engine st)).
  destruct (LoadModule (dllFilePath e) (engine st)) as [en [[m|]|what]]; cbn [fst snd] in *.
  - exfalso. apply (Hfail m). reflexivity.
  - cbn. intros E. apply app_eq_nil in E as [_ E]. discriminate.
  - cbn. intros E. apply app_eq_nil in E as [_ E]. discriminate.
Qed.

Lemma loader_step_problems_stay st st' :
  loader_step st st' -> loadingProblems st <> [] -> loadingProblems st' <> [].
Proof.
  intros (_ & _ & _ & _ & (added & ->) & _) Hne E. apply app_eq_nil in E as [E _].
  contradiction.
Qed.

(** X20. How [loadMods] ends. It leaves no problem pending and touches
    neither the loading entries, the sorted load list nor the disk. It
    asks for the engine to shut down at most once, with the headline of
    the stage; it does so when a problem was pending before or when the
    module of some entry cannot be loaded, and it does not when nothing
    was pending and no entry names a module. *)
Theorem loadMods_stage_check (st : FModHandler) :
  loadingProblems (loadMods st) = []
  /\ loadingEntries (loadMods st) = loadingEntries st
  /\ sortedModLoadList (loadMods st) = sortedModLoadList st
  /\ disk (loadMods st) = disk st
  /\ (shutdownRequests (loadMods st) = shutdownRequests st
      \/ shutdownRequests (loadMods st)
         = (shutdownRequests st ++ [stageHeadline "mod initialization"])%list)
  /\ (loadingProblems st <> [] ->
        shutdownRequests (loadMods st)
        = (shutdownRequests st ++ [stageHeadline "mod initialization"])%list)
  /\ (forall e,
        e ∈ sortedModLoadList st -> dllFilePath e <> "" ->
        (forall en module, snd (LoadModule (dllFilePath e) en) <> Returned (Some module)) ->
        shutdownRequests (loadMods st)
        = (shutdownRequests st ++ [stageHeadline "mod initialization"])%list)
  /\ (loadingProblems st = [] ->
        Forall (fun e => dllFilePath e = "") (sortedModLoadList st) ->
        shutdownRequests (loadMods st) = shutdownRequests st).
Proof.
  destruct (loadMods_stages st)
    as (sta & dlls & en & smlModule & stb & loadedModules & st3
        & Hloop1 & Hloop2 & Ha & Hb & Hc & Hsame & Hload).
  pose proof (loader_step_trans _ _ _ (loader_step_trans _ _ _ Ha Hb) Hc) as Hstep.
  pose proof Hstep as (S1 & S2 & S3 & S4 & _ & _).
  destruct (mountAll_spec (sortedModLoadList st3) st3) as (M1 & M2 & M3 & M4 & M5 & _).
  cbn zeta in M1, M2, M3, M4, M5.
  destruct (checkStageErrors_frame "mod initialization"
              (fold_left mountModPaks (sortedModLoadList st3) st3))
    as (C1 & C2 & C3 & C4 & C5).
  rewrite M5 in C5. rewrite M4, S4 in C5. fold (stageHeadline "mod initialization") in C5.
  rewrite Hload, C1, C2, C3, C4, C5, M1, M2, M3, S1, S2, S3.
  split_all; try reflexivity.
  - destruct (loadingProblems st3); [left|right]; reflexivity.
  - intros Hne. pose proof (loader_step_problems_stay st st3 Hstep Hne) as Hne3.
    destruct (loadingProblems st3); [contradiction|reflexivity].
  - intros e Hin Hdll Hfail.
    assert (Hne3 : loadingProblems st3 <> []); [|destruct (loadingProblems st3);
                                                  [contradiction|reflexivity]].
    apply (loader_step_problems_stay sta st3 (loader_step_trans _ _ _ Hb Hc)).
    apply list_elem_of_split in Hin as (l1 & l2 & Hsplit).
    rewrite Hsplit, fold_left_app in Hloop1. cbn [fold_left] in Hloop1.
    pose proof (loadModuleDll_fails
                  (fold_left loadModuleDll l1
                     (log LogInfo "Loading mods into the process address space..." st, []))
                  e Hdll Hfail) as Hproblem.
    pose proof (loader_step_loadModuleDlls l2
                  (loadModuleDll
                     (fold_left loadModuleDll l1
                        (log LogInfo "Loading mods into the process address space..." st, []))
                     e)) as Hrest.
    rewrite Hloop1 in Hrest. cbn [fst] in Hrest.
    apply (loader_step_problems_stay _ _ Hrest Hproblem).
  - intros Hnone Hall.
    rewrite no_dll_nothing_loaded in Hloop1 by exact Hall. injection Hloop1 as <- <-.
    cbn [fold_left] in Hloop2. injection Hloop2 as <- _.
    rewrite Hsame. cbn [loadingProblems set_engine log set_logged]. rewrite Hnone.
    reflexivity.
Qed.

End MoreLoaderFacts.

(** ** Indices and the final reordering *)

Section MoreIndexFacts.
Context `{Versions} `{Host} `{Platform}.

Lemma assignIndices_next (walk : list (string * FModLoadingEntry)) :
  ix_next (assignIndices walk) = S (length walk)
  /\ ix_modByIndex (assignIndices walk) !! 0%nat = None.
Proof.
  induction walk as [|p walk [IHn IH0]] using rev_ind; [split; reflexivity|].
  rewrite assignIndices_snoc. unfold assignIndex. cbn [ix_next ix_modByIndex].
  rewrite IHn, length_app. cbn [length]. split; [lia|].
  rewrite lookup_emplace, IH0. rewrite decide_False by lia. reflexivity.
Qed.

(** X21. The two index tables of [checkDependencies] are inverse to each
    other on the ids visited: the element visited at position [i] gets
    index [i + 1], which names it back; an id that was not visited reads
    as index 0, and index 0 names no mod (it reads as the empty id). *)
Theorem assignIndices_round_trip (walk : list (string * FModLoadingEntry)) :
  NoDup (map fst walk) ->
  let modIndices := ix_modIndices (assignIndices walk) in
  let modByIndex := ix_modByIndex (assignIndices walk) in
  (forall i key, map fst walk !! i = Some key ->
     index_of modIndices key = S i /\ name_of modByIndex (S i) = key)
  /\ (forall key, key ∈ map fst walk ->
        name_of modByIndex (index_of modIndices key) = key
        /\ (1 <= index_of modIndices key <= length walk)%nat)
  /\ (forall key, key ∉ map fst walk -> index_of modIndices key = 0%nat)
  /\ name_of modByIndex 0 = ""
  /\ graph_nodes (ix_graph (assignIndices walk)) = seq 1 (length walk).
Proof.
  intros Hnodup. cbn zeta.
  destruct (assignIndices_spec walk Hnodup) as (_ & Hnodes & _ & Hidx & _ & Hlow).
  destruct (assignIndices_next walk) as [_ Hzero].
  unfold index_of, name_of. split_all.
  - intros i key Hi. destruct (Hidx i key Hi) as [-> ->]. split; reflexivity.
  - intros key Hin. apply list_elem_of_lookup in Hin as [i Hi].
    destruct (Hidx i key Hi) as [E1 E2]. rewrite E1. cbn [default from_option id].
    rewrite E2. split; [reflexivity|].
    apply lookup_lt_Some in Hi. rewrite length_map in Hi. lia.
  - intros key Hkey. rewrite (Hlow key Hkey). reflexivity.
  - rewrite Hzero. reflexivity.
  - exact Hnodes.
Qed.

(** The positions [finalizeSortingResults] collects, counted from [k]. *)
Lemma tagged_positions_none (tagged : nat -> bool) (k : nat) (l : list nat) :
  Forall (fun x => tagged x = false) l ->
  map fst (filter (fun p => tagged (snd p)) (combine (seq k (length l)) l)) = [].
Proof.
  intros Hl. revert k. induction Hl as [|x l Hx Hl IH]; intros k; [reflexivity|].
  cbn [length seq combine]. rewrite filter_cons_False by (cbn; rewrite Hx; intros []).
  apply IH.
Qed.

Lemma tagged_positions_single (tagged : nat -> bool) (k : nat) (l1 : list nat) (m : nat)
  (l2 : list nat) :
  Forall (fun x => tagged x = false) l1 -> tagged m = true ->
  Forall (fun x => tagged x = false) l2 ->
  map fst (filter (fun p => tagged (snd p))
             (combine (seq k (length (l1 ++ m :: l2)%list)) (l1 ++ m :: l2)%list))
  = [(k + length l1)%nat].
Proof.
  intros Hl1 Hm Hl2. revert k. induction Hl1 as [|x l1 Hx Hl1 IH]; intros k.
  - cbn [app length seq combine]. rewrite filter_cons_True by (cbn; rewrite Hm; exact I).
    cbn [map fst]. rewrite tagged_positions_none by assumption. f_equal. lia.
  - cbn [app length seq combine]. rewrite filter_cons_False by (cbn; rewrite Hx; intros []).
    cbn [app length] in IH. rewrite IH. f_equal. lia.
Qed.

Lemma filter_absent (n : nat) (l : list nat) :
  n ∉ l -> filter (fun x => negb (x =? n)%nat) l = l.
Proof.
  induction l as [|x l IH]; intros Hnot; [reflexivity|].
  apply not_elem_of_cons in Hnot as [Hne Hnot].
  rewrite filter_cons_True.
  - rewrite IH by exact Hnot. reflexivity.
  - cbn. destruct (Nat.eqb_spec x n) as [E|_]; [congruence|exact I].
Qed.

(** X22. What [finalizeSortingResults] moves when one entry of the sorted
    sequence carries the [@ORDER:LAST] tag: not the index of that entry
    but the number of its position. Every occurrence of that number is
    taken out of the sequence and the number is put at its end; when the
    number is not in the sequence nothing is taken out, and the tagged
    entry stays where it was. *)
Theorem finalizeSortingResults_moves_the_position
  (modByIndex : gmap nat string) (entries : gmap string FModLoadingEntry)
  (before : list nat) (tagged : nat) (after : list nat) :
  let carries_tag index :=
    has_key "@ORDER:LAST"
      (dependencies (modInfo (entry_at entries (name_of modByIndex index)))) in
  let position := length before in
  carries_tag tagged = true ->
  Forall (fun index => carries_tag index = false) before ->
  Forall (fun index => carries_tag index = false) after ->
  finalizeSortingResults modByIndex entries (before ++ tagged :: after)%list
  = (filter (fun index => negb (index =? position)%nat) (before ++ tagged :: after)
       ++ [position])%list
  /\ (position ∉ (before ++ tagged :: after)%list ->
      finalizeSortingResults modByIndex entries (before ++ tagged :: after)%list
      = ((before ++ tagged :: after) ++ [position])%list).
Proof.
  cbn zeta. intros Htagged Hbefore Hafter.
  assert (Hmoved : finalizeSortingResults modByIndex entries (before ++ tagged :: after)%list
                   = moveToEnd (before ++ tagged :: after)%list (length before)).
  { unfold finalizeSortingResults, modsToMoveInTheEnd.
    rewrite (tagged_positions_single
               (fun index => has_key "@ORDER:LAST"
                  (dependencies (modInfo (entry_at entries (name_of modByIndex index)))))
               0 before tagged after Hbefore Htagged Hafter).
    reflexivity. }
  rewrite Hmoved. unfold moveToEnd. split; [reflexivity|].
  intros Hnot. rewrite filter_absent by exact Hnot. reflexivity.
Qed.

End MoreIndexFacts.

(** ** After the game mode has loaded *)

Section PostLoadFacts.
Context `{Versions} `{Host} `{Platform} `{!World}.

Lemma postLoadInitializer_frame (isMenuWorld : bool) (st : FModHandler)
  (initializer : FModPakLoadEntry) :
  let st' := postLoadInitializer isMenuWorld st initializer in
  loadingEntries st' = loadingEntries st
  /\ loadingProblems st' = loadingProblems st
  /\ sortedModLoadList st' = sortedModLoadList st
  /\ loadedMods st' = loadedMods st
  /\ loadedModsList st' = loadedModsList st
  /\ loadedModsModIDs st' = loadedModsModIDs st
  /\ modPakInitializers st' = modPakInitializers st
  /\ shutdownRequests st' = shutdownRequests st
  /\ disk st' = disk st
  /\ ((if isMenuWorld then menuInitClass initializer else modInitClass initializer) = None ->
      st' = st).
Proof.
  cbn zeta. unfold postLoadInitializer.
  destruct (if isMenuWorld then menuInitClass initializer else modInitClass initializer).
  - destruct (SpawnActor _ _) as [e actor]. cbn [engine set_engine].
    destruct (FindFunction actor "PostInit" e) as [function|].
    + destruct (CallFunction actor function e) as [e' [[]|what]];
        cbn; split_all; try reflexivity; discriminate.
    + cbn; split_all; try reflexivity; discriminate.
  - split_all; reflexivity.
Qed.

Lemma postLoadAll_frame (isMenuWorld : bool) (inits : list FModPakLoadEntry)
  (st : FModHandler) :
  let st' := fold_left (postLoadInitializer isMenuWorld) inits st in
  loadingEntries st' = loadingEntries st
  /\ loadingProblems st' = loadingProblems st
  /\ sortedModLoadList st' = sortedModLoadList st
  /\ loadedMods st' = loadedMods st
  /\ loadedModsList st' = loadedModsList st
  /\ loadedModsModIDs st' = loadedModsModIDs st
  /\ modPakInitializers st' = modPakInitializers st
  /\ shutdownRequests st' = shutdownRequests st
  /\ disk st' = disk st
  /\ (Forall (fun initializer =>
                (if isMenuWorld then menuInitClass initializer else modInitClass initializer)
                = None) inits ->
      st' = st).
Proof.
  revert st. induction inits as [|ini inits IH]; intros st; cbn [fold_left].
  - cbn zeta. split_all; reflexivity.
  - destruct (postLoadInitializer_frame isMenuWorld st ini)
      as (A1 & A2 & A3 & A4 & A5 & A6 & A7 & A8 & A9 & A10).
    destruct (IH (postLoadInitializer isMenuWorld st ini))
      as (B1 & B2 & B3 & B4 & B5 & B6 & B7 & B8 & B9 & B10).
    cbn zeta in *. split_all; try congruence.
    intros Hall. inversion Hall as [|? ? Hini Hrest]; subst.
    rewrite (A10 Hini) in *. apply B10. exact Hrest.
Qed.

(** X23. [onGameModePostLoad] changes nothing of the handler but the engine
    and the log, and does nothing at all, no actor is spawned, when no
    initializer has a class for the kind of world that has loaded. *)
Theorem onGameModePostLoad_only_acts_on_its_world (isMenuWorld : bool) (st : FModHandler) :
  let st' := onGameModePostLoad isMenuWorld st in
  loadingEntries st' = loadingEntries st
  /\ loadingProblems st' = loadingProblems st
  /\ sortedModLoadList st' = sortedModLoadList st
  /\ loadedMods st' = loadedMods st
  /\ loadedModsList st' = loadedModsList st
  /\ loadedModsModIDs st' = loadedModsModIDs st
  /\ modPakInitializers st' = modPakInitializers st
  /\ shutdownRequests st' = shutdownRequests st
  /\ disk st' = disk st
  /\ (Forall (fun initializer =>
                (if isMenuWorld then menuInitClass initializer else modInitClass initializer)
                = None) (modPakInitializers st) ->
      st' = st).
Proof. exact (postLoadAll_frame isMenuWorld (modPakInitializers st) st). Qed.

End PostLoadFacts.

Section RecordedPostLoad.
Context `{Versions} `{Host}.
Variable postInit : string -> option (outcome unit).

Lemma recorded_initializer (isMenuWorld : bool) (st : @FModHandler _ plainPlatform)
  (initializer : @FModPakLoadEntry plainPlatform) :
  engine (@postLoadInitializer _ plainPlatform (recordingWorld postInit) isMenuWorld st
            initializer)
  = (engine st ++ (if acted_on isMenuWorld initializer
                   then recorded_calls postInit initializer else []))%list.
Proof.
  unfold postLoadInitializer, acted_on, recorded_calls.
  destruct (if isMenuWorld then menuInitClass initializer else modInitClass initializer);
    [|symmetry; apply app_nil_r].
  cbn [SpawnActor FindFunction CallFunction Destroy recordingWorld engine set_engine].
  destruct (postInit (class_name (menuInitClass initializer))) as [[[]|what]|];
    cbn [engine set_engine log set_logged app]; rewrite <- ?app_assoc; reflexivity.
Qed.

(** X24. What [onGameModePostLoad] asks of the world, as a world that
    records its calls sees it: for every initializer that has a class
    for the kind of world that has loaded, in their order, an actor is
    spawned from the initializer's menu class, also when the world is
    not a menu world and whether or not there is such a class, [PostInit]
    is called on it when the actor has that function, and the actor is
    destroyed, also when the call threw. *)
Theorem onGameModePostLoad_spawns_the_menu_class (isMenuWorld : bool)
  (st : @FModHandler _ plainPlatform) :
  engine (@onGameModePostLoad _ plainPlatform (recordingWorld postInit) isMenuWorld st)
  = (engine st
       ++ flat_map (recorded_calls postInit)
            (List.filter (acted_on isMenuWorld) (modPakInitializers st)))%list.
Proof.
  unfold onGameModePostLoad. generalize (modPakInitializers st) as inits.
  intros inits. revert st. induction inits as [|ini inits IH]; intros st;
    cbn [fold_left List.filter flat_map].
  - symmetry. apply app_nil_r.
  - rewrite IH, recorded_initializer.
    destruct (acted_on isMenuWorld ini); cbn [flat_map].
    + rewrite <- app_assoc. reflexivity.
    + rewrite app_nil_r. reflexivity.
Qed.

End RecordedPostLoad.

(** ** Scenarios of the further properties *)

Section FurtherScenarios.
Existing Instances dottedVersions dumpHost plainPlatform manifestArchives.

Lemma getModIdFromFile_needs_a_dot_witness :
  WString.size "mods/notes.txt" < WString.npos
  /\ getModIdFromFile "mods/README" = Thrown "out_of_range"
  /\ getModIdFromFile "mods/notes.txt" = Returned "notes".
Proof.
  assert (Hbound : WString.size "mods/notes.txt" < WString.npos) by (vm_compute; reflexivity).
  split; [exact Hbound|]. split.
  - apply (getModIdFromFile_needs_a_dot "mods/README"); [vm_compute; reflexivity|].
    vm_compute. repeat constructor; discriminate.
  - destruct (getModIdFromFile_needs_a_dot "mods/notes.txt" Hbound) as [_ Hext].
    apply (Hext "notes" "txt"); [vm_compute; reflexivity| |discriminate|discriminate].
    vm_compute. repeat constructor; discriminate.
Defined.

Lemma getModIdFromFile_dll_first_piece_witness :
  WString.size "mods/FactoryGame-Win64-Shipping.dll" < WString.npos
  /\ Path.filename "mods/FactoryGame-Win64-Shipping.dll"
     = "FactoryGame-Win64-Shipping" ++ ".dll"
  /\ exists id,
       getModIdFromFile "mods/FactoryGame-Win64-Shipping.dll" = Returned id
       /\ Forall (fun c => c <> "-"%char) (WString.chars id)
       /\ ("FactoryGame-Win64-Shipping" = id
           \/ exists rest, "FactoryGame-Win64-Shipping" = id ++ String "-" rest).
Proof.
  assert (Hbound : WString.size "mods/FactoryGame-Win64-Shipping.dll" < WString.npos)
    by (vm_compute; reflexivity).
  assert (Hname : Path.filename "mods/FactoryGame-Win64-Shipping.dll"
                  = "FactoryGame-Win64-Shipping" ++ ".dll") by (vm_compute; reflexivity).
  split; [exact Hbound|]. split; [exact Hname|].
  exact (getModIdFromFile_dll_first_piece "mods/FactoryGame-Win64-Shipping.dll"
           "FactoryGame-Win64-Shipping" Hbound Hname).
Defined.

Lemma getModIdFromFile_pak_suffix_witness :
  WString.size "mods/FactoryGame_p.pak" < WString.npos
  /\ Path.filename "mods/FactoryGame_p.pak" = "FactoryGame_p" ++ ".pak"
  /\ getModIdFromFile "mods/FactoryGame_p.pak" = Returned "FactoryGame_p".
Proof.
  assert (Hbound : WString.size "mods/FactoryGame_p.pak" < WString.npos)
    by (vm_compute; reflexivity).
  assert (Hname : Path.filename "mods/FactoryGame_p.pak" = "FactoryGame_p" ++ ".pak")
    by (vm_compute; reflexivity).
  split; [exact Hbound|]. split; [exact Hname|].
  destruct (getModIdFromFile_pak_suffix "mods/FactoryGame_p.pak" "FactoryGame_p" Hbound Hname)
    as (_ & Hlast & _).
  apply (Hlast "FactoryGame_" "p"%char); [reflexivity|right; reflexivity].
Defined.

Lemma config_object_kept_when_present_witness :
  ex_root (extractionOf "Config/Mod.cfg" ∅) !! "Config/Mod.cfg" = Some (fresh_file payload)
  /\ snd (extractArchiveObject "config" "Config/Mod.cfg" (extractionOf "Config/Mod.cfg" ∅))
     = Returned tt
  /\ ex_entry (fst (extractArchiveObject "config" "Config/Mod.cfg"
                      (extractionOf "Config/Mod.cfg" ∅)))
     = ex_entry (extractionOf "Config/Mod.cfg" ∅).
Proof.
  assert (Hfile : ex_root (extractionOf "Config/Mod.cfg" ∅) !! "Config/Mod.cfg"
                  = Some (fresh_file payload)) by (vm_compute; reflexivity).
  split; [exact Hfile|].
  destruct (config_object_kept_when_present "Config/Mod.cfg"
              (extractionOf "Config/Mod.cfg" ∅) (fresh_file payload) Hfile)
    as (Hret & Hentry & _).
  split; [exact Hret|exact Hentry].
Defined.

Lemma rejected_object_is_cached_first_witness :
  ex_root (extractionOf "Content/Core.dll" ∅) !! "Content/Core.dll" = Some (fresh_file payload)
  /\ snd (extractArchiveObject "core_mod" "Content/Core.dll"
            (extractionOf "Content/Core.dll" ∅))
     = Thrown "core mods are not supported by this version of SML"
  /\ is_Some (ex_disk (fst (extractArchiveObject "core_mod" "Content/Core.dll"
                              (extractionOf "Content/Core.dll" ∅)))
                !! cacheFileOf (fresh_file payload)).
Proof.
  assert (Hfile : ex_root (extractionOf "Content/Core.dll" ∅) !! "Content/Core.dll"
                  = Some (fresh_file payload)) by (vm_compute; reflexivity).
  split; [exact Hfile|].
  destruct (rejected_object_is_cached_first "core_mod" "Content/Core.dll"
              (extractionOf "Content/Core.dll" ∅) (fresh_file payload) Hfile
              ltac:(discriminate) ltac:(discriminate) ltac:(discriminate))
    as (Hret & _ & Hcached).
  split; [exact Hret|exact Hcached].
Defined.

Lemma object_listed_twice_witness :
  ex_root (extractionOf "Content/Mod.pak" ∅) !! "Content/Mod.pak" = Some (fresh_file payload)
  /\ pakFilePaths
       (ex_entry (fst (extractArchiveObject "pak" "Content/Mod.pak"
                         (fst (extractArchiveObject "pak" "Content/Mod.pak"
                                 (extractionOf "Content/Mod.pak" ∅))))))
     = ["cache/010203"; "cache/000000"].
Proof.
  assert (Hfile : ex_root (extractionOf "Content/Mod.pak" ∅) !! "Content/Mod.pak"
                  = Some (fresh_file payload)) by (vm_compute; reflexivity).
  split; [exact Hfile|].
  rewrite (object_listed_twice "Content/Mod.pak" (extractionOf "Content/Mod.pak" ∅)
             payload Hfile).
  vm_compute. reflexivity.
Defined.


Lemma extractArchiveObjects_returned_witness :
  let objects := Some [Some ("pak", "Content/Mod.pak"); Some ("sml_mod", "Content/Mod.pak")] in
  let x := extractionOf "Content/Mod.pak" ∅ in
  extractArchiveObjects objects x = (fst (extractArchiveObjects objects x), Returned tt)
  /\ length (pakFilePaths (ex_entry (fst (extractArchiveObjects objects x)))) = 1%nat.
Proof.
  cbn zeta.
  assert (Hr : extractArchiveObjects
                 (Some [Some ("pak", "Content/Mod.pak"); Some ("sml_mod", "Content/Mod.pak")])
                 (extractionOf "Content/Mod.pak" ∅)
               = (fst (extractArchiveObjects
                         (Some [Some ("pak", "Content/Mod.pak");
                                Some ("sml_mod", "Content/Mod.pak")])
                         (extractionOf "Content/Mod.pak" ∅)), Returned tt)).
  { assert (Hsnd : snd (extractArchiveObjects
                          (Some [Some ("pak", "Content/Mod.pak");
                                 Some ("sml_mod", "Content/Mod.pak")])
                          (extractionOf "Content/Mod.pak" ∅)) = Returned tt)
      by (vm_compute; reflexivity).
    destruct (extractArchiveObjects _ _) as [x' r]. cbn [fst snd] in *. rewrite Hsnd.
    reflexivity. }
  split; [exact Hr|].
  destruct (extractArchiveObjects_returned _ _ _ Hr) as (items & [= <-] & _ & Hlen & _).
  rewrite Hlen. reflexivity.
Defined.

Lemma first_registration_wins_witness :
  isValid (entry_at (loadingEntries freshHandler) (modid M1)) = false
  /\ modid (descriptor "M1" [9; 9; 9]%nat [] []) = modid M1
  /\ loadingProblems
       (fst (createLoadingEntry (descriptor "M1" [9; 9; 9]%nat [] []) "mods/M1-copy.smod"
               (fst (createLoadingEntry M1 "mods/M1.smod" freshHandler))))
     = (loadingProblems freshHandler
          ++ [formatStr ["Found duplicate mods with same mod ID "; modid M1; ": ";
                         "mods/M1-copy.smod"; " and "; "mods/M1.smod"]])%list.
Proof.
  assert (Hinv : isValid (entry_at (loadingEntries freshHandler) (modid M1)) = false)
    by (vm_compute; reflexivity).
  split; [exact Hinv|]. split; [reflexivity|].
  apply (first_registration_wins M1 (descriptor "M1" [9; 9; 9]%nat [] [])
           "mods/M1.smod" "mods/M1-copy.smod" freshHandler Hinv eq_refl).
Defined.

Lemma raw_mods_refused_in_production_witness :
  @debugLogOutput productionHost = false
  /\ exists st',
       @constructDllMod dottedVersions productionHost plainPlatform "mods/Foo.dll" freshHandler
       = Returned st'
       /\ @constructPakMod dottedVersions productionHost plainPlatform "mods/Foo.dll"
            freshHandler = Returned st'
       /\ loadingEntries st' = loadingEntries freshHandler
       /\ loadingProblems st'
          = (loadingProblems freshHandler
               ++ [formatStr ["Found unsupported raw mod file: "; "mods/Foo.dll"]])%list
       /\ shutdownRequests st' = shutdownRequests freshHandler.
Proof.
  split; [reflexivity|].
  exact (@raw_mods_refused_in_production dottedVersions productionHost plainPlatform
           "mods/Foo.dll" freshHandler eq_refl).
Defined.

Lemma raw_files_of_one_mod_accumulate_witness :
  debugLogOutput = true
  /\ getModIdFromFile secondModule = Returned "Foo"
  /\ isValid (entry_at (loadingEntries handlerFoo) "Foo") = true
  /\ isRawMod (entry_at (loadingEntries handlerFoo) "Foo") = true
  /\ exists stDll,
       constructDllMod secondModule handlerFoo = Returned stDll
       /\ loadingEntries stDll
          = <["Foo" := set_dllFilePath (entry_at (loadingEntries handlerFoo) "Foo") secondModule]>
              (loadingEntries handlerFoo)
       /\ loadingProblems stDll = loadingProblems handlerFoo.
Proof.
  assert (Hid : getModIdFromFile secondModule = Returned "Foo") by (vm_compute; reflexivity).
  assert (Hvalid : isValid (entry_at (loadingEntries handlerFoo) "Foo") = true)
    by (vm_compute; reflexivity).
  assert (Hraw : isRawMod (entry_at (loadingEntries handlerFoo) "Foo") = true)
    by (vm_compute; reflexivity).
  split; [reflexivity|]. split; [exact Hid|]. split; [exact Hvalid|]. split; [exact Hraw|].
  destruct (raw_files_of_one_mod_accumulate secondModule "Foo" handlerFoo
              (entry_at (loadingEntries handlerFoo) "Foo")
              (eq_refl : @debugLogOutput dumpHost = true) Hid
              (entry_at_valid_present _ _ Hvalid) Hvalid Hraw)
    as (stDll & stPak & Hdll & _ & Hentries & _ & Hproblems & _).
  exists stDll. split; [exact Hdll|]. split; [exact Hentries|exact Hproblems].
Defined.

Lemma discoverMods_registers_well_witness :
  loadingEntries modsHandler = ∅
  /\ match discoverMods ["mods/Pack.smod"; "mods/Foo.dll"; "mods/readme.txt"]
             modsHandler with
     | Returned st' =>
         well_keyed (loadingEntries st')
         /\ loadingEntries st' !! "SML" = Some createSMLLoadingEntry
         /\ loadingProblems st' = []
         /\ sortedModLoadList st' = sortedModLoadList modsHandler
         /\ (forall p, is_Some (disk modsHandler !! p) ->
                       is_Some (disk st' !! p))
     | Thrown _ => True
     end.
Proof.
  split; [reflexivity|].
  apply discoverMods_registers_well. reflexivity.
Defined.


Lemma one_letter_pak_aborts_discovery_witness :
  debugLogOutput = true
  /\ is_Some (disk modsHandler !! "mods/x.pak")
  /\ WString.size "mods/x.pak" < WString.npos
  /\ Path.filename "mods/x.pak" = String "x" ".pak"
  /\ constructPakMod "mods/x.pak" modsHandler = Thrown "out_of_range"
  /\ discoverMods ["mods/x.pak"; "mods/Foo.dll"] modsHandler
     = Thrown "out_of_range".
Proof.
  assert (Hdisk : is_Some (disk modsHandler !! "mods/x.pak"))
    by (vm_compute; eexists; reflexivity).
  assert (Hbound : WString.size "mods/x.pak" < WString.npos) by (vm_compute; reflexivity).
  assert (Hname : Path.filename "mods/x.pak" = String "x" ".pak") by (vm_compute; reflexivity).
  split; [reflexivity|]. split; [exact Hdisk|]. split; [exact Hbound|]. split; [exact Hname|].
  exact (one_letter_pak_aborts_discovery "mods/x.pak" "x"%char ["mods/Foo.dll"]
           modsHandler (eq_refl : @debugLogOutput dumpHost = true)
           Hdisk Hbound Hname
           ltac:(discriminate) ltac:(discriminate)).
Defined.

Lemma assignIndices_round_trip_witness :
  let walk := walk_of (loadingEntries handlerABC) registrationABC in
  NoDup (map fst walk)
  /\ index_of (ix_modIndices (assignIndices walk)) "B" = 3%nat
  /\ name_of (ix_modByIndex (assignIndices walk)) 3 = "B"
  /\ index_of (ix_modIndices (assignIndices walk)) "Z" = 0%nat.
Proof.
  cbn zeta.
  assert (Hkeys : map fst (walk_of (loadingEntries handlerABC) registrationABC)
                  = registrationABC).
  { unfold walk_of. rewrite map_map. cbn [fst]. apply map_id. }
  assert (Hnodup : NoDup (map fst (walk_of (loadingEntries handlerABC) registrationABC))).
  { rewrite Hkeys. unfold registrationABC.
    repeat (apply NoDup_cons_2;
            [intros Hin; apply list_elem_of_In in Hin; cbn in Hin; intuition discriminate|]).
    apply NoDup_nil_2. }
  split; [exact Hnodup|].
  destruct (assignIndices_round_trip _ Hnodup) as (Hidx & _ & Hother & _).
  cbn zeta in Hidx, Hother.
  destruct (Hidx 2%nat "B") as [E1 E2]; [rewrite Hkeys; reflexivity|].
  split; [exact E1|]. split; [exact E2|].
  apply Hother. rewrite Hkeys. unfold registrationABC. intros Hin.
  apply list_elem_of_In in Hin. cbn in Hin. intuition discriminate.
Defined.

Lemma finalizeSortingResults_moves_the_position_witness :
  let modByIndex : gmap nat string := list_to_map [(1, "M1"); (2, "M2"); (3, "M3")]%nat in
  let entries := loadingEntries handlerM123 in
  has_key "@ORDER:LAST"
    (dependencies (modInfo (entry_at entries (name_of modByIndex 3)))) = true
  /\ finalizeSortingResults modByIndex entries ([1; 2] ++ 3 :: [])%nat%list
     = (filter (fun index => negb (index =? 2)%nat) [1; 2; 3]%nat ++ [2%nat])%list.
Proof.
  cbn zeta.
  assert (Htagged : has_key "@ORDER:LAST"
                      (dependencies (modInfo (entry_at (loadingEntries handlerM123)
                         (name_of (list_to_map [(1, "M1"); (2, "M2"); (3, "M3")]%nat) 3%nat))))
                    = true) by (vm_compute; reflexivity).
  split; [exact Htagged|].
  apply (finalizeSortingResults_moves_the_position
           (list_to_map [(1, "M1"); (2, "M2"); (3, "M3")]%nat) (loadingEntries handlerM123)
           [1; 2]%nat 3%nat [] Htagged).
  - repeat constructor; vm_compute; reflexivity.
  - constructor.
Defined.

End FurtherScenarios.
